(** * Flood-risk-weighted routing engine of chennai-floodguard

    Shallow embedding of [public/models/chennai_safe_shortest_path_with_map.py]:
    the great-circle distance, the hazard proximity model, the graph builder,
    the nearest-node scan and the path finder, followed by the properties
    established for them.

    Python floats are read as real numbers (no rounding, no NaN): the
    functions of the [math] module are the functions of the same name on
    [R].  The one failure that rounding brings about, the domain error of
    [math.sqrt] in [haversine_km], is the subject of the module [Rounded].
    Node identifiers (JSON integers) are [Z].  A Python [dict] is an
    association list kept in insertion order, assignment to an existing key
    replacing the value in place. *)

From Stdlib Require Import Reals Lra Lia ZArith List Bool String.
From Stdlib Require Import Permutation Sorted.
From Stdlib Require Ascii.
Import ListNotations.

Open Scope R_scope.

(** ** Exceptions and fallible computations *)

(** The exceptions that the modelled code paths can raise. *)
Inductive exception : Type :=
| ValueError
| KeyError
| HTTPError
| NodeNotFound
| NetworkXNoPath.

Inductive result (A : Type) : Type :=
| Ok (a : A)
| Raise (e : exception).

Arguments Ok {A} a.
Arguments Raise {A} e.

Definition bind {A B : Type} (m : result A) (k : A -> result B) : result B :=
  match m with
  | Ok a => k a
  | Raise e => Raise e
  end.

Notation "x <- m ;; k" := (bind m (fun x => k))
  (at level 61, m at next level, right associativity).

Fixpoint mapM {A B : Type} (f : A -> result B) (l : list A) : result (list B) :=
  match l with
  | [] => Ok []
  | a :: r => b <- f a ;; bs <- mapM f r ;; Ok (b :: bs)
  end.

(** ** Dictionaries keyed by node id *)

Section Dict.
Context {A : Type}.

Fixpoint lookup (k : Z) (d : list (Z * A)) : option A :=
  match d with
  | [] => None
  | (k', a) :: r => if Z.eqb k' k then Some a else lookup k r
  end.

(** [d[k] = a]: replaces in place, or appends a new key. *)
Fixpoint dict_set (k : Z) (a : A) (d : list (Z * A)) : list (Z * A) :=
  match d with
  | [] => [(k, a)]
  | (k', a') :: r =>
      if Z.eqb k' k then (k', a) :: r else (k', a') :: dict_set k a r
  end.

Fixpoint dict_del (k : Z) (d : list (Z * A)) : list (Z * A) :=
  match d with
  | [] => []
  | (k', a') :: r =>
      if Z.eqb k' k then dict_del k r else (k', a') :: dict_del k r
  end.

Definition mem (k : Z) (d : list (Z * A)) : bool :=
  match lookup k d with
  | Some _ => true
  | None => false
  end.

Definition keys (d : list (Z * A)) : list Z := map fst d.
End Dict.

(** ** 2. Basic distance helpers *)

Definition radians (x : R) : R := x * (PI / 180).

(** [math.atan2(y, x)] *)
Definition atan2 (y x : R) : R :=
  match total_order_T 0 x with
  | inleft (left _) => atan (y / x)
  | inleft (right _) =>
      match total_order_T 0 y with
      | inleft (left _) => PI / 2
      | inleft (right _) => 0
      | inright _ => - (PI / 2)
      end
  | inright _ =>
      if Rle_dec 0 y then atan (y / x) + PI else atan (y / x) - PI
  end.

(** The quantity [a] of [haversine_km]. *)
Definition haversine_a (lat1 lon1 lat2 lon2 : R) : R :=
  let d_lat := radians (lat2 - lat1) in
  let d_lon := radians (lon2 - lon1) in
  sin (d_lat / 2) ^ 2
  + cos (radians lat1) * cos (radians lat2) * sin (d_lon / 2) ^ 2.

(** [haversine_km] in exact arithmetic.  [math.sqrt] raises on a negative
    argument; [haversine_a_range] below shows that neither argument passed
    here is negative when [a] is not rounded, so the total [sqrt] of the
    reals is what the function computes then.  [Rounded.haversine_km] is
    the function with the failure that a rounded [a] brings about. *)
Definition haversine_km (lat1 lon1 lat2 lon2 : R) : R :=
  let R_earth := 6371 in
  let a := haversine_a lat1 lon1 lat2 lon2 in
  let c := 2 * atan2 (sqrt a) (sqrt (1 - a)) in
  R_earth * c.

(** [min] and [max] of Python over a sequence: the first extremal element is
    kept, an empty sequence raises [ValueError]. *)
Fixpoint min_from (m : R) (l : list R) : R :=
  match l with
  | [] => m
  | x :: r => min_from (if Rlt_dec x m then x else m) r
  end.

Definition py_min (l : list R) : result R :=
  match l with
  | [] => Raise ValueError
  | x :: r => Ok (min_from x r)
  end.

Fixpoint max_from (m : R) (l : list R) : R :=
  match l with
  | [] => m
  | x :: r => max_from (if Rlt_dec m x then x else m) r
  end.

Definition py_max (l : list R) : result R :=
  match l with
  | [] => Raise ValueError
  | x :: r => Ok (max_from x r)
  end.

(** A position: latitude and longitude, in degrees. *)
Abbreviation Coord := (R * R)%type.

Definition min_distance_to_flood (lat lon : R) (flood_points : list Coord)
  : result R :=
  py_min (map (fun f => haversine_km lat lon (fst f) (snd f)) flood_points).

(** ** 3. Road graph built from an Overpass reply *)

(** One entry of [data["elements"]]: a node with its id and position, a way
    with its optional list of node references, or anything else. *)
Inductive element : Type :=
| ElNode (id : Z) (lat lon : R)
| ElWay (refs : option (list Z))
| ElOther.

(** An edge of the [nx.Graph]: its end points and its attribute dictionary.
    The dictionary is shared by both directions of the adjacency, so one
    record stands for [G[u][v]] and [G[v][u]]. *)
Record edge : Type := mkEdge {
  eu : Z;
  ev : Z;
  length : R;
  weight : R
}.

Record Graph : Type := mkGraph {
  nodes : list (Z * Coord);
  edges : list edge
}.

(** The reply of the Overpass service to the bounding-box query
    [south, west, north, east]: the list of elements of the JSON body, or
    the failure of the request. *)
Definition Overpass : Type := R -> R -> R -> R -> result (list element).

(** First loop over [data["elements"]]: the [nodes] dictionary. *)
Fixpoint collect_nodes (els : list element) (nodes : list (Z * Coord))
  : list (Z * Coord) :=
  match els with
  | [] => nodes
  | ElNode id lat lon :: r => collect_nodes r (dict_set id (lat, lon) nodes)
  | _ :: r => collect_nodes r nodes
  end.

(** First loop over [data["elements"]]: the [ways] list, each way already
    read through [w.get("nodes", [])]. *)
Fixpoint collect_ways (els : list element) : list (list Z) :=
  match els with
  | [] => []
  | ElWay (Some refs) :: r => refs :: collect_ways r
  | ElWay None :: r => [] :: collect_ways r
  | _ :: r => collect_ways r
  end.

(** [zip(refs[:-1], refs[1:])] *)
Definition consecutive (refs : list Z) : list (Z * Z) :=
  combine (removelast refs) (tl refs).

(** Edges before the risk pass: end points and [length]. *)
Definition segment : Type := (Z * Z * R)%type.

Definition connects (a b : Z) (u v : Z) : bool :=
  (Z.eqb u a && Z.eqb v b) || (Z.eqb u b && Z.eqb v a).

(** [G.add_edge(a, b, length=len)] on a graph that has both nodes: the
    attribute dictionary of an existing edge between the two nodes, in
    either direction, is updated; otherwise a new edge is inserted. *)
Fixpoint add_edge (a b : Z) (len : R) (es : list segment) : list segment :=
  match es with
  | [] => [(a, b, len)]
  | (u, v, l) :: r =>
      if connects a b u v then (u, v, len) :: r
      else (u, v, l) :: add_edge a b len r
  end.

(** Inner loop of "Build edges": one way. *)
Fixpoint add_way (nodes : list (Z * Coord)) (pairs : list (Z * Z))
  (es : list segment) : list segment :=
  match pairs with
  | [] => es
  | (a, b) :: r =>
      match lookup a nodes, lookup b nodes with
      | Some (lat1, lon1), Some (lat2, lon2) =>
          let len := haversine_km lat1 lon1 lat2 lon2 * 1000 in
          add_way nodes r (add_edge a b len es)
      | _, _ => add_way nodes r es
      end
  end.

(** Outer loop of "Build edges". *)
Fixpoint add_ways (nodes : list (Z * Coord)) (ways : list (list Z))
  (es : list segment) : list segment :=
  match ways with
  | [] => es
  | refs :: r => add_ways nodes r (add_way nodes (consecutive refs) es)
  end.

(** [G.nodes[n]] followed by the reads of ["lat"] and ["lon"]. *)
Definition node_coord (nodes : list (Z * Coord)) (n : Z) : result Coord :=
  match lookup n nodes with
  | Some c => Ok c
  | None => Raise KeyError
  end.

(** [0 if d_min >= max_risk_dist_km else (1 - d_min/max_risk_dist_km)] *)
Definition edge_risk (d_min max_risk_dist_km : R) : R :=
  if Rge_dec d_min max_risk_dist_km then 0
  else 1 - d_min / max_risk_dist_km.

(** The distance to the nearest flood point of the middle of two positions. *)
Definition midpoint_distance (cu cv : Coord) (flood_points : list Coord)
  : result R :=
  let mid_lat := (fst cu + fst cv) / 2 in
  let mid_lon := (snd cu + snd cv) / 2 in
  min_distance_to_flood mid_lat mid_lon flood_points.

(** Body of "Add flood risk weights" for one edge. *)
Definition weigh_edge (nodes : list (Z * Coord)) (flood_points : list Coord)
  (alpha max_risk_dist_km : R) (s : segment) : result edge :=
  let '(u, v, len) := s in
  cu <- node_coord nodes u ;;
  cv <- node_coord nodes v ;;
  d_min <- midpoint_distance cu cv flood_points ;;
  let risk := edge_risk d_min max_risk_dist_km in
  Ok (mkEdge u v len (len * (1 + alpha * risk))).

(** The function after the reply has been decoded.  [G.edges(data=True)]
    yields every edge once, and the weight set on an edge depends on that
    edge alone, so the edges are weighed in the order of their insertion. *)
Definition graph_of_elements (flood_points : list Coord)
  (alpha max_risk_dist_km : R) (els : list element) : result Graph :=
  let nodes := collect_nodes els [] in
  let ways := collect_ways els in
  let segs := add_ways nodes ways [] in
  es <- mapM (weigh_edge nodes flood_points alpha max_risk_dist_km) segs ;;
  Ok (mkGraph nodes es).

(** [build_flood_weighted_graph_overpass]: the bounding box of the flood
    points, the query, whose reply [overpass] gives, and the graph of the
    reply.  A failed request ([raise_for_status]) is a reply that raises. *)
Definition build_flood_weighted_graph_overpass (flood_points : list Coord)
  (margin alpha max_risk_dist_km : R) (overpass : Overpass) : result Graph :=
  let lats := map fst flood_points in
  let lons := map snd flood_points in
  min_lat <- py_min lats ;;
  max_lat <- py_max lats ;;
  min_lon <- py_min lons ;;
  max_lon <- py_max lons ;;
  let south := min_lat - margin in
  let north := max_lat + margin in
  let west := min_lon - margin in
  let east := max_lon + margin in
  els <- overpass south west north east ;;
  graph_of_elements flood_points alpha max_risk_dist_km els.

(** ** 4. Safest-shortest path *)

(** [best_dist], which starts at [float("inf")]. *)
Inductive bound : Type :=
| Inf
| Fin (d : R).

Definition below (d : R) (b : bound) : bool :=
  match b with
  | Inf => true
  | Fin d' => if Rlt_dec d d' then true else false
  end.

Fixpoint nearest_scan (lat lon : R) (ns : list (Z * Coord))
  (best_node : option Z) (best_dist : bound) : option Z :=
  match ns with
  | [] => best_node
  | (n, (nlat, nlon)) :: r =>
      let d_km := haversine_km lat lon nlat nlon in
      if below d_km best_dist
      then nearest_scan lat lon r (Some n) (Fin d_km)
      else nearest_scan lat lon r best_node best_dist
  end.

(** [None] is the [None] of Python. *)
Definition find_nearest_node (G : Graph) (lat lon : R) : option Z :=
  nearest_scan lat lon (nodes G) None Inf.

(** *** The shortest-path search

    [compute_safe_path] hands the search to [nx.shortest_path], a function
    of the networkx library, which is not part of the repository.  The
    definitions from [entry] to [shortest_path] stand for that call; they
    follow section 4.5 of the specification. *)

(** Modelled from the spec: an entry of the priority queue of the search,
    which networkx holds: a node, the cost of the best route found to it so
    far and that route, from the start node to the node. *)
Definition entry : Type := (Z * (R * list Z))%type.

(** Modelled from the spec: the adjacency [G[v]] that networkx reads
    through the ["weight"] attribute, that is the neighbours of [v] with
    the cost of the edge to each. *)
Definition neighbors (G : Graph) (v : Z) : list (Z * R) :=
  flat_map
    (fun e =>
       if Z.eqb (eu e) v then [(ev e, weight e)]
       else if Z.eqb (ev e) v then [(eu e, weight e)]
       else [])
    (edges G).

(** Modelled from the spec: the entry that the priority queue of networkx
    yields, the first entry of least cost. *)
Fixpoint min_entry (best : entry) (l : list entry) : entry :=
  match l with
  | [] => best
  | x :: r =>
      min_entry (if Rlt_dec (fst (snd x)) (fst (snd best)) then x else best) r
  end.

(** Modelled from the spec: the removal of the entry of least cost from
    the priority queue of networkx. *)
Definition pop_min (fringe : list entry) : option (entry * list entry) :=
  match fringe with
  | [] => None
  | x :: r =>
      let m := min_entry x r in
      Some (m, dict_del (fst m) fringe)
  end.

(** Modelled from the spec: the relaxation step of networkx, for the edge
    from the node just settled, reached at cost [d] by the route [p], to
    its neighbour [u]. *)
Definition relax (dist : list (Z * R)) (d : R) (p : list Z)
  (fringe : list entry) (uw : Z * R) : list entry :=
  let (u, w) := uw in
  if mem u dist then fringe
  else
    match lookup u fringe with
    | Some (du, _) =>
        if Rlt_dec (d + w) du then dict_set u (d + w, p ++ [u]) fringe
        else fringe
    | None => dict_set u (d + w, p ++ [u]) fringe
    end.

(** Modelled from the spec: the main loop of the search of networkx.
    [dist] holds the settled nodes with their final cost, [fringe] the
    queue.  [None] stands for a loop that has not finished within [fuel]
    iterations. *)
Fixpoint dijkstra_loop (fuel : nat) (G : Graph) (target : Z)
  (dist : list (Z * R)) (fringe : list entry) : option (result (list Z)) :=
  match fuel with
  | O => None
  | S fuel' =>
      match pop_min fringe with
      | None => Some (Raise NetworkXNoPath)
      | Some ((v, (d, p)), fringe') =>
          if Z.eqb v target then Some (Ok p)
          else
            let dist' := (v, d) :: dist in
            dijkstra_loop fuel' G target dist'
              (fold_left (relax dist' d p) (neighbors G v) fringe')
      end
  end.

(** Modelled from the spec: [nx.shortest_path(G, source, target,
    weight="weight")] belongs to the networkx library, which is not part of
    the repository.  Section 4.5 of the specification describes it as the
    classic shortest-path search for non-negative weights by relaxation
    over a priority queue, failing with [InvalidNode] when an end point is
    not in the graph and with [NoPathExists] when the queue runs dry; the
    two failures carry the names networkx gives them. *)
Definition shortest_path_fuel (fuel : nat) (G : Graph) (source target : Z)
  : option (result (list Z)) :=
  if negb (mem source (nodes G)) then Some (Raise NodeNotFound)
  else if negb (mem target (nodes G)) then Some (Raise NodeNotFound)
  else dijkstra_loop fuel G target [] [(source, (0, [source]))].

(** Modelled from the spec: the call [nx.shortest_path(G, source, target,
    weight="weight")] of networkx.  Every iteration settles a node that was
    not settled before, so the loop is given one iteration per node and one
    more to find the queue empty ([shortest_path_terminates]). *)
Definition shortest_path (G : Graph) (source target : Z)
  : option (result (list Z)) :=
  shortest_path_fuel (S (List.length (nodes G))) G source target.

(** [compute_safe_path].  When the graph has no node both scans give
    [None] and [nx.shortest_path(G, None, None)] is the collection of the
    routes between all pairs of nodes, which is empty: the comprehension
    runs over nothing. *)
Definition compute_safe_path (G : Graph)
  (start_lat start_lon end_lat end_lon : R) : option (result (list Coord)) :=
  let start_node := find_nearest_node G start_lat start_lon in
  let end_node := find_nearest_node G end_lat end_lon in
  match start_node, end_node with
  | Some s, Some t =>
      match shortest_path G s t with
      | Some (Ok path) => Some (mapM (node_coord (nodes G)) path)
      | Some (Raise e) => Some (Raise e)
      | None => None
      end
  | _, _ => Some (Ok [])
  end.

(** ** The domain error of [math.sqrt]

    In exact arithmetic the quantity [a] of [haversine_km] lies between 0
    and 1 ([haversine_a_range]), and the functions above never raise on
    its account.  The float that Python computes for [a] is a rounding of
    it: for two points that are nearly antipodal it can exceed 1, and
    [math.sqrt(1 - a)] then raises [ValueError].  The functions of this
    module are the functions above with that failure: they take the float
    computed for [a] as a parameter, [computed_a], and raise where the code
    raises.  The rounding of the distance itself stays out: a distance
    that is returned is the exact one. *)
Module Rounded.

(** [math.sqrt] *)
Definition py_sqrt (x : R) : result R :=
  if Rlt_dec x 0 then Raise ValueError else Ok (sqrt x).

(** [haversine_km]: [a] is the float of line 45, which both square roots
    of line 46 must accept; the distance returned is the one of exact
    arithmetic. *)
Definition haversine_km (computed_a : R -> R -> R -> R -> R)
  (lat1 lon1 lat2 lon2 : R) : result R :=
  let a := computed_a lat1 lon1 lat2 lon2 in
  _ <- py_sqrt a ;;
  _ <- py_sqrt (1 - a) ;;
  Ok (haversine_km lat1 lon1 lat2 lon2).

(** The generator is consumed by [min], which raises on an empty one. *)
Definition min_distance_to_flood (computed_a : R -> R -> R -> R -> R)
  (lat lon : R) (flood_points : list Coord) : result R :=
  ds <- mapM (fun f => haversine_km computed_a lat lon (fst f) (snd f))
          flood_points ;;
  py_min ds.

Fixpoint add_way (computed_a : R -> R -> R -> R -> R)
  (nodes : list (Z * Coord)) (pairs : list (Z * Z)) (es : list segment)
  : result (list segment) :=
  match pairs with
  | [] => Ok es
  | (a, b) :: r =>
      match lookup a nodes, lookup b nodes with
      | Some (lat1, lon1), Some (lat2, lon2) =>
          d <- haversine_km computed_a lat1 lon1 lat2 lon2 ;;
          let len := d * 1000 in
          add_way computed_a nodes r (add_edge a b len es)
      | _, _ => add_way computed_a nodes r es
      end
  end.

Fixpoint add_ways (computed_a : R -> R -> R -> R -> R)
  (nodes : list (Z * Coord)) (ways : list (list Z)) (es : list segment)
  : result (list segment) :=
  match ways with
  | [] => Ok es
  | refs :: r =>
      es' <- add_way computed_a nodes (consecutive refs) es ;;
      add_ways computed_a nodes r es'
  end.

Definition midpoint_distance (computed_a : R -> R -> R -> R -> R)
  (cu cv : Coord) (flood_points : list Coord) : result R :=
  let mid_lat := (fst cu + fst cv) / 2 in
  let mid_lon := (snd cu + snd cv) / 2 in
  min_distance_to_flood computed_a mid_lat mid_lon flood_points.

Definition weigh_edge (computed_a : R -> R -> R -> R -> R)
  (nodes : list (Z * Coord)) (flood_points : list Coord)
  (alpha max_risk_dist_km : R) (s : segment) : result edge :=
  let '(u, v, len) := s in
  cu <- node_coord nodes u ;;
  cv <- node_coord nodes v ;;
  d_min <- midpoint_distance computed_a cu cv flood_points ;;
  let risk := edge_risk d_min max_risk_dist_km in
  Ok (mkEdge u v len (len * (1 + alpha * risk))).

Definition graph_of_elements (computed_a : R -> R -> R -> R -> R)
  (flood_points : list Coord) (alpha max_risk_dist_km : R)
  (els : list element) : result Graph :=
  let nodes := collect_nodes els [] in
  let ways := collect_ways els in
  segs <- add_ways computed_a nodes ways [] ;;
  es <- mapM (weigh_edge computed_a nodes flood_points alpha
                max_risk_dist_km) segs ;;
  Ok (mkGraph nodes es).

Definition build_flood_weighted_graph_overpass
  (computed_a : R -> R -> R -> R -> R) (flood_points : list Coord)
  (margin alpha max_risk_dist_km : R) (overpass : Overpass) : result Graph :=
  let lats := map fst flood_points in
  let lons := map snd flood_points in
  min_lat <- py_min lats ;;
  max_lat <- py_max lats ;;
  min_lon <- py_min lons ;;
  max_lon <- py_max lons ;;
  let south := min_lat - margin in
  let north := max_lat + margin in
  let west := min_lon - margin in
  let east := max_lon + margin in
  els <- overpass south west north east ;;
  graph_of_elements computed_a flood_points alpha max_risk_dist_km els.

Fixpoint nearest_scan (computed_a : R -> R -> R -> R -> R) (lat lon : R)
  (ns : list (Z * Coord)) (best_node : option Z) (best_dist : bound)
  : result (option Z) :=
  match ns with
  | [] => Ok best_node
  | (n, (nlat, nlon)) :: r =>
      d_km <- haversine_km computed_a lat lon nlat nlon ;;
      if below d_km best_dist
      then nearest_scan computed_a lat lon r (Some n) (Fin d_km)
      else nearest_scan computed_a lat lon r best_node best_dist
  end.

Definition find_nearest_node (computed_a : R -> R -> R -> R -> R)
  (G : Graph) (lat lon : R) : result (option Z) :=
  nearest_scan computed_a lat lon (nodes G) None Inf.

(** [compute_safe_path]: both scans run before the search. *)
Definition compute_safe_path (computed_a : R -> R -> R -> R -> R) (G : Graph)
  (start_lat start_lon end_lat end_lon : R) : option (result (list Coord)) :=
  match find_nearest_node computed_a G start_lat start_lon with
  | Raise e => Some (Raise e)
  | Ok start_node =>
      match find_nearest_node computed_a G end_lat end_lon with
      | Raise e => Some (Raise e)
      | Ok end_node =>
          match start_node, end_node with
          | Some s, Some t =>
              match shortest_path G s t with
              | Some (Ok path) => Some (mapM (node_coord (nodes G)) path)
              | Some (Raise e) => Some (Raise e)
              | None => None
              end
          | _, _ => Some (Ok [])
          end
      end
  end.

End Rounded.

(** ** 1. Flood points of the KML file *)

(** Equality of two positions, as the keys of a [dict]. *)
Definition same_point (p q : Coord) : bool :=
  if Req_dec_T (fst p) (fst q)
  then if Req_dec_T (snd p) (snd q) then true else false
  else false.

(** [dict.fromkeys(points)], started from the keys [seen]: a point that is
    a key already keeps its place, a new point goes to the end. *)
Fixpoint fromkeys (points seen : list Coord) : list Coord :=
  match points with
  | [] => seen
  | p :: r =>
      fromkeys r (if existsb (same_point p) seen then seen else seen ++ [p])
  end.

(** [load_flood_points_from_kml], from the result of [pattern.findall]
    on: [matches] holds, for every match, the two numbers that [float]
    reads from its groups, longitude first.  Every group has the form
    [-?\d+\.\d+], which [float] accepts. *)
Definition load_flood_points_from_kml (matches : list (R * R))
  : result (list Coord) :=
  let points := map (fun m => (snd m, fst m)) matches in
  let points := fromkeys points [] in
  match points with
  | [] => Raise ValueError
  | _ :: _ => Ok points
  end.

(** ** 5. Route on the map *)

(** What [draw_map] puts on the folium map before it saves it. *)
Record folium_map : Type := mkMap {
  location : Coord;
  zoom_start : Z;
  polyline : list Coord;
  start_marker : Coord;
  destination_marker : Coord
}.

(** [coords[i]] for an index that is not negative. *)
Definition item (coords : list Coord) (i : nat) : option Coord :=
  nth_error coords i.

(** [draw_map]; [None] is the [IndexError] of a subscript out of range. *)
Definition draw_map (coords : list Coord) : option folium_map :=
  let mid := Nat.div (List.length coords) 2 in
  match item coords mid with
  | None => None
  | Some c =>
      match item coords 0, item coords (List.length coords - 1) with
      | Some first, Some last => Some (mkMap c 14 coords first last)
      | _, _ => None
      end
  end.

(** * Zone risk and rain prediction

    The functions of [chennai_realtime_flood_heatmap.py] and of
    [weather_prediction_api.py] that compute: the risk score of a zone and
    its colour, and the input of the rain model.  The trained model and the
    weather service are parameters. *)

(** The exceptions of Python that these functions raise or let through;
    [BadRequest] is what the web framework raises for a body that it
    cannot decode. *)
Module Py.

Inductive exception : Type :=
| ValueError
| TypeError
| KeyError
| AttributeError
| OverflowError
| HTTPError
| BadRequest.

End Py.

(** A computation that returns or raises an exception of type [E]. *)
Inductive outcome (E A : Type) : Type :=
| Return (a : A)
| Throw (e : E).

Arguments Return {E A} a.
Arguments Throw {E A} e.

(** [l[k:]] for an integer [k]: a negative [k] counts from the end. *)
Definition slice_from {A : Type} (k : Z) (l : list A) : list A :=
  let n := Z.of_nat (List.length l) in
  if (k <? 0)%Z then skipn (Z.to_nat (Z.max 0 (n + k))) l
  else skipn (Z.to_nat k) l.

(** [max(a, b)] of Python: [b] when it is greater than [a], else [a]. *)
Definition max2 (a b : R) : R := if Rlt_dec a b then b else a.

(** [min(a, b)] of Python: [b] when it is less than [a], else [a]. *)
Definition min2 (a b : R) : R := if Rlt_dec b a then b else a.

(** The nearest integer, the even one of two that are equally near. *)
Definition round_half_even (x : R) : Z :=
  let f := Zfloor x in
  let r := x - IZR f in
  if Rlt_dec r (1 / 2) then f
  else if Rlt_dec (1 / 2) r then (f + 1)%Z
  else if Z.even f then f else (f + 1)%Z.

(** [round(x, 2)] *)
Definition round2 (x : R) : R := IZR (round_half_even (x * 100)) / 100.

(** An hour of the weather service: its time stamp and its rain value,
    which is a number or [null]. *)
Definition sample : Type := (string * option R)%type.

(** Insertion after the samples whose time stamp is not greater. *)
Fixpoint insert_sorted (x : sample) (l : list sample) : list sample :=
  match l with
  | [] => [x]
  | y :: r =>
      if String.ltb (fst x) (fst y) then x :: y :: r
      else y :: insert_sorted x r
  end.

(** [sorted(pairs, key=lambda x: x[0])]: the stable sort by time stamp,
    strings being compared as Python compares them, character by
    character. *)
Definition sort_by_time (l : list sample) : list sample :=
  fold_left (fun acc x => insert_sorted x acc) l [].

(** The ["hourly"] object of the reply of the weather service, with its
    optional ["time"] and ["rain"] lists. *)
Record hourly : Type := mkHourly {
  time : option (list string);
  rain : option (list (option R))
}.

(** The decoded reply: its ["hourly"] object, if it has one. *)
Definition meteo_data : Type := option hourly.

(** [data.get("hourly", {}).get("time", [])] *)
Definition times_of (data : meteo_data) : list string :=
  match data with
  | Some h => match time h with Some l => l | None => [] end
  | None => []
  end.

(** [data.get("hourly", {}).get("rain", [])] *)
Definition rains_of (data : meteo_data) : list (option R) :=
  match data with
  | Some h => match rain h with Some l => l | None => [] end
  | None => []
  end.

(** The samples that the function keeps: [pairs[-past_hours:]] of the
    sorted pairs. *)
Definition recent_samples (data : meteo_data) (past_hours : Z) : list sample :=
  slice_from (- past_hours)
    (sort_by_time (combine (times_of data) (rains_of data))).

Module Heatmap.

(** [compute_risk_score]; [None] is the [None] of Python, which
    [avg_depth_in or 0.0] turns into 0 as it does the number 0. *)
Definition compute_risk_score (avg_depth_in : option R) (pred_rain_mm : R)
  : R :=
  let depth := match avg_depth_in with Some d => d | None => 0 end in
  let depth_norm := min2 (max2 (depth / 60) 0) 1 in
  let rain_norm := min2 (max2 (pred_rain_mm / 200) 0) 1 in
  let raw := 0.6 * rain_norm + 0.4 * depth_norm in
  round2 (raw * 10).

Definition risk_to_color (risk : R) : string :=
  if Rge_dec risk 7 then "red"
  else if Rge_dec risk 4 then "orange"
  else "green".

(** [arr.reshape(1, n, 1)] of a one-dimensional array: a negative
    dimension is the unknown one, which numpy works out from the size, here
    the size itself; otherwise the size must be [n].  The array of shape
    (1, n, 1) is given by its values. *)
Definition reshape_1_n_1 (arr : list R) (n : Z) : outcome Py.exception (list R) :=
  if (n <? 0)%Z then Return arr
  else if (Z.of_nat (List.length arr) =? n)%Z then Return arr
  else Throw Py.ValueError.

(** [build_lstm_input]; the values are not rounded to 32 bits. *)
Definition build_lstm_input (rain_series : list R) (seq_len : Z)
  : outcome Py.exception (list R) :=
  let arr := rain_series in
  let arr :=
    if (Z.of_nat (List.length arr) <? seq_len)%Z then
      let pad_len := (seq_len - Z.of_nat (List.length arr))%Z in
      repeat 0 (Z.to_nat pad_len) ++ arr
    else slice_from (- seq_len) arr in
  reshape_1_n_1 arr seq_len.

(** [[float(r) for _, r in recent]]: [float(None)] raises [TypeError]. *)
Fixpoint floats (l : list (option R)) : outcome Py.exception (list R) :=
  match l with
  | [] => Return []
  | None :: _ => Throw Py.TypeError
  | Some r :: t =>
      match floats t with
      | Return rs => Return (r :: rs)
      | Throw e => Throw e
      end
  end.

(** The function after the reply has been decoded. *)
Definition rain_series_of (data : meteo_data) (past_hours : Z)
  : outcome Py.exception (list R) :=
  match times_of data, rains_of data with
  | [], _ => Return []
  | _, [] => Return []
  | _ :: _, _ :: _ => floats (map snd (recent_samples data past_hours))
  end.

(** [fetch_open_meteo_rain_series].  [http_get] stands for the request,
    [raise_for_status] and the decoding of the body. *)
Definition fetch_open_meteo_rain_series
  (http_get : R -> R -> outcome Py.exception meteo_data)
  (lat lon : R) (past_hours : Z) : outcome Py.exception (list R) :=
  match http_get lat lon with
  | Throw e => Throw e
  | Return data => rain_series_of data past_hours
  end.

(** [predict_next_rain].  [fetch] stands for
    [fetch_open_meteo_rain_series(lat, lon, past_hours=seq_len)] and
    [model] for [model.predict] followed by [float(y.squeeze())]. *)
Definition predict_next_rain (model : list R -> R)
  (fetch : R -> R -> Z -> outcome Py.exception (list R))
  (lat lon : R) (seq_len : Z) : outcome Py.exception R :=
  match fetch lat lon seq_len with
  | Throw e => Throw e
  | Return series =>
      match series with
      | [] => Return 0
      | _ :: _ =>
          match build_lstm_input series seq_len with
          | Throw e => Throw e
          | Return x =>
              let pred := model x in
              Return (max2 pred 0)
          end
      end
  end.

(** A row of [zone_summary]. *)
Record zone : Type := mkZone {
  zone_id : Z;
  center_lat : R;
  center_lon : R;
  avg_depth_in : R;
  num_points : nat
}.

(** A flood point of the KML file: position and depth. *)
Record flood_point : Type := mkPoint {
  point_lat : R;
  point_lon : R;
  point_depth : R
}.

(** The mean of a column. *)
Definition mean (l : list R) : R :=
  fold_right Rplus 0 l / INR (List.length l).

(** The body of the loop of [cluster_points_into_zones] for the zone [z]:
    no row when no point has the label [z]. *)
Definition zone_row (labelled : list (flood_point * Z)) (z : Z)
  : list zone :=
  let sub := filter (fun pl => Z.eqb (snd pl) z) labelled in
  match sub with
  | [] => []
  | _ :: _ =>
      [mkZone z
         (mean (map (fun pl => point_lat (fst pl)) sub))
         (mean (map (fun pl => point_lon (fst pl)) sub))
         (mean (map (fun pl => point_depth (fst pl)) sub))
         (List.length sub)]
  end.

(** [range(n)] *)
Definition range (n : Z) : list Z :=
  map Z.of_nat (seq 0 (Z.to_nat n)).

(** The zone summary of [cluster_points_into_zones].  [labels] stands for
    the result of [kmeans.fit_predict], one label for every point. *)
Definition zone_summary (labels : list Z) (points : list flood_point)
  (num_zones : Z) : list zone :=
  flat_map (zone_row (combine points labels)) (range num_zones).

(** The body of the loop of [main] over the zones: the predicted rain,
    which is 0.0 when the prediction raises, and the risk score. *)
Definition zone_risk (model : list R -> R)
  (fetch : R -> R -> Z -> outcome Py.exception (list R))
  (seq_len : Z) (row : zone) : R * R :=
  let pred_mm :=
    match predict_next_rain model fetch (center_lat row) (center_lon row)
            seq_len with
    | Return p => p
    | Throw _ => 0
    end in
  (pred_mm, compute_risk_score (Some (avg_depth_in row)) pred_mm).

End Heatmap.

Module Api.

Definition SEQ_LEN : Z := 24.

(** A float of Python: a real number, or one of [inf], [-inf] and [nan],
    of which no comparison with a real number holds. *)
Inductive number : Type :=
| Finite (r : R)
| NotFinite.

(** A decoded JSON value.  [json.loads] reads an integer literal as an
    [int], of any size, and every other number as a float; an object is
    the dict that it builds, which has every key once. *)
#[local] Set Warnings "-register-all".
Inductive json : Type :=
| JNull
| JBool (b : bool)
| JInt (z : Z)
| JNumber (x : number)
| JString (s : string)
| JArray (items : list json)
| JObject (members : list (string * json)).

(** [bool(v)]: [None], [False], zero, the empty string, list and dict are
    false. *)
Definition truthy (v : json) : bool :=
  match v with
  | JNull => false
  | JBool b => b
  | JInt z => negb (Z.eqb z 0)
  | JNumber (Finite r) => if Req_dec_T r 0 then false else true
  | JNumber NotFinite => true
  | JString s => match s with EmptyString => false | String _ _ => true end
  | JArray items => match items with [] => false | _ :: _ => true end
  | JObject members => match members with [] => false | _ :: _ => true end
  end.

(** The value of a key of a dict, if the key is present. *)
Fixpoint member (key : string) (members : list (string * json))
  : option json :=
  match members with
  | [] => None
  | (k, v) :: r => if String.eqb k key then Some v else member key r
  end.

(** [data.get(key)]: only a dict has the method; [None] of Python, for a
    key that is missing, is [JNull]. *)
Definition get (key : string) (data : json) : outcome Py.exception json :=
  match data with
  | JObject members =>
      match member key members with
      | Some v => Return v
      | None => Return JNull
      end
  | _ => Throw Py.AttributeError
  end.

(** The least integer that [float] refuses: it would round to 2^1024. *)
Definition int_too_large : Z := (2 ^ 1024 - 2 ^ 970)%Z.

(** [float(v)].  [float_of_string] stands for [float] on a string: the
    float that the string spells, or [None] where Python raises
    [ValueError].  The value of an [int] is not rounded. *)
Definition float (float_of_string : string -> option number) (v : json)
  : outcome Py.exception number :=
  match v with
  | JNull => Throw Py.TypeError
  | JBool b => Return (Finite (if b then 1 else 0))
  | JInt z =>
      if (Z.abs z <? int_too_large)%Z then Return (Finite (IZR z))
      else Throw Py.OverflowError
  | JNumber x => Return x
  | JString s =>
      match float_of_string s with
      | Some x => Return x
      | None => Throw Py.ValueError
      end
  | JArray _ => Throw Py.TypeError
  | JObject _ => Throw Py.TypeError
  end.

(** [float(data.get(key))] *)
Definition float_member (float_of_string : string -> option number)
  (key : string) (data : json) : outcome Py.exception number :=
  match get key data with
  | Throw e => Throw e
  | Return v => float float_of_string v
  end.

(** [fetch_open_meteo_rain_series] of the service: the statements of the
    function of the heatmap inside a [try] whose handler returns the empty
    list for every exception. *)
Definition fetch_open_meteo_rain_series
  (http_get : number -> number -> outcome Py.exception meteo_data)
  (lat lon : number) (past_hours : Z) : list R :=
  match http_get lat lon with
  | Throw _ => []
  | Return data =>
      match Heatmap.rain_series_of data past_hours with
      | Return series => series
      | Throw _ => []
      end
  end.

(** [predict_next_rain] of the service; [model] is the global, [None]
    until a model has been loaded.  [build_lstm_input] is the function of
    the heatmap, word for word. *)
Definition predict_next_rain (model : option (list R -> R))
  (http_get : number -> number -> outcome Py.exception meteo_data)
  (lat lon : number) (seq_len : Z) : outcome Py.exception R :=
  match model with
  | None => Throw Py.ValueError
  | Some m =>
      match fetch_open_meteo_rain_series http_get lat lon seq_len with
      | [] => Return 0
      | series =>
          match Heatmap.build_lstm_input series seq_len with
          | Throw e => Throw e
          | Return x => Return (max2 (m x) 0)
          end
      end
  end.

(** The ["error"] member of a reply: a fixed text, or the text of the
    exception caught. *)
Inductive error_text : Type :=
| Message (s : string)
| Raised (e : Py.exception).

(** The reply of [/predict]: the status code and the members of the JSON
    body. *)
Record response : Type := mkResponse {
  status : Z;
  success : bool;
  predicted_rainfall_mm : option R;
  error : option error_text
}.

Definition failed (code : Z) (why : error_text) : response :=
  mkResponse code false None (Some why).

(** [lo <= x <= hi] for a float [x] and two numbers. *)
Definition in_range (lo : R) (x : number) (hi : R) : bool :=
  match x with
  | Finite r =>
      if Rle_dec lo r then (if Rle_dec r hi then true else false) else false
  | NotFinite => false
  end.

(** [predict].  [body] stands for [request.get_json()]: the exception it
    raises, or the decoded body. *)
Definition predict (model : option (list R -> R))
  (float_of_string : string -> option number)
  (http_get : number -> number -> outcome Py.exception meteo_data)
  (body : outcome Py.exception json) : response :=
  match model with
  | None => failed 500 (Message "Model not loaded")
  | Some _ =>
      match body with
      | Throw e => failed 500 (Raised e)
      | Return data =>
          if negb (truthy data)
          then failed 400 (Message "No JSON data provided")
          else
            match float_member float_of_string "lat" data with
            | Throw e => failed 500 (Raised e)
            | Return lat =>
                match float_member float_of_string "lon" data with
                | Throw e => failed 500 (Raised e)
                | Return lon =>
                    if negb (in_range (-90) lat 90)
                       || negb (in_range (-180) lon 180)
                    then failed 400 (Message "Invalid coordinates")
                    else
                      match predict_next_rain model http_get lat lon SEQ_LEN
                      with
                      | Throw e => failed 500 (Raised e)
                      | Return predicted_rain =>
                          mkResponse 200 true (Some (round2 predicted_rain))
                            None
                      end
                end
            end
      end
  end.

(** A prediction of [/predict/batch]. *)
Record prediction : Type := mkPrediction {
  lat : number;
  lon : number;
  rainfall_mm : R
}.

(** The reply of [/predict/batch]. *)
Record batch_response : Type := mkBatch {
  batch_status : Z;
  batch_success : bool;
  predictions : option (list prediction);
  batch_error : option error_text
}.

Definition batch_failed (code : Z) (why : error_text) : batch_response :=
  mkBatch code false None (Some why).

(** [key in data]: a key of a dict, an item of a list, a part of a
    string; other values are not containers. *)
Definition contains (key : string) (data : json) : outcome Py.exception bool :=
  match data with
  | JObject members =>
      Return (match member key members with Some _ => true | None => false end)
  | JArray items =>
      Return (existsb
                (fun v =>
                   match v with
                   | JString s => String.eqb s key
                   | _ => false
                   end) items)
  | JString s =>
      Return (match String.index 0 key s with Some _ => true | None => false end)
  | _ => Throw Py.TypeError
  end.

(** [data[key]] for a string [key] that [data] contains: a list and a
    string have no string subscript. *)
Definition subscript (key : string) (data : json) : outcome Py.exception json :=
  match data with
  | JObject members =>
      match member key members with
      | Some v => Return v
      | None => Throw Py.KeyError
      end
  | _ => Throw Py.TypeError
  end.

(** The characters of a string, each a string. *)
Fixpoint characters (s : string) : list json :=
  match s with
  | EmptyString => []
  | String c r => JString (String c EmptyString) :: characters r
  end.

(** What [for loc in locations] runs over: the items of a list, the keys
    of a dict, the characters of a string; other values are not
    iterable. *)
Definition iterate (locations : json) : outcome Py.exception (list json) :=
  match locations with
  | JArray items => Return items
  | JObject members => Return (map (fun kv => JString (fst kv)) members)
  | JString s => Return (characters s)
  | _ => Throw Py.TypeError
  end.

(** The loop of [predict_batch]. *)
Fixpoint predict_each (model : option (list R -> R))
  (float_of_string : string -> option number)
  (http_get : number -> number -> outcome Py.exception meteo_data)
  (locations : list json) : outcome Py.exception (list prediction) :=
  match locations with
  | [] => Return []
  | loc :: r =>
      match float_member float_of_string "lat" loc with
      | Throw e => Throw e
      | Return lat =>
          match float_member float_of_string "lon" loc with
          | Throw e => Throw e
          | Return lon =>
              match predict_next_rain model http_get lat lon SEQ_LEN with
              | Throw e => Throw e
              | Return predicted_rain =>
                  match predict_each model float_of_string http_get r with
                  | Throw e => Throw e
                  | Return ps =>
                      Return (mkPrediction lat lon (round2 predicted_rain)
                                :: ps)
                  end
              end
          end
      end
  end.

(** [predict_batch].  [body] stands for [request.get_json()]: the
    exception it raises, or the decoded body. *)
Definition predict_batch (model : option (list R -> R))
  (float_of_string : string -> option number)
  (http_get : number -> number -> outcome Py.exception meteo_data)
  (body : outcome Py.exception json) : batch_response :=
  match model with
  | None => batch_failed 500 (Message "Model not loaded")
  | Some _ =>
      match body with
      | Throw e => batch_failed 500 (Raised e)
      | Return data =>
          if negb (truthy data)
          then batch_failed 400 (Message "No locations provided")
          else
            match contains "locations" data with
            | Throw e => batch_failed 500 (Raised e)
            | Return false =>
                batch_failed 400 (Message "No locations provided")
            | Return true =>
                match subscript "locations" data with
                | Throw e => batch_failed 500 (Raised e)
                | Return locations =>
                    match iterate locations with
                    | Throw e => batch_failed 500 (Raised e)
                    | Return locs =>
                        match
                          predict_each model float_of_string http_get locs
                        with
                        | Throw e => batch_failed 500 (Raised e)
                        | Return ps => mkBatch 200 true (Some ps) None
                        end
                    end
                end
            end
      end
  end.

End Api.

(** ** Vocabulary of the statements *)

Definition node_ids (G : Graph) : list Z := keys (nodes G).

(** The edge [e] lies between [u] and [v], in either direction. *)
Definition joins (e : edge) (u v : Z) : Prop :=
  (eu e = u /\ ev e = v) \/ (eu e = v /\ ev e = u).

(** [u] and [v] are joined by an edge of cost [w]. *)
Definition adjacent (G : Graph) (u v : Z) (w : R) : Prop :=
  exists e, In e (edges G) /\ joins e u v /\ weight e = w.

(** [walk G s p v c]: the node list [p] starts at the node [s], ends at
    [v], follows an edge of [G] at each step, and the weights of these
    edges add up to [c]. *)
Inductive walk (G : Graph) (s : Z) : list Z -> Z -> R -> Prop :=
| walk_start :
    In s (node_ids G) -> walk G s [s] s 0
| walk_step p u v c w :
    walk G s p u c -> adjacent G u v w -> walk G s (p ++ [v]) v (c + w).

Definition connected (G : Graph) (s t : Z) : Prop :=
  exists p c, walk G s p t c.

(** What [nx.Graph] guarantees of its adjacency: the end points of an edge
    are nodes of the graph. *)
Definition graph_ok (G : Graph) : Prop :=
  forall e, In e (edges G) -> In (eu e) (node_ids G) /\ In (ev e) (node_ids G).

Definition nonneg_weights (G : Graph) : Prop :=
  forall e, In e (edges G) -> 0 <= weight e.

(** The positions of a node list, as the comprehension of
    [compute_safe_path] reads them. *)
Definition positions (G : Graph) (path : list Z) (route : list Coord) : Prop :=
  Forall2 (fun n c => lookup n (nodes G) = Some c) path route.

(** The distance of a stored node to a query point. *)
Definition node_distance (lat lon : R) (nc : Z * Coord) : R :=
  haversine_km lat lon (fst (snd nc)) (snd (snd nc)).

(** The node [n], stored at position [c], is the [i]-th node of the
    enumeration [ns]; no node of [ns] is closer to the query point, and
    every node enumerated before it is strictly farther. *)
Definition first_nearest (lat lon : R) (ns : list (Z * Coord))
  (i : nat) (n : Z) (c : Coord) : Prop :=
  nth_error ns i = Some (n, c)
  /\ (forall j nc, nth_error ns j = Some nc ->
                   node_distance lat lon (n, c) <= node_distance lat lon nc)
  /\ (forall j nc, (j < i)%nat -> nth_error ns j = Some nc ->
                   node_distance lat lon (n, c) < node_distance lat lon nc).

(** [(u, v)] is the pair [(a, b)] or the pair [(b, a)]. *)
Definition same_pair (a b u v : Z) : Prop :=
  (u = a /\ v = b) \/ (u = b /\ v = a).

(** No two entries of a list of node pairs are the same unordered pair. *)
Inductive distinct_pairs : list (Z * Z) -> Prop :=
| distinct_nil : distinct_pairs []
| distinct_cons a b r :
    (forall u v, In (u, v) r -> ~ same_pair a b u v) ->
    distinct_pairs r -> distinct_pairs ((a, b) :: r).

(** The length stored for a segment is the great-circle distance of its
    end points, in metres. *)
Definition segment_ok (nodes : list (Z * Coord)) (s : segment) : Prop :=
  exists cu cv,
    lookup (fst (fst s)) nodes = Some cu
    /\ lookup (snd (fst s)) nodes = Some cv
    /\ snd s = haversine_km (fst cu) (snd cu) (fst cv) (snd cv) * 1000.

(** What the edge loops of the builder maintain. *)
Definition segments_ok (nodes : list (Z * Coord)) (es : list segment) : Prop :=
  Forall (segment_ok nodes) es /\ distinct_pairs (map fst es).

Definition end_points (e : edge) : Z * Z := (eu e, ev e).

(** Every entry of the queue holds a walk from the start node to the node
    of the entry, of the cost recorded with it. *)
Definition fringe_walks (G : Graph) (s : Z) (fringe : list entry) : Prop :=
  forall v d p, In (v, (d, p)) fringe -> walk G s p v d.

(** What the main loop of the search from [s] to [t] maintains: the settled
    nodes are nodes of the graph, each once, with a cost that no walk from
    [s] undercuts; every edge out of a settled node has been relaxed; the
    queue holds each node at most once, and no settled node; the start node
    is settled or queued; the target is not settled. *)
Record search_inv (G : Graph) (s t : Z) (dist : list (Z * R))
  (fringe : list entry) : Prop := mkSearchInv {
  inv_dist_nodup : NoDup (keys dist);
  inv_dist_nodes : forall v, In v (keys dist) -> In v (node_ids G);
  inv_fringe_walks : fringe_walks G s fringe;
  inv_fringe_nodup : NoDup (keys fringe);
  inv_settled_least :
    forall v d q c, In (v, d) dist -> walk G s q v c -> d <= c;
  inv_relaxed :
    forall v d u w, In (v, d) dist -> adjacent G v u w ->
      In u (keys dist)
      \/ exists du pu, lookup u fringe = Some (du, pu) /\ du <= d + w;
  inv_disjoint : forall v, In v (keys dist) -> lookup v fringe = None;
  inv_source :
    In s (keys dist)
    \/ exists d p, lookup s fringe = Some (d, p) /\ d <= 0;
  inv_target : ~ In t (keys dist)
}.

(** [p] is met in [l] before [q] is: at an index up to which [q] does not
    occur. *)
Definition seen_before (l : list Coord) (p q : Coord) : Prop :=
  exists k, nth_error l k = Some p
            /\ forall k', (k' <= k)%nat -> nth_error l k' <> Some q.

(** The points of [out] are those of [l], each once, in the order in which
    [l] shows them first. *)
Definition first_seen_order (l out : list Coord) : Prop :=
  NoDup out
  /\ (forall p, In p out <-> In p l)
  /\ (forall i j p q, (i < j)%nat ->
         nth_error out i = Some p -> nth_error out j = Some q ->
         seen_before l p q).

(** The points that the matches stand for, latitude first. *)
Definition matched_points (matches : list (R * R)) : list Coord :=
  map (fun m => (snd m, fst m)) matches.

(** Every route of the queue ends at the node of its entry, which is not
    settled, passes through settled nodes before, and through no node
    twice. *)
Definition fringe_simple (dist : list (Z * R)) (fringe : list entry) : Prop :=
  forall v d p, In (v, (d, p)) fringe ->
    ~ In v (keys dist)
    /\ NoDup p
    /\ exists q, p = q ++ [v] /\ forall x, In x q -> In x (keys dist).

(** The sample [a] is not later than the sample [b]. *)
Definition not_later (a b : sample) : Prop :=
  String.ltb (fst b) (fst a) = false.

(** [float] accepts the ["lat"] and the ["lon"] member of the
    location. *)
Definition converts (float_of_string : string -> option Api.number)
  (loc : Api.json) : Prop :=
  (exists x, Api.float_member float_of_string "lat" loc = Return x)
  /\ (exists y, Api.float_member float_of_string "lon" loc = Return y).

(** The prediction [p] is the one of the location [loc]: its coordinates
    are the floats of the location and its rainfall is the rounded
    prediction for them. *)
Definition prediction_of (m : list R -> R)
  (float_of_string : string -> option Api.number)
  (http_get : Api.number -> Api.number -> outcome Py.exception meteo_data)
  (loc : Api.json) (p : Api.prediction) : Prop :=
  Api.float_member float_of_string "lat" loc = Return (Api.lat p)
  /\ Api.float_member float_of_string "lon" loc = Return (Api.lon p)
  /\ 0 <= Api.rainfall_mm p
  /\ exists q,
      Api.predict_next_rain (Some m) http_get (Api.lat p) (Api.lon p)
        Api.SEQ_LEN = Return q
      /\ Api.rainfall_mm p = round2 q.

(** The float computed for [a] between the two positions is in the domain
    of both square roots of [haversine_km]. *)
Definition in_domain (computed_a : R -> R -> R -> R -> R) (p q : Coord)
  : Prop :=
  0 <= computed_a (fst p) (snd p) (fst q) (snd q) <= 1.

(** The middle of two positions, as "Add flood risk weights" takes it. *)
Definition midpoint (cu cv : Coord) : Coord :=
  ((fst cu + fst cv) / 2, (snd cu + snd cv) / 2).

(** ** Sample inputs *)

(** One hazard. *)
Definition sample_hazards : list Coord := [(13, 80)].

(** Two nodes at the position of the hazard, joined by a way. *)
Definition twin_reply : list element :=
  [ElNode 1 13 80; ElNode 2 13 80; ElWay (Some [1%Z; 2%Z])].

Definition twin_graph : Graph :=
  mkGraph [(1%Z, (13, 80)); (2%Z, (13, 80))] [mkEdge 1 2 0 0].

(** Two nodes on either side of the hazard, joined by a way and by the same
    way in the other direction. *)
Definition straddle_reply : list element :=
  [ElNode 1 13 79.99; ElNode 2 13 80.01;
   ElWay (Some [1%Z; 2%Z]); ElWay (Some [2%Z; 1%Z])].

Definition straddle_length : R := haversine_km 13 80.01 13 79.99 * 1000.

Definition straddle_graph (alpha : R) : Graph :=
  mkGraph [(1%Z, (13, 79.99)); (2%Z, (13, 80.01))]
    [mkEdge 1 2 straddle_length (straddle_length * (1 + alpha * 1))].

(** A graph without nodes. *)
Definition empty_graph : Graph := mkGraph [] [].

(** Three nodes A, B, C (1, 2, 3) with A-B and B-C of weight 100 and the
    direct edge A-C of weight 500. *)
Definition abc_graph : Graph :=
  mkGraph [(1%Z, (13, 79)); (2%Z, (13, 80)); (3%Z, (13, 81))]
    [mkEdge 1 2 100 100; mkEdge 2 3 100 100; mkEdge 1 3 500 500].

(** Two nodes that no edge joins. *)
Definition split_graph : Graph :=
  mkGraph [(1%Z, (13, 79)); (2%Z, (13, 81))] [].

(** A reply of the weather service with three hours that are not in the
    order of their time stamps; the oldest has no rain value. *)
Definition unordered_reply : meteo_data :=
  Some (mkHourly
          (Some ["2024-07-01T02:00"%string; "2024-07-01T00:00"%string;
                 "2024-07-01T01:00"%string])
          (Some [Some 5; None; Some 7])).

(** Three flood points. *)
Definition three_points : list Heatmap.flood_point :=
  [Heatmap.mkPoint 13 80 10; Heatmap.mkPoint 13.2 80.2 20;
   Heatmap.mkPoint 13.1 80.1 30].

(** A reading of strings as floats that knows one spelling only. *)
Definition decimal_only (s : string) : option Api.number :=
  if String.eqb s "80.0" then Some (Api.Finite 80) else None.

(** A body with an integer for the latitude and a string for the
    longitude. *)
Definition numeric_body : Api.json :=
  Api.JObject [("lat"%string, Api.JInt 13);
               ("lon"%string, Api.JString "80.0")].

(** Two locations of a batch, the second outside the ranges and with a
    boolean for the longitude. *)
Definition two_places : list Api.json :=
  [numeric_body;
   Api.JObject [("lat"%string, Api.JInt 1000);
                ("lon"%string, Api.JBool true)]].

(** A point that is nearly antipodal to (13.0, 80.0). *)
Definition near_antipode : Coord := (-12.999999938, -100).

(** The float that Python computes for [a]: the exact value, but for
    [near_antipode] and (13.0, 80.0), in either order, where the rounding
    gives 1 + 2^-52. *)
Definition observed_a (lat1 lon1 lat2 lon2 : R) : R :=
  if (same_point (lat1, lon1) near_antipode && same_point (lat2, lon2) (13, 80))
     || (same_point (lat1, lon1) (13, 80)
         && same_point (lat2, lon2) near_antipode)
  then 1 + / 2 ^ 52
  else haversine_a lat1 lon1 lat2 lon2.

(** The graph whose only node is at (13.0, 80.0). *)
Definition lone_graph : Graph := mkGraph [(1%Z, (13, 80))] [].

(** ** Proof tools *)

(** Settles the comparisons of real numbers that block the evaluation of a
    goal. *)
Ltac decide_reals :=
  repeat match goal with
         | |- context [Rlt_dec ?x ?y] =>
             destruct (Rlt_dec x y); [try (exfalso; lra) | try (exfalso; lra)]
         end.

(** * Properties *)

(** ** Great-circle distance *)

Lemma haversine_a_sym (lat1 lon1 lat2 lon2 : R) :
  haversine_a lat1 lon1 lat2 lon2 = haversine_a lat2 lon2 lat1 lon1.
Proof.
  unfold haversine_a, radians.
  replace ((lat1 - lat2) * (PI / 180) / 2)
    with (- ((lat2 - lat1) * (PI / 180) / 2)) by lra.
  replace ((lon1 - lon2) * (PI / 180) / 2)
    with (- ((lon2 - lon1) * (PI / 180) / 2)) by lra.
  rewrite !sin_neg. ring.
Qed.

Lemma haversine_a_same (lat lon : R) : haversine_a lat lon lat lon = 0.
Proof.
  unfold haversine_a, radians.
  replace ((lat - lat) * (PI / 180) / 2) with 0 by lra.
  replace ((lon - lon) * (PI / 180) / 2) with 0 by lra.
  rewrite sin_0. ring.
Qed.

Lemma sin_cos_sq (x : R) : sin x ^ 2 + cos x ^ 2 = 1.
Proof. rewrite <- !Rsqr_pow2. apply sin2_cos2. Qed.

(** The arguments of the two calls of [math.sqrt] are never negative. *)
Lemma haversine_a_range (lat1 lon1 lat2 lon2 : R) :
  0 <= haversine_a lat1 lon1 lat2 lon2 <= 1.
Proof.
  unfold haversine_a.
  set (x := radians lat1). set (y := radians lat2).
  set (u := radians (lon2 - lon1) / 2).
  replace (radians (lat2 - lat1) / 2) with ((y - x) / 2)
    by (unfold x, y, radians; lra).
  set (h := (y - x) / 2). set (m := (y + x) / 2).
  replace x with (m - h) by (unfold m, h; lra).
  replace y with (m + h) by (unfold m, h; lra).
  rewrite cos_minus, cos_plus.
  pose proof (sin_cos_sq h) as Hh. pose proof (sin_cos_sq m) as Hm.
  pose proof (sin_cos_sq u) as Hu.
  pose proof (pow2_ge_0 (sin h)). pose proof (pow2_ge_0 (cos h)).
  pose proof (pow2_ge_0 (sin m)). pose proof (pow2_ge_0 (cos m)).
  pose proof (pow2_ge_0 (sin u)). pose proof (pow2_ge_0 (cos u)).
  assert (E : (cos m * cos h + sin m * sin h) * (cos m * cos h - sin m * sin h)
              = (1 - sin m ^ 2) * (1 - sin h ^ 2) - sin m ^ 2 * sin h ^ 2).
  { replace (1 - sin m ^ 2) with (cos m ^ 2) by lra.
    replace (1 - sin h ^ 2) with (cos h ^ 2) by lra. ring. }
  rewrite E. clear E.
  set (p := sin h ^ 2) in *. set (q := sin m ^ 2) in *.
  set (r := sin u ^ 2) in *.
  split; nra.
Qed.

Lemma atan_nonneg (x : R) : 0 <= x -> 0 <= atan x.
Proof.
  intros [H | <-].
  - left. rewrite <- atan_0. now apply atan_increasing.
  - rewrite atan_0. lra.
Qed.

Lemma atan2_nonneg (y x : R) : 0 <= y -> 0 <= x -> 0 <= atan2 y x.
Proof.
  intros Hy Hx. unfold atan2.
  destruct (total_order_T 0 x) as [[Hlt | Heq] | Hgt].
  - apply atan_nonneg. apply Rmult_le_pos; [assumption|].
    left. now apply Rinv_0_lt_compat.
  - pose proof PI2_RGT_0.
    destruct (total_order_T 0 y) as [[? | ?] | ?]; lra.
  - lra.
Qed.

Lemma atan2_pos (y x : R) : 0 < y -> 0 <= x -> 0 < atan2 y x.
Proof.
  intros Hy Hx. unfold atan2.
  destruct (total_order_T 0 x) as [[Hlt | Heq] | Hgt].
  - rewrite <- atan_0. apply atan_increasing.
    apply Rmult_lt_0_compat; [assumption|]. now apply Rinv_0_lt_compat.
  - pose proof PI2_RGT_0.
    destruct (total_order_T 0 y) as [[? | ?] | ?]; lra.
  - lra.
Qed.

Lemma atan2_0_1 : atan2 0 1 = 0.
Proof.
  unfold atan2.
  destruct (total_order_T 0 1) as [[Hlt | Heq] | Hgt]; try lra.
  replace (0 / 1) with 0 by lra. apply atan_0.
Qed.

Lemma haversine_km_nonneg (lat1 lon1 lat2 lon2 : R) :
  0 <= haversine_km lat1 lon1 lat2 lon2.
Proof.
  unfold haversine_km.
  pose proof (atan2_nonneg _ _ (sqrt_pos (haversine_a lat1 lon1 lat2 lon2))
                (sqrt_pos (1 - haversine_a lat1 lon1 lat2 lon2))).
  lra.
Qed.

Lemma haversine_km_pos (lat1 lon1 lat2 lon2 : R) :
  0 < haversine_a lat1 lon1 lat2 lon2 ->
  0 < haversine_km lat1 lon1 lat2 lon2.
Proof.
  intros Ha. unfold haversine_km.
  pose proof (atan2_pos _ _ (sqrt_lt_R0 _ Ha)
                (sqrt_pos (1 - haversine_a lat1 lon1 lat2 lon2))).
  lra.
Qed.

Lemma haversine_km_same (lat lon : R) : haversine_km lat lon lat lon = 0.
Proof.
  unfold haversine_km. rewrite haversine_a_same.
  replace (1 - 0) with 1 by lra. rewrite sqrt_0, sqrt_1, atan2_0_1. lra.
Qed.

Lemma haversine_km_sym (lat1 lon1 lat2 lon2 : R) :
  haversine_km lat1 lon1 lat2 lon2 = haversine_km lat2 lon2 lat1 lon1.
Proof.
  unfold haversine_km. now rewrite haversine_a_sym.
Qed.

(** C9: the great-circle distance is symmetric in its two points, and the
    distance of a point to itself is zero. *)
Theorem haversine_km_symmetric_and_zero :
  (forall lat1 lon1 lat2 lon2 : R,
      haversine_km lat1 lon1 lat2 lon2 = haversine_km lat2 lon2 lat1 lon1)
  /\ (forall lat lon : R, haversine_km lat lon lat lon = 0).
Proof.
  split.
  - intros. unfold haversine_km. f_equal. f_equal. f_equal.
    + f_equal. apply haversine_a_sym.
    + f_equal. f_equal. apply haversine_a_sym.
  - intros. unfold haversine_km. rewrite haversine_a_same.
    replace (1 - 0) with 1 by lra. rewrite sqrt_0, sqrt_1, atan2_0_1. lra.
Qed.

(** ** Hazard proximity and risk *)

Lemma min_from_le_start (l : list R) (m : R) : min_from m l <= m.
Proof.
  revert m. induction l as [| x r IH]; intros m; simpl; [lra|].
  destruct (Rlt_dec x m) as [Hlt | Hge].
  - specialize (IH x). lra.
  - apply IH.
Qed.

Lemma min_from_le_each (l : list R) (m x : R) :
  In x l -> min_from m l <= x.
Proof.
  revert m. induction l as [| y r IH]; intros m; simpl; [tauto|].
  intros [-> | Hin].
  - destruct (Rlt_dec x m) as [Hlt | Hge].
    + apply min_from_le_start.
    + pose proof (min_from_le_start r m). lra.
  - now apply IH.
Qed.

Lemma min_from_attained (l : list R) (m : R) :
  min_from m l = m \/ In (min_from m l) l.
Proof.
  revert m. induction l as [| y r IH]; intros m; simpl; [now left|].
  destruct (Rlt_dec y m) as [Hlt | Hge].
  - destruct (IH y) as [-> | Hin]; [right; now left | right; now right].
  - destruct (IH m) as [-> | Hin]; [now left | right; now right].
Qed.

Lemma py_min_spec (l : list R) :
  l <> [] ->
  exists m, py_min l = Ok m /\ In m l /\ forall x, In x l -> m <= x.
Proof.
  destruct l as [| x r]; [congruence|]. intros _.
  exists (min_from x r). split; [reflexivity|]. split.
  - destruct (min_from_attained r x) as [-> | Hin]; [now left | now right].
  - intros y [<- | Hin].
    + apply min_from_le_start.
    + now apply min_from_le_each.
Qed.


Lemma min_distance_to_flood_spec (lat lon : R) (flood_points : list Coord) :
  flood_points <> [] ->
  exists d_min,
    min_distance_to_flood lat lon flood_points = Ok d_min
    /\ (exists f, In f flood_points
                  /\ d_min = haversine_km lat lon (fst f) (snd f))
    /\ (forall f, In f flood_points ->
                  d_min <= haversine_km lat lon (fst f) (snd f))
    /\ 0 <= d_min.
Proof.
  intros Hne. unfold min_distance_to_flood.
  destruct (py_min_spec
              (map (fun f => haversine_km lat lon (fst f) (snd f)) flood_points))
    as (m & Hm & Hin & Hle).
  { destruct flood_points; [congruence | discriminate]. }
  exists m. split; [assumption|].
  apply in_map_iff in Hin. destruct Hin as (f & Hf & Hinf).
  repeat split.
  - exists f. now split.
  - intros g Hg. apply Hle. apply in_map_iff. now exists g.
  - rewrite <- Hf. apply haversine_km_nonneg.
Qed.

Lemma edge_risk_range (d_min max_risk_dist_km : R) :
  0 <= d_min -> 0 <= edge_risk d_min max_risk_dist_km <= 1.
Proof.
  intros Hd. unfold edge_risk.
  destruct (Rge_dec d_min max_risk_dist_km) as [Hge | Hlt]; [lra|].
  assert (Hpos : 0 < max_risk_dist_km) by lra.
  assert (H0 : 0 <= d_min / max_risk_dist_km).
  { apply Rmult_le_pos; [assumption|]. left. now apply Rinv_0_lt_compat. }
  assert (H1 : d_min / max_risk_dist_km < 1).
  { apply Rmult_lt_reg_r with max_risk_dist_km; [assumption|].
    unfold Rdiv. rewrite Rmult_assoc, Rinv_l by lra. lra. }
  lra.
Qed.



(** ** Nearest-node scan *)

Lemma nth_error_snoc_inv {A : Type} (l : list A) (x y : A) (j : nat) :
  nth_error (l ++ [x]) j = Some y ->
  ((j < List.length l)%nat /\ nth_error l j = Some y)
  \/ (j = List.length l /\ y = x).
Proof.
  intros H. destruct (Nat.lt_ge_cases j (List.length l)) as [Hlt | Hge].
  - left. split; [assumption|]. now rewrite nth_error_app1 in H.
  - right. rewrite nth_error_app2 in H by assumption.
    destruct (j - List.length l)%nat as [| k] eqn:E; simpl in H.
    + split; [lia | congruence].
    + destruct k; discriminate.
Qed.

Lemma nearest_scan_spec (lat lon : R) (ns pre : list (Z * Coord))
  (best_node : option Z) (best_dist : bound) :
  (pre = [] /\ best_node = None /\ best_dist = Inf)
  \/ (exists i n c, first_nearest lat lon pre i n c
                    /\ best_node = Some n
                    /\ best_dist = Fin (node_distance lat lon (n, c))) ->
  pre ++ ns <> [] ->
  exists i n c,
    nearest_scan lat lon ns best_node best_dist = Some n
    /\ first_nearest lat lon (pre ++ ns) i n c.
Proof.
  revert pre best_node best_dist.
  induction ns as [| x r IH]; intros pre best_node best_dist Hst Hne.
  - rewrite app_nil_r in *. simpl.
    destruct Hst as [(-> & _) | (i & n & c & Hbest & -> & _)]; [congruence|].
    now exists i, n, c.
  - assert (Happ : pre ++ x :: r = (pre ++ [x]) ++ r)
      by now rewrite <- app_assoc.
    rewrite Happ in *. clear Happ.
    destruct x as [n' [la lo]]. simpl.
    assert (Hd : node_distance lat lon (n', (la, lo))
                 = haversine_km lat lon la lo) by reflexivity.
    remember (haversine_km lat lon la lo) as d eqn:Ed. clear Ed.
    destruct (below d best_dist) eqn:Hb.
    + apply IH; [| assumption]. right.
      exists (List.length pre), n', (la, lo).
      split; [| split; [reflexivity | now rewrite Hd]].
      unfold first_nearest. rewrite Hd. split; [| split].
      * rewrite nth_error_app2 by lia. now rewrite Nat.sub_diag.
      * intros j nc Hj. apply nth_error_snoc_inv in Hj.
        destruct Hj as [(Hlt & Hj) | (_ & ->)]; [| lra].
        destruct Hst as [(-> & _) | (i & n & c & (_ & Hle & _) & _ & ->)];
          [destruct j; discriminate|].
        simpl in Hb. destruct (Rlt_dec d _) as [Hlt' |]; [| discriminate].
        specialize (Hle j nc Hj). lra.
      * intros j nc Hlt Hj. rewrite nth_error_app1 in Hj by assumption.
        destruct Hst as [(-> & _) | (i & n & c & (_ & Hle & _) & _ & ->)];
          [destruct j; discriminate|].
        simpl in Hb. destruct (Rlt_dec d _) as [Hlt' |]; [| discriminate].
        specialize (Hle j nc Hj). lra.
    + destruct Hst as [(_ & _ & ->) | (i & n & c & (Hnth & Hle & Hlt) & -> & ->)];
        [discriminate|].
      simpl in Hb.
      destruct (Rlt_dec d (node_distance lat lon (n, c))) as [| Hge];
        [discriminate|].
      apply IH; [| assumption]. right. exists i, n, c. split; [| now split].
      assert (Hi : (i < List.length pre)%nat).
      { apply nth_error_Some. congruence. }
      split; [| split].
      * now rewrite nth_error_app1.
      * intros j nc Hj. apply nth_error_snoc_inv in Hj.
        destruct Hj as [(_ & Hj) | (_ & ->)]; [now apply (Hle j) | lra].
      * intros j nc Hji Hj. rewrite nth_error_app1 in Hj by lia.
        now apply (Hlt j).
Qed.

Lemma find_nearest_node_none (G : Graph) (lat lon : R) :
  nodes G = [] -> find_nearest_node G lat lon = None.
Proof. unfold find_nearest_node. now intros ->. Qed.

Lemma find_nearest_node_some (G : Graph) (lat lon : R) :
  nodes G <> [] ->
  exists i n c,
    find_nearest_node G lat lon = Some n
    /\ first_nearest lat lon (nodes G) i n c.
Proof.
  intros Hne. unfold find_nearest_node.
  apply (nearest_scan_spec lat lon (nodes G) []); [now left | assumption].
Qed.

Lemma find_nearest_node_in (G : Graph) (lat lon : R) (n : Z) :
  find_nearest_node G lat lon = Some n -> In n (node_ids G).
Proof.
  intros H. destruct (nodes G) as [| x r] eqn:E.
  - rewrite find_nearest_node_none in H by assumption. discriminate.
  - destruct (find_nearest_node_some G lat lon) as (i & m & c & Hm & Hnth & _).
    { rewrite E. discriminate. }
    rewrite H in Hm. injection Hm as <-.
    apply nth_error_In in Hnth. unfold node_ids, keys.
    apply in_map_iff. now exists (n, c).
Qed.


(** ** Dictionaries *)

Lemma lookup_dict_set_same {A : Type} (k : Z) (a : A) (d : list (Z * A)) :
  lookup k (dict_set k a d) = Some a.
Proof.
  induction d as [| [k' a'] r IH]; simpl.
  - now rewrite Z.eqb_refl.
  - destruct (Z.eqb k' k) eqn:E; simpl; now rewrite E.
Qed.

Lemma lookup_dict_set_other {A : Type} (k k' : Z) (a : A) (d : list (Z * A)) :
  k <> k' -> lookup k (dict_set k' a d) = lookup k d.
Proof.
  intros Hne. induction d as [| [k0 a0] r IH]; simpl.
  - destruct (Z.eqb k' k) eqn:E; [apply Z.eqb_eq in E; congruence | reflexivity].
  - destruct (Z.eqb k0 k') eqn:E; simpl.
    + apply Z.eqb_eq in E. subst k0.
      destruct (Z.eqb k' k) eqn:E'; [apply Z.eqb_eq in E'; congruence|].
      reflexivity.
    + now rewrite IH.
Qed.

Lemma lookup_dict_del_same {A : Type} (k : Z) (d : list (Z * A)) :
  lookup k (dict_del k d) = None.
Proof.
  induction d as [| [k' a'] r IH]; simpl; [reflexivity|].
  destruct (Z.eqb k' k) eqn:E; simpl; [assumption | now rewrite E].
Qed.

Lemma lookup_dict_del_other {A : Type} (k k' : Z) (d : list (Z * A)) :
  k <> k' -> lookup k (dict_del k' d) = lookup k d.
Proof.
  intros Hne. induction d as [| [k0 a0] r IH]; simpl; [reflexivity|].
  destruct (Z.eqb k0 k') eqn:E; simpl.
  - apply Z.eqb_eq in E. subst k0.
    destruct (Z.eqb k' k) eqn:E'; [apply Z.eqb_eq in E'; congruence|].
    assumption.
  - now rewrite IH.
Qed.

Lemma lookup_in {A : Type} (k : Z) (a : A) (d : list (Z * A)) :
  lookup k d = Some a -> In (k, a) d.
Proof.
  induction d as [| [k' a'] r IH]; simpl; [discriminate|].
  destruct (Z.eqb k' k) eqn:E.
  - apply Z.eqb_eq in E. intros [= ->]. left. now subst.
  - intros H. right. now apply IH.
Qed.

Lemma lookup_none_iff {A : Type} (k : Z) (d : list (Z * A)) :
  lookup k d = None <-> ~ In k (keys d).
Proof.
  induction d as [| [k' a'] r IH]; simpl; [tauto|].
  destruct (Z.eqb k' k) eqn:E.
  - apply Z.eqb_eq in E. split; [discriminate | tauto].
  - apply Z.eqb_neq in E. rewrite IH. tauto.
Qed.

Lemma mem_true_iff {A : Type} (k : Z) (d : list (Z * A)) :
  mem k d = true <-> In k (keys d).
Proof.
  unfold mem. pose proof (lookup_none_iff k d) as H.
  destruct (lookup k d) eqn:E.
  - split; [intros _ | reflexivity].
    destruct (in_dec Z.eq_dec k (keys d)) as [Hin | Hnin]; [assumption|].
    apply H in Hnin. discriminate.
  - split; [discriminate|]. intros Hin. now apply H in Hin.
Qed.

Lemma mem_false_iff {A : Type} (k : Z) (d : list (Z * A)) :
  mem k d = false <-> ~ In k (keys d).
Proof.
  rewrite <- mem_true_iff. destruct (mem k d); split; congruence.
Qed.

Lemma lookup_some_in_keys {A : Type} (k : Z) (a : A) (d : list (Z * A)) :
  lookup k d = Some a -> In k (keys d).
Proof.
  intros H. apply mem_true_iff. unfold mem. now rewrite H.
Qed.

Lemma in_keys_lookup {A : Type} (k : Z) (d : list (Z * A)) :
  In k (keys d) -> exists a, lookup k d = Some a.
Proof.
  intros H. apply mem_true_iff in H. unfold mem in H.
  destruct (lookup k d) as [a |]; [now exists a | discriminate].
Qed.

(** ** Fallible maps *)

Lemma mapM_ok_inv {A B : Type} (f : A -> result B) (l : list A) (l' : list B) :
  mapM f l = Ok l' -> Forall2 (fun a b => f a = Ok b) l l'.
Proof.
  revert l'. induction l as [| a r IH]; intros l'; simpl.
  - intros [= <-]. constructor.
  - destruct (f a) as [b | e] eqn:Ea; simpl; [| discriminate].
    destruct (mapM f r) as [bs | e] eqn:Er; simpl; [| discriminate].
    intros [= <-]. constructor; [assumption | now apply IH].
Qed.

Lemma mapM_defined {A B : Type} (f : A -> result B) (l : list A) :
  (forall a, In a l -> exists b, f a = Ok b) -> exists l', mapM f l = Ok l'.
Proof.
  induction l as [| a r IH]; intros H; simpl.
  - now eexists.
  - destruct (H a (or_introl eq_refl)) as (b & ->).
    destruct IH as (bs & ->); [intros x Hx; apply H; now right|].
    simpl. now eexists.
Qed.

(** ** Graph builder *)

Lemma connects_iff (a b u v : Z) :
  connects a b u v = true <-> same_pair a b u v.
Proof.
  unfold connects, same_pair.
  rewrite orb_true_iff, !andb_true_iff, !Z.eqb_eq. tauto.
Qed.

Lemma same_pair_sym (a b u v : Z) : same_pair a b u v -> same_pair u v a b.
Proof. unfold same_pair. intuition congruence. Qed.



(** The end points held after [add_edge]: the same list when the two nodes
    were joined already, one more pair otherwise. *)
Lemma add_edge_pairs (a b : Z) (len : R) (es : list segment) :
  (map fst (add_edge a b len es) = map fst es
   /\ exists u v, In (u, v) (map fst es) /\ same_pair a b u v)
  \/ (map fst (add_edge a b len es) = map fst es ++ [(a, b)]
      /\ forall u v, In (u, v) (map fst es) -> ~ same_pair a b u v).
Proof.
  induction es as [| [[u v] l] r IH]; simpl.
  - right. split; [reflexivity | tauto].
  - destruct (connects a b u v) eqn:E.
    + left. split; [reflexivity|]. exists u, v.
      split; [now left | now apply connects_iff].
    + assert (Hn : ~ same_pair a b u v).
      { intros H. apply connects_iff in H. congruence. }
      destruct IH as [(Heq & x & y & Hin & Hsp) | (Heq & Hall)].
      * left. simpl. rewrite Heq. split; [reflexivity|].
        exists x, y. split; [now right | assumption].
      * right. simpl. rewrite Heq. split; [reflexivity|].
        intros x y [[= <- <-] | Hin]; [assumption | now apply Hall].
Qed.

Lemma distinct_pairs_snoc (l : list (Z * Z)) (a b : Z) :
  distinct_pairs l ->
  (forall u v, In (u, v) l -> ~ same_pair a b u v) ->
  distinct_pairs (l ++ [(a, b)]).
Proof.
  induction 1 as [| x y r Hfresh Hr IH]; intros Hnew; simpl.
  - constructor; [intros u v [] | constructor].
  - constructor.
    + intros u v Hin. apply in_app_or in Hin. destruct Hin as [Hin | [[= <- <-] | []]].
      * now apply Hfresh.
      * intros H. apply (Hnew x y); [now left|]. now apply same_pair_sym.
    + apply IH. intros u v Hin. apply Hnew. now right.
Qed.

Lemma add_edge_distinct (a b : Z) (len : R) (es : list segment) :
  distinct_pairs (map fst es) ->
  distinct_pairs (map fst (add_edge a b len es)).
Proof.
  intros H. destruct (add_edge_pairs a b len es) as [(-> & _) | (-> & Hall)].
  - assumption.
  - now apply distinct_pairs_snoc.
Qed.

Lemma add_edge_joined (a b : Z) (len : R) (es : list segment) :
  exists u v, In (u, v) (map fst (add_edge a b len es)) /\ same_pair a b u v.
Proof.
  destruct (add_edge_pairs a b len es) as [(-> & H) | (-> & _)].
  - assumption.
  - exists a, b. split; [apply in_or_app; right; now left | now left].
Qed.

Lemma add_edge_keeps (a b : Z) (len : R) (es : list segment) (p : Z * Z) :
  In p (map fst es) -> In p (map fst (add_edge a b len es)).
Proof.
  intros H. destruct (add_edge_pairs a b len es) as [(-> & _) | (-> & _)].
  - assumption.
  - apply in_or_app. now left.
Qed.

Lemma add_edge_segment_ok (nodes : list (Z * Coord)) (a b : Z)
  (ca cb : Coord) (es : list segment) :
  lookup a nodes = Some ca -> lookup b nodes = Some cb ->
  Forall (segment_ok nodes) es ->
  Forall (segment_ok nodes)
    (add_edge a b (haversine_km (fst ca) (snd ca) (fst cb) (snd cb) * 1000) es).
Proof.
  intros Ha Hb. induction 1 as [| [[u v] l] r Hs Hr IH]; simpl.
  - constructor; [| constructor]. exists ca, cb. now repeat split.
  - destruct (connects a b u v) eqn:E.
    + constructor; [| assumption].
      apply connects_iff in E. destruct E as [[-> ->] | [-> ->]].
      * exists ca, cb. now repeat split.
      * exists cb, ca. repeat split; try assumption. simpl.
        now rewrite haversine_km_sym.
    + constructor; assumption.
Qed.

Lemma add_way_ok (nodes : list (Z * Coord)) (pairs : list (Z * Z))
  (es : list segment) :
  segments_ok nodes es -> segments_ok nodes (add_way nodes pairs es).
Proof.
  revert es. induction pairs as [| [a b] r IH]; intros es Hes; simpl.
  - assumption.
  - destruct (lookup a nodes) as [[lat1 lon1] |] eqn:Ea; [| now apply IH].
    destruct (lookup b nodes) as [[lat2 lon2] |] eqn:Eb; [| now apply IH].
    apply IH. destruct Hes as [Hok Hd]. split.
    + apply (add_edge_segment_ok nodes a b (lat1, lon1) (lat2, lon2));
        assumption.
    + now apply add_edge_distinct.
Qed.

Lemma add_way_keeps (nodes : list (Z * Coord)) (pairs : list (Z * Z))
  (es : list segment) (p : Z * Z) :
  In p (map fst es) -> In p (map fst (add_way nodes pairs es)).
Proof.
  revert es. induction pairs as [| [a b] r IH]; intros es Hin; simpl.
  - assumption.
  - destruct (lookup a nodes) as [[lat1 lon1] |]; [| now apply IH].
    destruct (lookup b nodes) as [[lat2 lon2] |]; [| now apply IH].
    apply IH. now apply add_edge_keeps.
Qed.

Lemma add_way_joined (nodes : list (Z * Coord)) (pairs : list (Z * Z))
  (es : list segment) (a b : Z) :
  In (a, b) pairs -> In a (keys nodes) -> In b (keys nodes) ->
  exists u v,
    In (u, v) (map fst (add_way nodes pairs es)) /\ same_pair a b u v.
Proof.
  intros Hin Ha Hb.
  apply in_keys_lookup in Ha. destruct Ha as ([lat1 lon1] & Ha).
  apply in_keys_lookup in Hb. destruct Hb as ([lat2 lon2] & Hb).
  revert es. induction pairs as [| [x y] r IH]; intros es; simpl.
  - destruct Hin.
  - destruct Hin as [[= -> ->] | Hin].
    + rewrite Ha, Hb.
      destruct (add_edge_joined a b
                  (haversine_km lat1 lon1 lat2 lon2 * 1000) es)
        as (u & v & Huv & Hsp).
      exists u, v. split; [| assumption]. now apply add_way_keeps.
    + destruct (lookup x nodes) as [[? ?] |]; [| now apply IH].
      destruct (lookup y nodes) as [[? ?] |]; now apply IH.
Qed.

Lemma add_way_nothing (nodes : list (Z * Coord)) (pairs : list (Z * Z))
  (es : list segment) :
  (forall a b, In (a, b) pairs ->
               ~ (In a (keys nodes) /\ In b (keys nodes))) ->
  add_way nodes pairs es = es.
Proof.
  induction pairs as [| [a b] r IH]; intros H; simpl; [reflexivity|].
  assert (Hr : add_way nodes r es = es).
  { apply IH. intros x y Hin. apply H. now right. }
  destruct (lookup a nodes) as [[lat1 lon1] |] eqn:Ea; [| assumption].
  destruct (lookup b nodes) as [[lat2 lon2] |] eqn:Eb; [| assumption].
  exfalso. apply (H a b); [now left|].
  split; eapply lookup_some_in_keys; eassumption.
Qed.

Lemma add_ways_ok (nodes : list (Z * Coord)) (ways : list (list Z))
  (es : list segment) :
  segments_ok nodes es -> segments_ok nodes (add_ways nodes ways es).
Proof.
  revert es. induction ways as [| refs r IH]; intros es Hes; simpl.
  - assumption.
  - apply IH. now apply add_way_ok.
Qed.

Lemma add_ways_keeps (nodes : list (Z * Coord)) (ways : list (list Z))
  (es : list segment) (p : Z * Z) :
  In p (map fst es) -> In p (map fst (add_ways nodes ways es)).
Proof.
  revert es. induction ways as [| refs r IH]; intros es Hin; simpl.
  - assumption.
  - apply IH. now apply add_way_keeps.
Qed.

Lemma add_ways_joined (nodes : list (Z * Coord)) (ways : list (list Z))
  (es : list segment) (refs : list Z) (a b : Z) :
  In refs ways -> In (a, b) (consecutive refs) ->
  In a (keys nodes) -> In b (keys nodes) ->
  exists u v,
    In (u, v) (map fst (add_ways nodes ways es)) /\ same_pair a b u v.
Proof.
  intros Hw Hin Ha Hb. revert es.
  induction ways as [| w r IH]; intros es; simpl; [destruct Hw|].
  destruct Hw as [-> | Hw].
  - destruct (add_way_joined nodes (consecutive refs) es a b Hin Ha Hb)
      as (u & v & Huv & Hsp).
    exists u, v. split; [| assumption]. now apply add_ways_keeps.
  - now apply IH.
Qed.

Lemma add_ways_nothing (nodes : list (Z * Coord)) (ways : list (list Z))
  (es : list segment) :
  (forall refs a b, In refs ways -> In (a, b) (consecutive refs) ->
                    ~ (In a (keys nodes) /\ In b (keys nodes))) ->
  add_ways nodes ways es = es.
Proof.
  induction ways as [| w r IH]; intros H; simpl; [reflexivity|].
  rewrite add_way_nothing.
  - apply IH. intros refs a b Hin. apply H. now right.
  - intros a b. apply H. now left.
Qed.

(** The builder yields no edge exactly when no way has two consecutive
    references that are both known nodes. *)
Lemma add_ways_empty_iff (nodes : list (Z * Coord)) (ways : list (list Z)) :
  add_ways nodes ways [] = []
  <-> (forall refs a b, In refs ways -> In (a, b) (consecutive refs) ->
                        ~ (In a (keys nodes) /\ In b (keys nodes))).
Proof.
  split.
  - intros E refs a b Hw Hin [Ha Hb].
    destruct (add_ways_joined nodes ways [] refs a b Hw Hin Ha Hb)
      as (u & v & Huv & _).
    rewrite E in Huv. destruct Huv.
  - apply add_ways_nothing.
Qed.

Lemma weigh_edge_inv (nodes : list (Z * Coord)) (flood_points : list Coord)
  (alpha max_risk_dist_km : R) (s : segment) (e : edge) :
  weigh_edge nodes flood_points alpha max_risk_dist_km s = Ok e ->
  exists cu cv d_min,
    lookup (eu e) nodes = Some cu
    /\ lookup (ev e) nodes = Some cv
    /\ midpoint_distance cu cv flood_points = Ok d_min
    /\ weight e
       = length e * (1 + alpha * edge_risk d_min max_risk_dist_km)
    /\ (eu e, ev e, length e) = s.
Proof.
  destruct s as [[u v] len]. unfold weigh_edge, node_coord.
  destruct (lookup u nodes) as [cu |] eqn:Eu; simpl; [| discriminate].
  destruct (lookup v nodes) as [cv |] eqn:Ev; simpl; [| discriminate].
  destruct (midpoint_distance cu cv flood_points) as [d |] eqn:Ed; simpl;
    [| discriminate].
  intros [= <-]. simpl. exists cu, cv, d. now repeat split.
Qed.

Lemma weigh_edge_defined (nodes : list (Z * Coord)) (flood_points : list Coord)
  (alpha max_risk_dist_km : R) (s : segment) :
  flood_points <> [] -> segment_ok nodes s ->
  exists e, weigh_edge nodes flood_points alpha max_risk_dist_km s = Ok e.
Proof.
  intros Hne (cu & cv & Hu & Hv & _). destruct s as [[u v] len].
  simpl in Hu, Hv. unfold weigh_edge, node_coord. rewrite Hu, Hv. simpl.
  unfold midpoint_distance.
  destruct (min_distance_to_flood_spec
              ((fst cu + fst cv) / 2) ((snd cu + snd cv) / 2)
              flood_points Hne) as (d & -> & _).
  simpl. now eexists.
Qed.

Lemma graph_of_elements_inv (flood_points : list Coord)
  (alpha max_risk_dist_km : R) (els : list element) (G : Graph) :
  graph_of_elements flood_points alpha max_risk_dist_km els = Ok G ->
  nodes G = collect_nodes els []
  /\ Forall2
       (fun s e =>
          weigh_edge (nodes G) flood_points alpha max_risk_dist_km s = Ok e)
       (add_ways (nodes G) (collect_ways els) []) (edges G).
Proof.
  unfold graph_of_elements.
  destruct (mapM _ _) as [es |] eqn:E; simpl; [| discriminate].
  intros [= <-]. simpl. split; [reflexivity|]. now apply mapM_ok_inv.
Qed.

Lemma graph_of_elements_defined (flood_points : list Coord)
  (alpha max_risk_dist_km : R) (els : list element) :
  flood_points <> [] ->
  exists G, graph_of_elements flood_points alpha max_risk_dist_km els = Ok G.
Proof.
  intros Hne. unfold graph_of_elements.
  destruct (mapM_defined
              (weigh_edge (collect_nodes els []) flood_points alpha
                 max_risk_dist_km)
              (add_ways (collect_nodes els []) (collect_ways els) []))
    as (es & ->).
  - intros s Hs. apply weigh_edge_defined; [assumption|].
    assert (Hok : segments_ok (collect_nodes els [])
                    (add_ways (collect_nodes els []) (collect_ways els) [])).
    { apply add_ways_ok. split; constructor. }
    destruct Hok as [Hall _]. rewrite Forall_forall in Hall. now apply Hall.
  - simpl. now eexists.
Qed.

Lemma build_inv (flood_points : list Coord) (margin alpha max_risk_dist_km : R)
  (overpass : Overpass) (G : Graph) :
  build_flood_weighted_graph_overpass flood_points margin alpha
    max_risk_dist_km overpass = Ok G ->
  flood_points <> []
  /\ exists south west north east els,
      overpass south west north east = Ok els
      /\ graph_of_elements flood_points alpha max_risk_dist_km els = Ok G.
Proof.
  unfold build_flood_weighted_graph_overpass.
  destruct flood_points as [| f r]; [discriminate|]. simpl.
  intros H. split; [discriminate|].
  match type of H with
  | bind (overpass ?s ?w ?n ?e) _ = _ =>
      destruct (overpass s w n e) as [els |] eqn:E; simpl in H;
      [exists s, w, n, e, els; now split | discriminate]
  end.
Qed.

Lemma build_constant_reply (flood_points : list Coord)
  (margin alpha max_risk_dist_km : R) (els : list element) :
  flood_points <> [] ->
  build_flood_weighted_graph_overpass flood_points margin alpha
    max_risk_dist_km (fun _ _ _ _ => Ok els)
  = graph_of_elements flood_points alpha max_risk_dist_km els.
Proof.
  destruct flood_points as [| f r]; [congruence|]. reflexivity.
Qed.

(** The edges of a built graph, read back as the segments they come from. *)
Lemma built_segments (flood_points : list Coord)
  (alpha max_risk_dist_km : R) (els : list element) (G : Graph) :
  graph_of_elements flood_points alpha max_risk_dist_km els = Ok G ->
  map (fun e => (eu e, ev e, length e)) (edges G)
  = add_ways (nodes G) (collect_ways els) []
  /\ segments_ok (nodes G) (add_ways (nodes G) (collect_ways els) []).
Proof.
  intros H. apply graph_of_elements_inv in H. destruct H as [Hn Hall].
  split.
  - induction Hall as [| s e ss es Hse _ IH]; simpl; [reflexivity|].
    apply weigh_edge_inv in Hse.
    destruct Hse as (cu & cv & d & _ & _ & _ & _ & Hs).
    now rewrite IH, Hs.
  - apply add_ways_ok. split; constructor.
Qed.

Lemma built_edge (flood_points : list Coord)
  (alpha max_risk_dist_km : R) (els : list element) (G : Graph) (e : edge) :
  graph_of_elements flood_points alpha max_risk_dist_km els = Ok G ->
  In e (edges G) ->
  exists cu cv d_min,
    lookup (eu e) (nodes G) = Some cu
    /\ lookup (ev e) (nodes G) = Some cv
    /\ length e = haversine_km (fst cu) (snd cu) (fst cv) (snd cv) * 1000
    /\ midpoint_distance cu cv flood_points = Ok d_min
    /\ weight e = length e * (1 + alpha * edge_risk d_min max_risk_dist_km).
Proof.
  intros HG Hin.
  destruct (built_segments _ _ _ _ _ HG) as [Hmap [Hok _]].
  apply graph_of_elements_inv in HG. destruct HG as [_ Hall].
  assert (Hw : exists s, weigh_edge (nodes G) flood_points alpha
                          max_risk_dist_km s = Ok e).
  { clear Hmap Hok. induction Hall as [| s x ss es Hse _ IH]; [destruct Hin|].
    destruct Hin as [-> | Hin]; [now exists s | now apply IH]. }
  destruct Hw as (s & Hs). apply weigh_edge_inv in Hs.
  destruct Hs as (cu & cv & d & Hu & Hv & Hd & Hw & Hs).
  exists cu, cv, d. repeat split; try assumption.
  rewrite Forall_forall in Hok.
  destruct (Hok (eu e, ev e, length e)) as (cu' & cv' & Hu' & Hv' & Hl).
  { rewrite <- Hmap. apply in_map_iff. now exists e. }
  simpl in Hu', Hv', Hl. congruence.
Qed.

Lemma built_graph_ok (flood_points : list Coord)
  (alpha max_risk_dist_km : R) (els : list element) (G : Graph) :
  graph_of_elements flood_points alpha max_risk_dist_km els = Ok G ->
  graph_ok G.
Proof.
  intros HG e He.
  destruct (built_edge _ _ _ _ _ e HG He) as (cu & cv & d & Hu & Hv & _).
  split; eapply lookup_some_in_keys; eassumption.
Qed.

Lemma built_length_nonneg (flood_points : list Coord)
  (alpha max_risk_dist_km : R) (els : list element) (G : Graph) (e : edge) :
  graph_of_elements flood_points alpha max_risk_dist_km els = Ok G ->
  In e (edges G) -> 0 <= length e.
Proof.
  intros HG He.
  destruct (built_edge _ _ _ _ _ e HG He) as (cu & cv & d & _ & _ & -> & _).
  pose proof (haversine_km_nonneg (fst cu) (snd cu) (fst cv) (snd cv)). lra.
Qed.

Lemma midpoint_distance_nonneg (cu cv : Coord) (flood_points : list Coord)
  (d_min : R) :
  midpoint_distance cu cv flood_points = Ok d_min -> 0 <= d_min.
Proof.
  unfold midpoint_distance. intros H.
  destruct flood_points as [| f r]; [discriminate|].
  destruct (min_distance_to_flood_spec
              ((fst cu + fst cv) / 2) ((snd cu + snd cv) / 2) (f :: r))
    as (d & Hd & _ & _ & Hpos); [discriminate|].
  congruence.
Qed.

Lemma built_nonneg_weights (flood_points : list Coord)
  (alpha max_risk_dist_km : R) (els : list element) (G : Graph) :
  0 <= alpha ->
  graph_of_elements flood_points alpha max_risk_dist_km els = Ok G ->
  nonneg_weights G.
Proof.
  intros Ha HG e He.
  pose proof (built_length_nonneg _ _ _ _ _ e HG He) as Hl.
  destruct (built_edge _ _ _ _ _ e HG He)
    as (cu & cv & d & _ & _ & _ & Hd & ->).
  apply midpoint_distance_nonneg in Hd.
  pose proof (edge_risk_range d max_risk_dist_km Hd).
  apply Rmult_le_pos; [assumption|]. nra.
Qed.

(** A graph built with an [alpha] that is not negative meets what the
    search asks of a graph. *)
Lemma built_graph_routable (flood_points : list Coord)
  (margin alpha max_risk_dist_km : R) (overpass : Overpass) (G : Graph) :
  0 <= alpha ->
  build_flood_weighted_graph_overpass flood_points margin alpha
    max_risk_dist_km overpass = Ok G ->
  graph_ok G /\ nonneg_weights G.
Proof.
  intros Ha HG. apply build_inv in HG.
  destruct HG as (_ & s & w & n & e & els & _ & HG). split.
  - now apply (built_graph_ok flood_points alpha max_risk_dist_km els).
  - now apply (built_nonneg_weights flood_points alpha max_risk_dist_km els).
Qed.

(** ** Sample graphs *)

Lemma edge_risk_at_hazard : edge_risk 0 (1 / 2) = 1.
Proof.
  unfold edge_risk. destruct (Rge_dec 0 (1 / 2)); lra.
Qed.

Lemma half_sum_same (x : R) : (x + x) / 2 = x.
Proof. lra. Qed.

Lemma twin_build :
  build_flood_weighted_graph_overpass sample_hazards (2 / 100) 5 (1 / 2)
    (fun _ _ _ _ => Ok twin_reply)
  = Ok twin_graph.
Proof.
  rewrite build_constant_reply by discriminate.
  unfold graph_of_elements, twin_reply, sample_hazards, twin_graph. simpl.
  unfold midpoint_distance, min_distance_to_flood. simpl.
  rewrite !half_sum_same, !haversine_km_same, edge_risk_at_hazard.
  repeat f_equal; lra.
Qed.

Lemma straddle_build (alpha : R) :
  build_flood_weighted_graph_overpass sample_hazards (2 / 100) alpha (1 / 2)
    (fun _ _ _ _ => Ok straddle_reply)
  = Ok (straddle_graph alpha).
Proof.
  rewrite build_constant_reply by discriminate.
  unfold graph_of_elements, straddle_reply, sample_hazards, straddle_graph.
  simpl. unfold midpoint_distance, min_distance_to_flood. simpl.
  rewrite half_sum_same.
  replace ((79.99 + 80.01) / 2) with 80 by lra.
  rewrite haversine_km_same, edge_risk_at_hazard. reflexivity.
Qed.

Lemma haversine_a_pos_same_lat (lat lon1 lon2 : R) :
  -90 < lat < 90 -> 0 < lon1 - lon2 < 360 ->
  0 < haversine_a lat lon1 lat lon2.
Proof.
  intros Hlat Hlon. unfold haversine_a, radians.
  pose proof PI_RGT_0 as Hpi.
  replace ((lat - lat) * (PI / 180) / 2) with 0 by lra. rewrite sin_0.
  assert (Hc : 0 < cos (lat * (PI / 180))).
  { apply cos_gt_0; nra. }
  assert (Hs : 0 < sin ((lon1 - lon2) * (PI / 180) / 2)).
  { apply sin_gt_0; nra. }
  replace ((lon2 - lon1) * (PI / 180) / 2)
    with (- ((lon1 - lon2) * (PI / 180) / 2)) by lra.
  rewrite sin_neg.
  assert (H2 : 0 < cos (lat * (PI / 180)) * cos (lat * (PI / 180)))
    by now apply Rmult_lt_0_compat.
  assert (H3 : 0 < sin ((lon1 - lon2) * (PI / 180) / 2)
                   * sin ((lon1 - lon2) * (PI / 180) / 2))
    by now apply Rmult_lt_0_compat.
  pose proof (Rmult_lt_0_compat _ _ H2 H3). nra.
Qed.

Lemma straddle_length_pos : 0 < straddle_length.
Proof.
  unfold straddle_length.
  assert (0 < haversine_km 13 80.01 13 79.99); [| lra].
  apply haversine_km_pos. apply haversine_a_pos_same_lat; lra.
Qed.

(** ** Edge weights *)

(** C1, as amended: every edge of a built graph carries
    [weight = length * (1 + alpha * risk)], the risk being computed from the
    distance of the middle of the edge to the nearest hazard; when [alpha]
    is not negative the weight is at least the length, and the two are equal
    exactly when [alpha] is 0, the risk is 0 or the length is 0. *)
Theorem edge_weight_formula (flood_points : list Coord)
  (margin alpha max_risk_dist_km : R) (overpass : Overpass)
  (G : Graph) (e : edge) :
  build_flood_weighted_graph_overpass flood_points margin alpha
    max_risk_dist_km overpass = Ok G ->
  In e (edges G) ->
  exists cu cv d_min,
    lookup (eu e) (nodes G) = Some cu
    /\ lookup (ev e) (nodes G) = Some cv
    /\ midpoint_distance cu cv flood_points = Ok d_min
    /\ weight e = length e * (1 + alpha * edge_risk d_min max_risk_dist_km)
    /\ (0 <= alpha ->
        length e <= weight e
        /\ (weight e = length e
            <-> alpha = 0 \/ edge_risk d_min max_risk_dist_km = 0
                \/ length e = 0)).
Proof.
  intros HG He. apply build_inv in HG.
  destruct HG as (_ & s & w & n & ea & els & _ & HG).
  pose proof (built_length_nonneg _ _ _ _ _ e HG He) as Hl.
  destruct (built_edge _ _ _ _ _ e HG He)
    as (cu & cv & d & Hu & Hv & _ & Hd & Hw).
  exists cu, cv, d. do 4 (split; [assumption|]).
  intros Ha. rewrite Hw. split; [| split].
  - pose proof (midpoint_distance_nonneg _ _ _ _ Hd) as Hd0.
    pose proof (edge_risk_range d max_risk_dist_km Hd0) as [Hr _].
    pose proof (Rmult_le_pos _ _ Ha Hr). nra.
  - intros Heq.
    assert (Hz : length e * (alpha * edge_risk d max_risk_dist_km) = 0) by lra.
    apply Rmult_integral in Hz. destruct Hz as [Hz | Hz]; [tauto|].
    apply Rmult_integral in Hz. tauto.
  - intros [E | [E | E]]; rewrite E; lra.
Qed.

Lemma edge_weight_formula_witness :
  build_flood_weighted_graph_overpass sample_hazards (2 / 100) 5 (1 / 2)
    (fun _ _ _ _ => Ok twin_reply) = Ok twin_graph
  /\ In (mkEdge 1 2 0 0) (edges twin_graph)
  /\ exists cu cv d_min,
      lookup (eu (mkEdge 1 2 0 0)) (nodes twin_graph) = Some cu
      /\ lookup (ev (mkEdge 1 2 0 0)) (nodes twin_graph) = Some cv
      /\ midpoint_distance cu cv sample_hazards = Ok d_min
      /\ weight (mkEdge 1 2 0 0)
         = length (mkEdge 1 2 0 0) * (1 + 5 * edge_risk d_min (1 / 2))
      /\ (0 <= 5 ->
          length (mkEdge 1 2 0 0) <= weight (mkEdge 1 2 0 0)
          /\ (weight (mkEdge 1 2 0 0) = length (mkEdge 1 2 0 0)
              <-> 5 = 0 \/ edge_risk d_min (1 / 2) = 0
                  \/ length (mkEdge 1 2 0 0) = 0)).
Proof.
  split; [exact twin_build|]. split; [now left|].
  apply (edge_weight_formula sample_hazards (2 / 100) 5 (1 / 2)
           (fun _ _ _ _ => Ok twin_reply) twin_graph (mkEdge 1 2 0 0)).
  - exact twin_build.
  - now left.
Defined.

(** C1 as stated fails twice.  With the default parameters an edge of
    length 0 next to a hazard has its weight equal to its length although
    neither [alpha] nor the risk is 0; with a negative [alpha] an edge next
    to a hazard weighs less than its length. *)
Lemma weight_not_above_length_counterexample :
  (exists G e,
      build_flood_weighted_graph_overpass sample_hazards (2 / 100) 5 (1 / 2)
        (fun _ _ _ _ => Ok twin_reply) = Ok G
      /\ In e (edges G)
      /\ lookup (eu e) (nodes G) = Some (13, 80)
      /\ lookup (ev e) (nodes G) = Some (13, 80)
      /\ midpoint_distance (13, 80) (13, 80) sample_hazards = Ok 0
      /\ weight e = length e
      /\ 5 <> 0 /\ edge_risk 0 (1 / 2) <> 0)
  /\ (exists G e,
         build_flood_weighted_graph_overpass sample_hazards (2 / 100) (-1)
           (1 / 2) (fun _ _ _ _ => Ok straddle_reply) = Ok G
         /\ In e (edges G)
         /\ weight e < length e).
Proof.
  split.
  - exists twin_graph, (mkEdge 1 2 0 0).
    split; [exact twin_build|]. split; [now left|].
    repeat split; try reflexivity.
    + unfold midpoint_distance, min_distance_to_flood, sample_hazards. simpl.
      now rewrite !half_sum_same, haversine_km_same.
    + lra.
    + rewrite edge_risk_at_hazard. lra.
  - exists (straddle_graph (-1)),
      (mkEdge 1 2 straddle_length (straddle_length * (1 + -1 * 1))).
    split; [apply straddle_build|]. split; [now left|].
    simpl. pose proof straddle_length_pos. lra.
Qed.

(** ** Duplicate segments *)

Lemma distinct_pairs_nth (l : list (Z * Z)) (i j : nat) (a b u v : Z) :
  distinct_pairs l ->
  nth_error l i = Some (a, b) -> nth_error l j = Some (u, v) ->
  same_pair a b u v -> i = j.
Proof.
  intros Hd. revert i j. induction Hd as [| x y r Hfresh Hr IH];
    intros i j Hi Hj Hsp.
  - destruct i; discriminate.
  - destruct i as [| i], j as [| j]; simpl in Hi, Hj.
    + reflexivity.
    + injection Hi as -> ->. apply nth_error_In in Hj.
      exfalso. now apply (Hfresh u v).
    + injection Hj as -> ->. apply nth_error_In in Hi.
      exfalso. apply (Hfresh a b Hi). now apply same_pair_sym.
    + f_equal. now apply IH.
Qed.

(** C8: in a built graph two nodes are joined by at most one edge; every
    pair of consecutive references of a way between known nodes is carried
    by an edge, whose length is the length of that segment, so duplicate
    segments are merged into one edge of their common cost. *)
Theorem duplicate_segments_one_edge (flood_points : list Coord)
  (margin alpha max_risk_dist_km : R) (overpass : Overpass) (G : Graph) :
  build_flood_weighted_graph_overpass flood_points margin alpha
    max_risk_dist_km overpass = Ok G ->
  exists south west north east els,
    overpass south west north east = Ok els
    /\ (forall refs a b ca cb,
           In refs (collect_ways els) -> In (a, b) (consecutive refs) ->
           lookup a (nodes G) = Some ca -> lookup b (nodes G) = Some cb ->
           exists e,
             In e (edges G) /\ joins e a b
             /\ length e
                = haversine_km (fst ca) (snd ca) (fst cb) (snd cb) * 1000)
    /\ (forall i j e1 e2,
           nth_error (edges G) i = Some e1 ->
           nth_error (edges G) j = Some e2 ->
           joins e2 (eu e1) (ev e1) -> i = j).
Proof.
  intros HG. apply build_inv in HG.
  destruct HG as (_ & s & w & n & ea & els & Hreply & HG).
  exists s, w, n, ea, els. split; [assumption|].
  destruct (built_segments _ _ _ _ _ HG) as [Hmap [_ Hdist]].
  assert (Hpairs : map end_points (edges G)
                   = map fst (add_ways (nodes G) (collect_ways els) [])).
  { rewrite <- Hmap, map_map. reflexivity. }
  split.
  - intros refs a b ca cb Hrefs Hab Ha Hb.
    destruct (add_ways_joined (nodes G) (collect_ways els) [] refs a b)
      as (u & v & Huv & Hsp); try assumption.
    { eapply lookup_some_in_keys; eassumption. }
    { eapply lookup_some_in_keys; eassumption. }
    rewrite <- Hpairs in Huv. apply in_map_iff in Huv.
    destruct Huv as (e & He & Hin). injection He as <- <-.
    exists e. split; [assumption|].
    destruct (built_edge _ _ _ _ _ e HG Hin)
      as (cu & cv & d & Hu & Hv & Hl & _).
    destruct Hsp as [[Eu Ev] | [Eu Ev]].
    + split; [left; now split|]. rewrite Eu in Hu. rewrite Ev in Hv.
      congruence.
    + split; [right; now split|]. rewrite Eu in Hu. rewrite Ev in Hv.
      rewrite Hl, haversine_km_sym. congruence.
  - intros i j e1 e2 Hi Hj Hjoin.
    apply (distinct_pairs_nth (map end_points (edges G)) i j
             (eu e1) (ev e1) (eu e2) (ev e2)).
    + now rewrite Hpairs.
    + now apply (map_nth_error end_points).
    + now apply (map_nth_error end_points).
    + destruct Hjoin as [[? ?] | [? ?]]; [left | right]; now split.
Qed.

Lemma duplicate_segments_one_edge_witness :
  build_flood_weighted_graph_overpass sample_hazards (2 / 100) 5 (1 / 2)
    (fun _ _ _ _ => Ok straddle_reply) = Ok (straddle_graph 5)
  /\ exists south west north east els,
      (fun _ _ _ _ : R => Ok straddle_reply) south west north east = Ok els
      /\ (forall refs a b ca cb,
             In refs (collect_ways els) -> In (a, b) (consecutive refs) ->
             lookup a (nodes (straddle_graph 5)) = Some ca ->
             lookup b (nodes (straddle_graph 5)) = Some cb ->
             exists e,
               In e (edges (straddle_graph 5)) /\ joins e a b
               /\ length e
                  = haversine_km (fst ca) (snd ca) (fst cb) (snd cb) * 1000)
      /\ (forall i j e1 e2,
             nth_error (edges (straddle_graph 5)) i = Some e1 ->
             nth_error (edges (straddle_graph 5)) j = Some e2 ->
             joins e2 (eu e1) (ev e1) -> i = j).
Proof.
  split; [apply straddle_build|].
  apply (duplicate_segments_one_edge sample_hazards (2 / 100) 5 (1 / 2)
           (fun _ _ _ _ => Ok straddle_reply) (straddle_graph 5)).
  apply straddle_build.
Defined.

(** ** Empty inputs *)

(** C5, as amended: there is no failure for an empty graph.  When no way
    of the reply has two consecutive references to known nodes, the builder
    returns the graph of the nodes of the reply without any edge; on a graph
    without nodes the nearest-node scan returns [None]. *)
Theorem network_without_edges_builds (flood_points : list Coord)
  (margin alpha max_risk_dist_km : R) (els : list element) :
  flood_points <> [] ->
  (forall refs a b,
      In refs (collect_ways els) -> In (a, b) (consecutive refs) ->
      ~ (In a (keys (collect_nodes els []))
         /\ In b (keys (collect_nodes els [])))) ->
  build_flood_weighted_graph_overpass flood_points margin alpha
    max_risk_dist_km (fun _ _ _ _ => Ok els)
  = Ok (mkGraph (collect_nodes els []) [])
  /\ (forall G lat lon, nodes G = [] -> find_nearest_node G lat lon = None).
Proof.
  intros Hne Hnone. split.
  - rewrite build_constant_reply by assumption. unfold graph_of_elements.
    apply add_ways_empty_iff in Hnone. rewrite Hnone. reflexivity.
  - intros G lat lon E. unfold find_nearest_node. rewrite E. reflexivity.
Qed.

Lemma network_without_edges_builds_witness :
  sample_hazards <> []
  /\ (forall refs a b,
         In refs (collect_ways [ElNode 1 13 80; ElWay (Some [1%Z; 2%Z])]) ->
         In (a, b) (consecutive refs) ->
         ~ (In a (keys (collect_nodes
                          [ElNode 1 13 80; ElWay (Some [1%Z; 2%Z])] []))
            /\ In b (keys (collect_nodes
                             [ElNode 1 13 80; ElWay (Some [1%Z; 2%Z])] []))))
  /\ build_flood_weighted_graph_overpass sample_hazards (2 / 100) 5 (1 / 2)
       (fun _ _ _ _ => Ok [ElNode 1 13 80; ElWay (Some [1%Z; 2%Z])])
     = Ok (mkGraph
             (collect_nodes [ElNode 1 13 80; ElWay (Some [1%Z; 2%Z])] []) [])
  /\ (forall G lat lon, nodes G = [] -> find_nearest_node G lat lon = None).
Proof.
  assert (H : forall refs a b,
             In refs (collect_ways [ElNode 1 13 80; ElWay (Some [1%Z; 2%Z])]) ->
             In (a, b) (consecutive refs) ->
             ~ (In a (keys (collect_nodes
                              [ElNode 1 13 80; ElWay (Some [1%Z; 2%Z])] []))
                /\ In b (keys (collect_nodes
                                 [ElNode 1 13 80; ElWay (Some [1%Z; 2%Z])] [])))).
  { simpl. intros refs a b [<- | []] [[= <- <-] | []] [_ [Hb | []]].
    discriminate. }
  split; [discriminate|]. split; [exact H|].
  apply (network_without_edges_builds sample_hazards (2 / 100) 5 (1 / 2)
           [ElNode 1 13 80; ElWay (Some [1%Z; 2%Z])]).
  - discriminate.
  - exact H.
Defined.

(** C5 as stated fails: a reply without elements is built into the graph
    without nodes and edges, no failure being raised, and the scan of that
    graph returns [None] instead of failing. *)
Lemma empty_graph_counterexample :
  build_flood_weighted_graph_overpass sample_hazards (2 / 100) 5 (1 / 2)
    (fun _ _ _ _ => Ok []) = Ok empty_graph
  /\ find_nearest_node empty_graph 13 80 = None.
Proof.
  split; reflexivity.
Qed.


(** ** Walks *)

Lemma neighbors_adjacent (G : Graph) (v u : Z) (w : R) :
  In (u, w) (neighbors G v) <-> adjacent G v u w.
Proof.
  unfold neighbors, adjacent, joins. rewrite in_flat_map. split.
  - intros (e & He & Hin). exists e. split; [assumption|].
    destruct (Z.eqb (eu e) v) eqn:E1.
    + apply Z.eqb_eq in E1. destruct Hin as [[= <- <-] | []]. tauto.
    + destruct (Z.eqb (ev e) v) eqn:E2; [| destruct Hin].
      apply Z.eqb_eq in E2. destruct Hin as [[= <- <-] | []]. tauto.
  - intros (e & He & Hj & Hw). exists e. split; [assumption|].
    destruct (Z.eqb (eu e) v) eqn:E1.
    + apply Z.eqb_eq in E1. destruct Hj as [[_ <-] | [<- Hv]].
      * left. now rewrite Hw.
      * left. rewrite Hw. f_equal. congruence.
    + apply Z.eqb_neq in E1. destruct Hj as [[Hu _] | [<- Hv]]; [congruence|].
      rewrite Hv, Z.eqb_refl. left. now rewrite Hw.
Qed.

Lemma adjacent_in_nodes (G : Graph) (u v : Z) (w : R) :
  graph_ok G -> adjacent G u v w -> In v (node_ids G).
Proof.
  intros Hok (e & He & Hj & _). destruct (Hok e He) as [Hu Hv].
  destruct Hj as [[_ <-] | [<- _]]; assumption.
Qed.

Lemma walk_nodes (G : Graph) (s v : Z) (p : list Z) (c : R) :
  graph_ok G -> walk G s p v c -> forall x, In x p -> In x (node_ids G).
Proof.
  intros Hok. induction 1 as [Hs | p u v c w Hw IH Hadj]; intros x Hx.
  - destruct Hx as [<- | []]. assumption.
  - apply in_app_or in Hx. destruct Hx as [Hx | [<- | []]].
    + now apply IH.
    + now apply (adjacent_in_nodes G u v w).
Qed.


Lemma walk_ends (G : Graph) (s v : Z) (p : list Z) (c : R) :
  walk G s p v c ->
  nth_error p 0 = Some s
  /\ nth_error p (List.length p - 1) = Some v
  /\ p <> [].
Proof.
  induction 1 as [Hs | p u v c w Hw (Hfirst & Hlast & Hne) Hadj].
  - now repeat split.
  - repeat split.
    + destruct p; [congruence | assumption].
    + rewrite length_app. simpl.
      replace (List.length p + 1 - 1)%nat with (List.length p) by lia.
      rewrite nth_error_app2 by lia. now rewrite Nat.sub_diag.
    + destruct p; discriminate.
Qed.

Lemma walk_end_in (G : Graph) (s v : Z) (p : list Z) (c : R) :
  walk G s p v c -> In v p.
Proof.
  intros H. apply walk_ends in H. destruct H as (_ & H & _).
  now apply nth_error_In in H.
Qed.

Lemma walk_consecutive (G : Graph) (s v : Z) (p : list Z) (c : R) :
  walk G s p v c ->
  forall i x y,
    nth_error p i = Some x -> nth_error p (S i) = Some y ->
    exists w, adjacent G x y w.
Proof.
  induction 1 as [Hs | p u v c w Hw IH Hadj]; intros i x y Hx Hy.
  - destruct i; discriminate.
  - apply nth_error_snoc_inv in Hy. destruct Hy as [(Hlt & Hy) | (Hi & ->)].
    + rewrite nth_error_app1 in Hx by lia. now apply (IH i).
    + rewrite nth_error_app1 in Hx by lia.
      destruct (walk_ends _ _ _ _ _ Hw) as (_ & Hlast & _).
      replace (List.length p - 1)%nat with i in Hlast by lia.
      assert (x = u) by congruence. subst x. now exists w.
Qed.

Lemma walk_nonneg (G : Graph) (s v : Z) (p : list Z) (c : R) :
  nonneg_weights G -> walk G s p v c -> 0 <= c.
Proof.
  intros Hnn. induction 1 as [Hs | p u v c w Hw IH (e & He & _ & <-)].
  - lra.
  - specialize (Hnn e He). lra.
Qed.

(** ** The queue *)

Lemma in_lookup {A : Type} (k : Z) (a : A) (d : list (Z * A)) :
  NoDup (keys d) -> In (k, a) d -> lookup k d = Some a.
Proof.
  induction d as [| [k' a'] r IH]; simpl; [tauto|].
  intros Hnd Hin. inversion Hnd as [| ? ? Hfresh Hr]; subst.
  destruct Hin as [[= -> ->] | Hin].
  - now rewrite Z.eqb_refl.
  - destruct (Z.eqb k' k) eqn:E.
    + apply Z.eqb_eq in E. subst k'. exfalso. apply Hfresh.
      unfold keys. apply in_map_iff. now exists (k, a).
    + now apply IH.
Qed.

Lemma in_dict_del {A : Type} (k : Z) (x : Z * A) (d : list (Z * A)) :
  In x (dict_del k d) -> In x d /\ fst x <> k.
Proof.
  induction d as [| [k' a'] r IH]; simpl; [tauto|].
  destruct (Z.eqb k' k) eqn:E.
  - intros H. apply IH in H. tauto.
  - apply Z.eqb_neq in E. intros [<- | H]; [tauto|]. apply IH in H. tauto.
Qed.

Lemma in_dict_set {A : Type} (k : Z) (a : A) (x : Z * A) (d : list (Z * A)) :
  In x (dict_set k a d) -> x = (k, a) \/ In x d.
Proof.
  induction d as [| [k' a'] r IH]; simpl.
  - intros [<- | []]. now left.
  - destruct (Z.eqb k' k) eqn:E.
    + apply Z.eqb_eq in E. subst k'. intros [<- | H]; tauto.
    + intros [<- | H]; [tauto|]. apply IH in H. tauto.
Qed.

Lemma keys_dict_set {A : Type} (k : Z) (a : A) (d : list (Z * A)) :
  keys (dict_set k a d) = if mem k d then keys d else keys d ++ [k].
Proof.
  unfold mem. induction d as [| [k' a'] r IH]; simpl; [reflexivity|].
  destruct (Z.eqb k' k) eqn:E; simpl; [reflexivity|].
  rewrite IH. now destruct (lookup k r).
Qed.

Lemma nodup_dict_set {A : Type} (k : Z) (a : A) (d : list (Z * A)) :
  NoDup (keys d) -> NoDup (keys (dict_set k a d)).
Proof.
  intros Hnd. rewrite keys_dict_set. destruct (mem k d) eqn:E; [assumption|].
  apply mem_false_iff in E.
  apply NoDup_rev in Hnd. rewrite <- (rev_involutive (keys d ++ [k])).
  apply NoDup_rev. rewrite rev_app_distr. simpl. constructor; [| assumption].
  now rewrite <- in_rev.
Qed.

Lemma nodup_dict_del {A : Type} (k : Z) (d : list (Z * A)) :
  NoDup (keys d) -> NoDup (keys (dict_del k d)).
Proof.
  induction d as [| [k' a'] r IH]; simpl; [trivial|].
  intros Hnd. inversion Hnd as [| ? ? Hfresh Hr]; subst.
  destruct (Z.eqb k' k); [now apply IH|].
  simpl. constructor; [| now apply IH].
  intros Hin. apply Hfresh. unfold keys in *. apply in_map_iff in Hin.
  destruct Hin as (x & Hx & Hin). apply in_dict_del in Hin.
  apply in_map_iff. exists x. tauto.
Qed.

Lemma min_entry_in (l : list entry) (best : entry) :
  In (min_entry best l) (best :: l).
Proof.
  revert best. induction l as [| x r IH]; intros best; simpl; [now left|].
  destruct (Rlt_dec (fst (snd x)) (fst (snd best))).
  - destruct (IH x) as [H | H]; [right; left; exact H | right; right; exact H].
  - destruct (IH best) as [H | H]; [left; exact H | right; right; exact H].
Qed.

Lemma min_entry_le_start (l : list entry) (best : entry) :
  fst (snd (min_entry best l)) <= fst (snd best).
Proof.
  revert best. induction l as [| x r IH]; intros best; simpl; [lra|].
  destruct (Rlt_dec (fst (snd x)) (fst (snd best))).
  - specialize (IH x). lra.
  - apply IH.
Qed.

Lemma min_entry_least (l : list entry) (best y : entry) :
  In y (best :: l) -> fst (snd (min_entry best l)) <= fst (snd y).
Proof.
  revert best. induction l as [| x r IH]; intros best; simpl.
  - intros [<- | []]. lra.
  - intros [<- | [<- | Hin]].
    + destruct (Rlt_dec (fst (snd x)) (fst (snd best))).
      * pose proof (min_entry_le_start r x). lra.
      * apply min_entry_le_start.
    + destruct (Rlt_dec (fst (snd x)) (fst (snd best))).
      * apply min_entry_le_start.
      * pose proof (min_entry_le_start r best). lra.
    + apply IH. now right.
Qed.

Lemma pop_min_some (fringe fringe' : list entry) (v : Z) (d : R) (p : list Z) :
  pop_min fringe = Some ((v, (d, p)), fringe') ->
  In (v, (d, p)) fringe
  /\ (forall x dx px, In (x, (dx, px)) fringe -> d <= dx)
  /\ fringe' = dict_del v fringe.
Proof.
  unfold pop_min. destruct fringe as [| x r]; [discriminate|].
  intros [= Hm <-]. split; [| split].
  - rewrite <- Hm. apply min_entry_in.
  - intros y dy py Hy.
    pose proof (min_entry_least r x (y, (dy, py)) Hy) as H.
    rewrite Hm in H. exact H.
  - now rewrite Hm.
Qed.

Lemma pop_min_none (fringe : list entry) :
  pop_min fringe = None -> fringe = [].
Proof. destruct fringe; [reflexivity | discriminate]. Qed.

(** ** Relaxation *)

Section Relaxation.
Variables (dist : list (Z * R)) (d : R) (p : list Z).

Lemma relax_in (fringe : list entry) (u : Z) (w : R) (x : entry) :
  In x (relax dist d p fringe (u, w)) ->
  In x fringe \/ x = (u, (d + w, p ++ [u])).
Proof.
  unfold relax. destruct (mem u dist); [tauto|].
  destruct (lookup u fringe) as [[du pu] |].
  - destruct (Rlt_dec (d + w) du); [| tauto].
    intros H. apply in_dict_set in H. tauto.
  - intros H. apply in_dict_set in H. tauto.
Qed.

Lemma relax_lookup (fringe : list entry) (u : Z) (w : R) (x : Z)
  (e : R * list Z) :
  lookup x (relax dist d p fringe (u, w)) = Some e ->
  lookup x fringe = Some e
  \/ (x = u /\ e = (d + w, p ++ [u]) /\ mem u dist = false).
Proof.
  unfold relax. destruct (mem u dist) eqn:Em; [tauto|].
  destruct (Z.eq_dec x u) as [-> | Hne].
  - destruct (lookup u fringe) as [[du pu] |] eqn:El.
    + destruct (Rlt_dec (d + w) du); [| rewrite El; tauto].
      rewrite lookup_dict_set_same. intros [= <-]. tauto.
    + rewrite lookup_dict_set_same. intros [= <-]. tauto.
  - destruct (lookup u fringe) as [[du pu] |] eqn:El.
    + destruct (Rlt_dec (d + w) du); [| tauto].
      rewrite lookup_dict_set_other by assumption. tauto.
    + rewrite lookup_dict_set_other by assumption. tauto.
Qed.

Lemma relax_lowers (fringe : list entry) (u : Z) (w : R) (x : Z)
  (dx : R) (px : list Z) :
  lookup x fringe = Some (dx, px) ->
  exists dx' px',
    lookup x (relax dist d p fringe (u, w)) = Some (dx', px') /\ dx' <= dx.
Proof.
  intros Hx. unfold relax.
  destruct (mem u dist); [exists dx, px; split; [assumption | lra]|].
  destruct (Z.eq_dec x u) as [-> | Hne].
  - rewrite Hx. destruct (Rlt_dec (d + w) dx).
    + rewrite lookup_dict_set_same. exists (d + w), (p ++ [u]).
      split; [reflexivity | lra].
    + exists dx, px. split; [assumption | lra].
  - exists dx, px. split; [| lra].
    destruct (lookup u fringe) as [[du pu] |].
    + destruct (Rlt_dec (d + w) du); [| assumption].
      now rewrite lookup_dict_set_other.
    + now rewrite lookup_dict_set_other.
Qed.

Lemma relax_reaches (fringe : list entry) (u : Z) (w : R) :
  mem u dist = false ->
  exists du pu,
    lookup u (relax dist d p fringe (u, w)) = Some (du, pu) /\ du <= d + w.
Proof.
  intros Hm. unfold relax. rewrite Hm.
  destruct (lookup u fringe) as [[du pu] |] eqn:El.
  - destruct (Rlt_dec (d + w) du).
    + rewrite lookup_dict_set_same. exists (d + w), (p ++ [u]).
      split; [reflexivity | lra].
    + rewrite El. exists du, pu. split; [reflexivity | lra].
  - rewrite lookup_dict_set_same. exists (d + w), (p ++ [u]).
    split; [reflexivity | lra].
Qed.

Lemma relax_nodup (fringe : list entry) (u : Z) (w : R) :
  NoDup (keys fringe) -> NoDup (keys (relax dist d p fringe (u, w))).
Proof.
  intros Hnd. unfold relax. destruct (mem u dist); [assumption|].
  destruct (lookup u fringe) as [[du pu] |].
  - destruct (Rlt_dec (d + w) du); [| assumption]. now apply nodup_dict_set.
  - now apply nodup_dict_set.
Qed.

Lemma relax_all_in (nbrs : list (Z * R)) (fringe : list entry) (x : entry) :
  In x (fold_left (relax dist d p) nbrs fringe) ->
  In x fringe
  \/ exists u w, In (u, w) nbrs /\ x = (u, (d + w, p ++ [u])).
Proof.
  revert fringe. induction nbrs as [| [u w] r IH]; intros fringe; simpl.
  - tauto.
  - intros H. apply IH in H. destruct H as [H | (u' & w' & Hin & ->)].
    + apply relax_in in H. destruct H as [H | ->]; [tauto|].
      right. exists u, w. split; [now left | reflexivity].
    + right. exists u', w'. split; [now right | reflexivity].
Qed.

Lemma relax_all_lookup (nbrs : list (Z * R)) (fringe : list entry) (x : Z)
  (e : R * list Z) :
  lookup x (fold_left (relax dist d p) nbrs fringe) = Some e ->
  lookup x fringe = Some e \/ mem x dist = false.
Proof.
  revert fringe. induction nbrs as [| [u w] r IH]; intros fringe; simpl.
  - tauto.
  - intros H. apply IH in H. destruct H as [H | H]; [| tauto].
    apply relax_lookup in H. destruct H as [H | (-> & _ & H)]; tauto.
Qed.

Lemma relax_all_lowers (nbrs : list (Z * R)) (fringe : list entry) (x : Z)
  (dx : R) (px : list Z) :
  lookup x fringe = Some (dx, px) ->
  exists dx' px',
    lookup x (fold_left (relax dist d p) nbrs fringe) = Some (dx', px')
    /\ dx' <= dx.
Proof.
  revert fringe dx px. induction nbrs as [| [u w] r IH]; intros fringe dx px Hx.
  - simpl. exists dx, px. split; [assumption | lra].
  - simpl. destruct (relax_lowers fringe u w x dx px Hx) as (d1 & p1 & H1 & Hle).
    destruct (IH _ _ _ H1) as (d2 & p2 & H2 & Hle2).
    exists d2, p2. split; [assumption | lra].
Qed.

Lemma relax_all_reaches (nbrs : list (Z * R)) (fringe : list entry)
  (u : Z) (w : R) :
  In (u, w) nbrs -> mem u dist = false ->
  exists du pu,
    lookup u (fold_left (relax dist d p) nbrs fringe) = Some (du, pu)
    /\ du <= d + w.
Proof.
  intros Hin Hm. revert fringe.
  induction nbrs as [| [u' w'] r IH]; intros fringe; [destruct Hin|].
  simpl. destruct Hin as [[= -> ->] | Hin].
  - destruct (relax_reaches fringe u w Hm) as (d1 & p1 & H1 & Hle).
    destruct (relax_all_lowers r _ u d1 p1 H1) as (d2 & p2 & H2 & Hle2).
    exists d2, p2. split; [assumption | lra].
  - now apply IH.
Qed.

Lemma relax_all_nodup (nbrs : list (Z * R)) (fringe : list entry) :
  NoDup (keys fringe) ->
  NoDup (keys (fold_left (relax dist d p) nbrs fringe)).
Proof.
  revert fringe. induction nbrs as [| [u w] r IH]; intros fringe Hnd; simpl.
  - assumption.
  - apply IH. now apply relax_nodup.
Qed.

End Relaxation.

(** One iteration keeps the routes of the queue valid. *)
Lemma step_fringe_walks (G : Graph) (s v : Z) (d : R) (p : list Z)
  (dist : list (Z * R)) (fringe fringe' : list entry) :
  fringe_walks G s fringe ->
  pop_min fringe = Some ((v, (d, p)), fringe') ->
  walk G s p v d
  /\ fringe_walks G s (fold_left (relax dist d p) (neighbors G v) fringe').
Proof.
  intros Hw Hpop. apply pop_min_some in Hpop. destruct Hpop as (Hin & _ & ->).
  assert (Hp : walk G s p v d) by now apply Hw.
  split; [assumption|]. intros x dx px Hx.
  apply relax_all_in in Hx. destruct Hx as [Hx | (u & w & Hn & [= -> -> ->])].
  - apply in_dict_del in Hx. now apply Hw.
  - apply neighbors_adjacent in Hn. now apply walk_step with (u := v).
Qed.

(** ** The search invariant *)

Lemma in_keys_entry {A : Type} (k : Z) (d : list (Z * A)) :
  In k (keys d) -> exists a, In (k, a) d.
Proof.
  unfold keys. intros H. apply in_map_iff in H.
  destruct H as ([k' a] & <- & Hin). now exists a.
Qed.


Lemma adjacent_nonneg (G : Graph) (u v : Z) (w : R) :
  nonneg_weights G -> adjacent G u v w -> 0 <= w.
Proof.
  intros Hnn (e & He & _ & <-). now apply Hnn.
Qed.

(** A walk that ends outside the settled nodes costs at least as much as
    the cheapest entry of the queue. *)
Lemma leaving_settled (G : Graph) (s t : Z) (dist : list (Z * R))
  (fringe : list entry) (m : R) :
  nonneg_weights G ->
  search_inv G s t dist fringe ->
  (forall x dx px, lookup x fringe = Some (dx, px) -> m <= dx) ->
  forall q x c, walk G s q x c -> ~ In x (keys dist) -> m <= c.
Proof.
  intros Hnn Hinv Hmin q x c Hw.
  induction Hw as [Hs | q u x c w Hw IH Hadj]; intros Hx.
  - destruct (inv_source _ _ _ _ _ Hinv) as [Hin | (ds & ps & Hl & Hle)];
      [contradiction|].
    specialize (Hmin _ _ _ Hl). lra.
  - pose proof (adjacent_nonneg _ _ _ _ Hnn Hadj) as Hw0.
    destruct (in_dec Z.eq_dec u (keys dist)) as [Hu | Hu].
    + apply in_keys_entry in Hu. destruct Hu as (du & Hu).
      pose proof (inv_settled_least _ _ _ _ _ Hinv _ _ _ _ Hu Hw) as Hdu.
      destruct (inv_relaxed _ _ _ _ _ Hinv _ _ _ _ Hu Hadj)
        as [Hin | (dx & px & Hl & Hle)]; [contradiction|].
      specialize (Hmin _ _ _ Hl). lra.
    + specialize (IH Hu). lra.
Qed.

(** When the queue is empty every node that a walk reaches is settled. *)
Lemma settled_when_dry (G : Graph) (s t : Z) (dist : list (Z * R)) :
  search_inv G s t dist [] ->
  forall q x c, walk G s q x c -> In x (keys dist).
Proof.
  intros Hinv q x c Hw. induction Hw as [Hs | q u x c w Hw IH Hadj].
  - destruct (inv_source _ _ _ _ _ Hinv) as [Hin | (ds & ps & Hl & _)];
      [assumption | discriminate].
  - apply in_keys_entry in IH. destruct IH as (du & Hu).
    destruct (inv_relaxed _ _ _ _ _ Hinv _ _ _ _ Hu Hadj)
      as [Hin | (dx & px & Hl & _)]; [assumption | discriminate].
Qed.

Lemma popped_entry (G : Graph) (s t v : Z) (d : R) (p : list Z)
  (dist : list (Z * R)) (fringe fringe' : list entry) :
  search_inv G s t dist fringe ->
  pop_min fringe = Some ((v, (d, p)), fringe') ->
  lookup v fringe = Some (d, p)
  /\ ~ In v (keys dist)
  /\ (forall x dx px, lookup x fringe = Some (dx, px) -> d <= dx)
  /\ fringe' = dict_del v fringe.
Proof.
  intros Hinv Hpop. apply pop_min_some in Hpop.
  destruct Hpop as (Hin & Hmin & Hdel).
  assert (Hl : lookup v fringe = Some (d, p)).
  { apply in_lookup; [exact (inv_fringe_nodup _ _ _ _ _ Hinv) | assumption]. }
  repeat split; try assumption.
  - intros Hv. apply (inv_disjoint _ _ _ _ _ Hinv) in Hv. congruence.
  - intros x dx px Hx. apply lookup_in in Hx. now apply (Hmin x dx px).
Qed.

Lemma popped_least (G : Graph) (s t v : Z) (d : R) (p : list Z)
  (dist : list (Z * R)) (fringe fringe' : list entry) :
  nonneg_weights G ->
  search_inv G s t dist fringe ->
  pop_min fringe = Some ((v, (d, p)), fringe') ->
  forall q c, walk G s q v c -> d <= c.
Proof.
  intros Hnn Hinv Hpop q c Hw.
  destruct (popped_entry _ _ _ _ _ _ _ _ _ Hinv Hpop) as (_ & Hv & Hmin & _).
  now apply (leaving_settled G s t dist fringe d Hnn Hinv Hmin q v c).
Qed.

Lemma search_inv_start (G : Graph) (s t : Z) :
  In s (node_ids G) -> search_inv G s t [] [(s, (0, [s]))].
Proof.
  intros Hs. constructor; simpl.
  - constructor.
  - intros v [].
  - intros v d p [[= <- <- <-] | []]. now constructor.
  - constructor; [intros [] | constructor].
  - intros v d q c [].
  - intros v d u w [].
  - intros v [].
  - right. exists 0, [s]. rewrite Z.eqb_refl. split; [reflexivity | lra].
  - intros [].
Qed.

Lemma search_inv_step (G : Graph) (s t v : Z) (d : R) (p : list Z)
  (dist : list (Z * R)) (fringe fringe' : list entry) :
  graph_ok G -> nonneg_weights G ->
  search_inv G s t dist fringe ->
  pop_min fringe = Some ((v, (d, p)), fringe') ->
  v <> t ->
  search_inv G s t ((v, d) :: dist)
    (fold_left (relax ((v, d) :: dist) d p) (neighbors G v) fringe').
Proof.
  intros Hok Hnn Hinv Hpop Hvt.
  pose proof (popped_least _ _ _ _ _ _ _ _ _ Hnn Hinv Hpop) as Hleast.
  destruct (step_fringe_walks G s v d p ((v, d) :: dist) fringe fringe'
              (inv_fringe_walks _ _ _ _ _ Hinv) Hpop) as [Hp Hwalks].
  destruct (popped_entry _ _ _ _ _ _ _ _ _ Hinv Hpop)
    as (Hl & Hv & Hmin & ->).
  constructor.
  - simpl. constructor; [assumption | exact (inv_dist_nodup _ _ _ _ _ Hinv)].
  - simpl. intros x [<- | Hx].
    + apply (walk_nodes G s v p d Hok Hp). now apply (walk_end_in G s v p d).
    + now apply (inv_dist_nodes _ _ _ _ _ Hinv).
  - assumption.
  - apply relax_all_nodup. apply nodup_dict_del.
    exact (inv_fringe_nodup _ _ _ _ _ Hinv).
  - intros x dx q c [[= <- <-] | Hx] Hw.
    + now apply (Hleast q).
    + now apply (inv_settled_least _ _ _ _ _ Hinv x dx q c).
  - intros y dy u w [[= <- <-] | Hy] Hadj.
    + destruct (mem u ((v, d) :: dist)) eqn:Em.
      * left. now apply mem_true_iff.
      * right. apply relax_all_reaches; [| assumption].
        now apply neighbors_adjacent.
    + destruct (inv_relaxed _ _ _ _ _ Hinv _ _ _ _ Hy Hadj)
        as [Hin | (du & pu & Hu & Hle)].
      * left. simpl. now right.
      * destruct (Z.eq_dec u v) as [-> | Hne]; [left; now left|].
        right. rewrite <- (lookup_dict_del_other u v fringe Hne) in Hu.
        destruct (relax_all_lowers ((v, d) :: dist) d p (neighbors G v)
                    _ u du pu Hu) as (du' & pu' & Hu' & Hle').
        exists du', pu'. split; [assumption | lra].
  - intros x Hx.
    destruct (lookup x (fold_left (relax ((v, d) :: dist) d p)
                          (neighbors G v) (dict_del v fringe)))
      as [e |] eqn:E; [| reflexivity].
    exfalso. apply relax_all_lookup in E. destruct E as [E | E].
    + destruct (Z.eq_dec x v) as [-> | Hne].
      * rewrite lookup_dict_del_same in E. discriminate.
      * rewrite lookup_dict_del_other in E by assumption.
        destruct Hx as [Hx | Hx]; [simpl in Hx; congruence|].
        apply (inv_disjoint _ _ _ _ _ Hinv) in Hx. congruence.
    + apply mem_false_iff in E. contradiction.
  - destruct (inv_source _ _ _ _ _ Hinv) as [Hin | (ds & ps & Hs & Hle)].
    + left. simpl. now right.
    + destruct (Z.eq_dec s v) as [-> | Hne]; [left; now left|].
      right. rewrite <- (lookup_dict_del_other s v fringe Hne) in Hs.
      destruct (relax_all_lowers ((v, d) :: dist) d p (neighbors G v)
                  _ s ds ps Hs) as (ds' & ps' & Hs' & Hle').
      exists ds', ps'. split; [assumption | lra].
  - simpl. intros [Ht | Ht]; [congruence|].
    now apply (inv_target _ _ _ _ _ Hinv).
Qed.

(** ** The main loop *)

Lemma settled_count (G : Graph) (s t : Z) (dist : list (Z * R))
  (fringe : list entry) :
  search_inv G s t dist fringe ->
  (List.length dist <= List.length (nodes G))%nat.
Proof.
  intros Hinv.
  replace (List.length dist) with (List.length (keys dist))
    by apply length_map.
  replace (List.length (nodes G)) with (List.length (node_ids G))
    by apply length_map.
  apply NoDup_incl_length.
  - exact (inv_dist_nodup _ _ _ _ _ Hinv).
  - intros v Hv. now apply (inv_dist_nodes _ _ _ _ _ Hinv).
Qed.

(** With one iteration left for every node that is not settled, and one
    more, the loop ends: on a cheapest walk to the target when there is a
    walk, on [NetworkXNoPath] when there is none. *)
Lemma dijkstra_loop_correct (G : Graph) (s t : Z) :
  graph_ok G -> nonneg_weights G ->
  forall fuel dist fringe,
    search_inv G s t dist fringe ->
    (List.length (nodes G) < fuel + List.length dist)%nat ->
    (exists p c,
        dijkstra_loop fuel G t dist fringe = Some (Ok p)
        /\ walk G s p t c
        /\ forall q c', walk G s q t c' -> c <= c')
    \/ (dijkstra_loop fuel G t dist fringe = Some (Raise NetworkXNoPath)
        /\ ~ connected G s t).
Proof.
  intros Hok Hnn. induction fuel as [| fuel IH]; intros dist fringe Hinv Hfuel.
  - pose proof (settled_count _ _ _ _ _ Hinv). lia.
  - simpl.
    destruct (pop_min fringe) as [[[v [d p]] fringe'] |] eqn:Hpop.
    + destruct (Z.eqb v t) eqn:Evt.
      * apply Z.eqb_eq in Evt. subst v. left. exists p, d.
        split; [reflexivity|]. split.
        -- apply (inv_fringe_walks _ _ _ _ _ Hinv).
           now apply pop_min_some in Hpop.
        -- exact (popped_least _ _ _ _ _ _ _ _ _ Hnn Hinv Hpop).
      * apply Z.eqb_neq in Evt. apply IH.
        -- now apply (search_inv_step G s t v d p dist fringe fringe').
        -- simpl. lia.
    + right. split; [reflexivity|].
      apply pop_min_none in Hpop. subst fringe.
      intros (q & c & Hw).
      apply (inv_target _ _ _ _ _ Hinv).
      exact (settled_when_dry G s t dist Hinv q t c Hw).
Qed.

(** A route returned by the loop is a walk, whatever the weights. *)
Lemma dijkstra_loop_walk (G : Graph) (s t : Z) (fuel : nat)
  (dist : list (Z * R)) (fringe : list entry) (p : list Z) :
  fringe_walks G s fringe ->
  dijkstra_loop fuel G t dist fringe = Some (Ok p) ->
  exists c, walk G s p t c.
Proof.
  revert dist fringe. induction fuel as [| fuel IH]; intros dist fringe Hw;
    simpl; [discriminate|].
  destruct (pop_min fringe) as [[[v [d p']] fringe'] |] eqn:Hpop;
    [| discriminate].
  destruct (step_fringe_walks G s v d p' ((v, d) :: dist) fringe fringe'
              Hw Hpop) as [Hp Hnext].
  destruct (Z.eqb v t) eqn:Evt.
  - apply Z.eqb_eq in Evt. subst v. intros [= <-]. now exists d.
  - now apply IH.
Qed.

Lemma shortest_path_fuel_correct (G : Graph) (s t : Z) (fuel : nat) :
  graph_ok G -> nonneg_weights G ->
  In s (node_ids G) -> In t (node_ids G) ->
  (List.length (nodes G) < fuel)%nat ->
  (exists p c,
      shortest_path_fuel fuel G s t = Some (Ok p)
      /\ walk G s p t c
      /\ forall q c', walk G s q t c' -> c <= c')
  \/ (shortest_path_fuel fuel G s t = Some (Raise NetworkXNoPath)
      /\ ~ connected G s t).
Proof.
  intros Hok Hnn Hs Ht Hfuel. unfold shortest_path_fuel.
  apply mem_true_iff in Hs as Hms. apply mem_true_iff in Ht as Hmt.
  unfold node_ids in Hms, Hmt. rewrite Hms, Hmt. simpl.
  apply dijkstra_loop_correct; try assumption.
  - now apply search_inv_start.
  - simpl. lia.
Qed.

Lemma shortest_path_terminates (G : Graph) (s t : Z) :
  graph_ok G -> nonneg_weights G -> shortest_path G s t <> None.
Proof.
  intros Hok Hnn. unfold shortest_path, shortest_path_fuel.
  destruct (mem s (nodes G)) eqn:Hs; unfold negb; [| discriminate].
  destruct (mem t (nodes G)) eqn:Ht; [| discriminate].
  destruct (dijkstra_loop_correct G s t Hok Hnn
              (S (List.length (nodes G))) [] [(s, (0, [s]))])
    as [(p & c & -> & _) | (-> & _)]; try discriminate.
  - apply search_inv_start. now apply mem_true_iff.
  - simpl. lia.
Qed.

Lemma shortest_path_same (G : Graph) (s : Z) (fuel : nat) :
  In s (node_ids G) -> shortest_path_fuel (S fuel) G s s = Some (Ok [s]).
Proof.
  intros Hs. unfold shortest_path_fuel.
  apply mem_true_iff in Hs. unfold node_ids in Hs. rewrite Hs. simpl.
  now rewrite Z.eqb_refl.
Qed.

Lemma shortest_path_walk (G : Graph) (s t : Z) (fuel : nat) (p : list Z) :
  shortest_path_fuel fuel G s t = Some (Ok p) -> exists c, walk G s p t c.
Proof.
  unfold shortest_path_fuel.
  destruct (mem s (nodes G)) eqn:Hs; simpl; [| discriminate].
  destruct (mem t (nodes G)) eqn:Ht; simpl; [| discriminate].
  apply dijkstra_loop_walk.
  intros v d q [[= <- <- <-] | []]. constructor. now apply mem_true_iff.
Qed.

(** ** Routes *)

Lemma positions_of_mapM (G : Graph) (path : list Z) (route : list Coord) :
  mapM (node_coord (nodes G)) path = Ok route -> positions G path route.
Proof.
  intros H. apply mapM_ok_inv in H. unfold positions.
  induction H as [| n c ns cs Hn _ IH]; constructor; [| assumption].
  unfold node_coord in Hn. destruct (lookup n (nodes G)); congruence.
Qed.

Lemma route_defined (G : Graph) (path : list Z) :
  (forall n, In n path -> In n (node_ids G)) ->
  exists route, mapM (node_coord (nodes G)) path = Ok route.
Proof.
  intros H. apply mapM_defined. intros n Hn. apply H in Hn.
  apply in_keys_lookup in Hn. destruct Hn as (c & Hc).
  exists c. unfold node_coord. now rewrite Hc.
Qed.

Lemma positions_nth (G : Graph) (path : list Z) (route : list Coord)
  (i : nat) (n : Z) :
  positions G path route -> nth_error path i = Some n ->
  nth_error route i = lookup n (nodes G).
Proof.
  intros H. revert i. induction H as [| x c ns cs Hx _ IH]; intros i Hi.
  - destruct i; discriminate.
  - destruct i as [| i]; simpl in *.
    + injection Hi as ->. now rewrite Hx.
    + now apply IH.
Qed.

Lemma positions_length (G : Graph) (path : list Z) (route : list Coord) :
  positions G path route -> List.length route = List.length path.
Proof.
  induction 1; simpl; congruence.
Qed.

Lemma compute_safe_path_found (G : Graph) (s t : Z)
  (start_lat start_lon end_lat end_lon : R) :
  find_nearest_node G start_lat start_lon = Some s ->
  find_nearest_node G end_lat end_lon = Some t ->
  compute_safe_path G start_lat start_lon end_lat end_lon
  = match shortest_path G s t with
    | Some (Ok path) => Some (mapM (node_coord (nodes G)) path)
    | Some (Raise e) => Some (Raise e)
    | None => None
    end.
Proof.
  intros Hs Ht. unfold compute_safe_path. now rewrite Hs, Ht.
Qed.

(** C3: between two nodes of a graph with non-negative weights that a walk
    joins, the search returns a walk from the first to the second whose
    weights add up to no more than those of any other walk between them;
    the route lists the stored positions of its nodes in order, from the
    position of the start node to the position of the end node, and it is
    the route that [compute_safe_path] returns for query points whose
    nearest nodes are these two; when the two nodes are the same the route
    has one element and costs 0. *)
Theorem shortest_route_is_minimal (G : Graph) (s t : Z) :
  graph_ok G -> nonneg_weights G ->
  In s (node_ids G) -> In t (node_ids G) ->
  connected G s t ->
  exists path cost route,
    shortest_path G s t = Some (Ok path)
    /\ walk G s path t cost
    /\ (forall q c, walk G s q t c -> cost <= c)
    /\ positions G path route
    /\ nth_error route 0 = lookup s (nodes G)
    /\ nth_error route (List.length route - 1) = lookup t (nodes G)
    /\ (forall start_lat start_lon end_lat end_lon,
           find_nearest_node G start_lat start_lon = Some s ->
           find_nearest_node G end_lat end_lon = Some t ->
           compute_safe_path G start_lat start_lon end_lat end_lon
           = Some (Ok route))
    /\ (s = t -> path = [s] /\ cost = 0 /\ List.length route = 1%nat).
Proof.
  intros Hok Hnn Hs Ht Hconn.
  destruct (shortest_path_fuel_correct G s t (S (List.length (nodes G)))
              Hok Hnn Hs Ht (Nat.lt_succ_diag_r _))
    as [(path & cost & Hsp & Hw & Hmin) | (_ & Hno)]; [| contradiction].
  destruct (route_defined G path (walk_nodes G s t path cost Hok Hw))
    as (route & Hroute).
  pose proof (positions_of_mapM G path route Hroute) as Hpos.
  destruct (walk_ends G s t path cost Hw) as (Hfirst & Hlast & _).
  exists path, cost, route. split; [exact Hsp|]. split; [exact Hw|].
  split; [exact Hmin|]. split; [exact Hpos|]. split; [| split; [| split]].
  - now apply (positions_nth G path route 0 s).
  - rewrite (positions_length G path route Hpos).
    now apply (positions_nth G path route).
  - intros start_lat start_lon end_lat end_lon Hns Hnt.
    rewrite (compute_safe_path_found G s t) by assumption.
    fold (shortest_path G s t) in Hsp. now rewrite Hsp, Hroute.
  - intros <-. unfold shortest_path in Hsp.
    rewrite shortest_path_same in Hsp by assumption.
    injection Hsp as <-. split; [reflexivity|]. split.
    + pose proof (Hmin [s] 0 (walk_start G s Hs)).
      pose proof (walk_nonneg G s s [s] cost Hnn Hw). lra.
    + now rewrite (positions_length G [s] route Hpos).
Qed.

Lemma abc_graph_ok : graph_ok abc_graph.
Proof.
  intros e [<- | [<- | [<- | []]]]; simpl; tauto.
Qed.

Lemma abc_nonneg : nonneg_weights abc_graph.
Proof.
  intros e [<- | [<- | [<- | []]]]; simpl; lra.
Qed.

Lemma abc_connected : connected abc_graph 1 3.
Proof.
  exists ([1%Z] ++ [3%Z]), (0 + 500).
  apply walk_step with (u := 1%Z).
  - constructor. simpl. tauto.
  - exists (mkEdge 1 3 500 500). simpl. unfold joins. simpl. tauto.
Qed.

Lemma shortest_route_is_minimal_witness :
  graph_ok abc_graph /\ nonneg_weights abc_graph
  /\ In 1%Z (node_ids abc_graph) /\ In 3%Z (node_ids abc_graph)
  /\ connected abc_graph 1 3
  /\ exists path cost route,
      shortest_path abc_graph 1 3 = Some (Ok path)
      /\ walk abc_graph 1 path 3 cost
      /\ (forall q c, walk abc_graph 1 q 3 c -> cost <= c)
      /\ positions abc_graph path route
      /\ nth_error route 0 = lookup 1%Z (nodes abc_graph)
      /\ nth_error route (List.length route - 1) = lookup 3%Z (nodes abc_graph)
      /\ (forall start_lat start_lon end_lat end_lon,
             find_nearest_node abc_graph start_lat start_lon = Some 1%Z ->
             find_nearest_node abc_graph end_lat end_lon = Some 3%Z ->
             compute_safe_path abc_graph start_lat start_lon end_lat end_lon
             = Some (Ok route))
      /\ (1%Z = 3%Z ->
          path = [1%Z] /\ cost = 0 /\ List.length route = 1%nat).
Proof.
  split; [exact abc_graph_ok|]. split; [exact abc_nonneg|].
  split; [simpl; tauto|]. split; [simpl; tauto|].
  split; [exact abc_connected|].
  apply (shortest_route_is_minimal abc_graph 1 3).
  - exact abc_graph_ok.
  - exact abc_nonneg.
  - simpl. tauto.
  - simpl. tauto.
  - exact abc_connected.
Defined.

(** C4: between two nodes of a graph with non-negative weights that no
    walk joins, the search raises [NetworkXNoPath], and so does
    [compute_safe_path] for query points whose nearest nodes are these
    two; no route is returned. *)
Theorem disconnected_nodes_no_path (G : Graph) (s t : Z) :
  graph_ok G -> nonneg_weights G ->
  In s (node_ids G) -> In t (node_ids G) ->
  ~ connected G s t ->
  shortest_path G s t = Some (Raise NetworkXNoPath)
  /\ (forall start_lat start_lon end_lat end_lon,
         find_nearest_node G start_lat start_lon = Some s ->
         find_nearest_node G end_lat end_lon = Some t ->
         compute_safe_path G start_lat start_lon end_lat end_lon
         = Some (Raise NetworkXNoPath)).
Proof.
  intros Hok Hnn Hs Ht Hno.
  assert (Hsp : shortest_path G s t = Some (Raise NetworkXNoPath)).
  { destruct (shortest_path_fuel_correct G s t (S (List.length (nodes G)))
                Hok Hnn Hs Ht (Nat.lt_succ_diag_r _))
      as [(path & cost & _ & Hw & _) | (Hsp & _)]; [| exact Hsp].
    exfalso. apply Hno. now exists path, cost. }
  split; [exact Hsp|].
  intros start_lat start_lon end_lat end_lon Hns Hnt.
  rewrite (compute_safe_path_found G s t) by assumption. now rewrite Hsp.
Qed.

Lemma split_not_connected : ~ connected split_graph 1 2.
Proof.
  intros (p & c & Hw). inversion Hw as [Hs | q u v c' w Hq Hadj]; subst.
  destruct Hadj as (e & [] & _).
Qed.

Lemma disconnected_nodes_no_path_witness :
  graph_ok split_graph /\ nonneg_weights split_graph
  /\ In 1%Z (node_ids split_graph) /\ In 2%Z (node_ids split_graph)
  /\ ~ connected split_graph 1 2
  /\ shortest_path split_graph 1 2 = Some (Raise NetworkXNoPath)
  /\ (forall start_lat start_lon end_lat end_lon,
         find_nearest_node split_graph start_lat start_lon = Some 1%Z ->
         find_nearest_node split_graph end_lat end_lon = Some 2%Z ->
         compute_safe_path split_graph start_lat start_lon end_lat end_lon
         = Some (Raise NetworkXNoPath)).
Proof.
  assert (Hok : graph_ok split_graph) by (intros e []).
  assert (Hnn : nonneg_weights split_graph) by (intros e []).
  split; [exact Hok|]. split; [exact Hnn|].
  split; [simpl; tauto|]. split; [simpl; tauto|].
  split; [exact split_not_connected|].
  apply (disconnected_nodes_no_path split_graph 1 2).
  - exact Hok.
  - exact Hnn.
  - simpl. tauto.
  - simpl. tauto.
  - exact split_not_connected.
Defined.

(** ** The three-node scenario *)

(** The search goes through B rather than along the direct edge. *)
Example abc_shortest :
  shortest_path abc_graph 1 3 = Some (Ok [1%Z; 2%Z; 3%Z]).
Proof.
  unfold shortest_path, shortest_path_fuel, abc_graph. simpl.
  decide_reals. simpl. decide_reals. reflexivity.
Qed.

(** A node is the nearest node of its own position when the nodes
    enumerated before it lie elsewhere. *)
Lemma find_nearest_node_at (G : Graph) (i : nat) (n : Z) (lat lon : R) :
  nth_error (nodes G) i = Some (n, (lat, lon)) ->
  (forall j nc, (j < i)%nat -> nth_error (nodes G) j = Some nc ->
                0 < node_distance lat lon nc) ->
  find_nearest_node G lat lon = Some n.
Proof.
  intros Hi Hbefore.
  destruct (find_nearest_node_some G lat lon)
    as (i' & n' & c' & Hfind & Hnth & Hle & Hlt).
  { intros E. rewrite E in Hi. destruct i; discriminate. }
  rewrite Hfind. f_equal.
  assert (H0 : node_distance lat lon (n, (lat, lon)) = 0)
    by apply haversine_km_same.
  pose proof (Hle i _ Hi) as Hle0. rewrite H0 in Hle0.
  destruct (lt_eq_lt_dec i' i) as [[Hlti | Heq] | Hgti].
  - specialize (Hbefore i' _ Hlti Hnth). lra.
  - subst i'. congruence.
  - specialize (Hlt i _ Hgti Hi). rewrite H0 in Hlt.
    pose proof (haversine_km_nonneg lat lon (fst c') (snd c')) as Hpos.
    unfold node_distance in Hlt. simpl in Hlt. lra.
Qed.

Lemma abc_nearest_start : find_nearest_node abc_graph 13 79 = Some 1%Z.
Proof.
  apply (find_nearest_node_at abc_graph 0); [reflexivity|].
  intros j nc Hj. lia.
Qed.

Lemma abc_nearest_end : find_nearest_node abc_graph 13 81 = Some 3%Z.
Proof.
  apply (find_nearest_node_at abc_graph 2); [reflexivity|].
  intros [| [| j]] nc Hj Hnc; [| | lia]; injection Hnc as <-;
    apply haversine_km_pos; apply haversine_a_pos_same_lat; simpl; lra.
Qed.

Example abc_route :
  compute_safe_path abc_graph 13 79 13 81
  = Some (Ok [(13, 79); (13, 80); (13, 81)]).
Proof.
  rewrite (compute_safe_path_found abc_graph 1 3
             13 79 13 81 abc_nearest_start abc_nearest_end).
  rewrite abc_shortest. reflexivity.
Qed.

(** C10: a route that [compute_safe_path] returns lists the stored
    positions of a sequence of nodes of the graph in which every node is
    joined to the next one by an edge of the graph. *)
Theorem route_follows_graph (G : Graph)
  (start_lat start_lon end_lat end_lon : R) (route : list Coord) :
  compute_safe_path G start_lat start_lon end_lat end_lon = Some (Ok route) ->
  exists path,
    positions G path route
    /\ (forall n, In n path -> In n (node_ids G))
    /\ (forall i x y,
           nth_error path i = Some x -> nth_error path (S i) = Some y ->
           exists e, In e (edges G) /\ joins e x y).
Proof.
  unfold compute_safe_path.
  destruct (find_nearest_node G start_lat start_lon) as [s |].
  - destruct (find_nearest_node G end_lat end_lon) as [t |].
    + unfold shortest_path.
      destruct (shortest_path_fuel _ G s t) as [[path | e] |] eqn:Hsp;
        try discriminate.
      intros [= Hroute]. apply shortest_path_walk in Hsp.
      destruct Hsp as (c & Hw).
      pose proof (positions_of_mapM G path route Hroute) as Hpos.
      exists path. split; [exact Hpos|]. split.
      * intros n Hn. apply In_nth_error in Hn. destruct Hn as (i & Hi).
        pose proof (positions_nth G path route i n Hpos Hi) as Hr.
        destruct (lookup n (nodes G)) as [cn |] eqn:El.
        -- now apply lookup_some_in_keys with cn.
        -- exfalso. assert (Hlen : (i < List.length path)%nat).
           { apply nth_error_Some. congruence. }
           rewrite <- (positions_length G path route Hpos) in Hlen.
           apply nth_error_Some in Hlen. congruence.
      * intros i x y Hx Hy.
        destruct (walk_consecutive G s t path c Hw i x y Hx Hy)
          as (w & e & He & Hj & _).
        now exists e.
    + intros [= <-]. exists []. split; [constructor|]. split.
      * intros n [].
      * intros i x y Hx. destruct i; discriminate.
  - intros [= <-]. exists []. split; [constructor|]. split.
    + intros n [].
    + intros i x y Hx. destruct i; discriminate.
Qed.

Lemma route_follows_graph_witness :
  compute_safe_path abc_graph 13 79 13 81
  = Some (Ok [(13, 79); (13, 80); (13, 81)])
  /\ exists path,
      positions abc_graph path [(13, 79); (13, 80); (13, 81)]
      /\ (forall n, In n path -> In n (node_ids abc_graph))
      /\ (forall i x y,
             nth_error path i = Some x -> nth_error path (S i) = Some y ->
             exists e, In e (edges abc_graph) /\ joins e x y).
Proof.
  split; [exact abc_route|].
  apply (route_follows_graph abc_graph 13 79 13 81
           [(13, 79); (13, 80); (13, 81)]).
  exact abc_route.
Defined.

(** * Further properties *)

(** ** Flood points of the KML file *)

Lemma same_point_iff (p q : Coord) : same_point p q = true <-> p = q.
Proof.
  unfold same_point. destruct p as [a b], q as [c d]. simpl.
  destruct (Req_dec_T a c) as [-> | Hne].
  - destruct (Req_dec_T b d) as [-> | Hne]; split; congruence.
  - split; congruence.
Qed.

Lemma existsb_same_point (p : Coord) (l : list Coord) :
  existsb (same_point p) l = true <-> In p l.
Proof.
  rewrite existsb_exists. split.
  - intros (q & Hq & E). apply same_point_iff in E. now subst.
  - intros H. exists p. split; [assumption | now apply same_point_iff].
Qed.

Lemma seen_before_app (l : list Coord) (x p q : Coord) :
  seen_before l p q -> seen_before (l ++ [x]) p q.
Proof.
  intros (k & Hk & Hq).
  assert (Hlt : (k < List.length l)%nat) by (apply nth_error_Some; congruence).
  exists k. split.
  - now rewrite nth_error_app1.
  - intros k' Hk'. rewrite nth_error_app1 by lia. now apply Hq.
Qed.

Lemma seen_before_new (l : list Coord) (p q : Coord) :
  In p l -> ~ In q l -> seen_before (l ++ [q]) p q.
Proof.
  intros Hp Hq. apply In_nth_error in Hp. destruct Hp as (k & Hk).
  assert (Hlt : (k < List.length l)%nat) by (apply nth_error_Some; congruence).
  exists k. split.
  - now rewrite nth_error_app1.
  - intros k' Hk'. rewrite nth_error_app1 by lia.
    intros H. apply nth_error_In in H. contradiction.
Qed.

Lemma fromkeys_spec (points done seen : list Coord) :
  first_seen_order done seen ->
  first_seen_order (done ++ points) (fromkeys points seen).
Proof.
  revert done seen. induction points as [| p r IH]; intros done seen Hinv.
  - now rewrite app_nil_r.
  - simpl. replace (done ++ p :: r) with ((done ++ [p]) ++ r)
      by now rewrite <- app_assoc.
    apply IH. destruct Hinv as (Hnd & Hin & Hord).
    destruct (existsb (same_point p) seen) eqn:E.
    + apply existsb_same_point in E. split; [assumption|]. split.
      * intros x. rewrite in_app_iff, Hin. simpl.
        split; [tauto|]. intros [H | [<- | []]]; [assumption|].
        now apply Hin.
      * intros i j x y Hij Hx Hy. apply seen_before_app.
        now apply (Hord i j).
    + assert (Hp : ~ In p seen).
      { intros H. apply existsb_same_point in H. congruence. }
      split; [| split].
      * apply NoDup_rev in Hnd. rewrite <- (rev_involutive (seen ++ [p])).
        apply NoDup_rev. rewrite rev_app_distr. simpl.
        constructor; [now rewrite <- in_rev | assumption].
      * intros x. rewrite !in_app_iff, Hin. tauto.
      * intros i j x y Hij Hx Hy.
        apply nth_error_snoc_inv in Hy. destruct Hy as [(Hj & Hy) | (Hj & ->)].
        -- rewrite nth_error_app1 in Hx by lia. apply seen_before_app.
           now apply (Hord i j).
        -- rewrite nth_error_app1 in Hx by lia.
           apply seen_before_new.
           ++ apply Hin. now apply nth_error_In in Hx.
           ++ now rewrite <- Hin.
Qed.

(** X1: the loader fails with [ValueError] exactly when the pattern has no
    match; otherwise it returns the matched points, latitude first, each
    once, in the order of their first match. *)
Theorem load_flood_points_first_seen (matches : list (R * R)) :
  (matches = [] /\ load_flood_points_from_kml matches = Raise ValueError)
  \/ (matches <> []
      /\ exists points,
          load_flood_points_from_kml matches = Ok points
          /\ points <> []
          /\ first_seen_order (matched_points matches) points).
Proof.
  destruct matches as [| m r]; [left; now split|].
  right. split; [discriminate|].
  unfold load_flood_points_from_kml. fold (matched_points (m :: r)).
  assert (H : first_seen_order (matched_points (m :: r))
                (fromkeys (matched_points (m :: r)) [])).
  { apply (fromkeys_spec (matched_points (m :: r)) [] []).
    split; [constructor|]. split; [tauto|].
    intros i j p q _ Hp. destruct i; discriminate. }
  destruct (fromkeys (matched_points (m :: r)) []) as [| p ps] eqn:E.
  - exfalso. destruct H as (_ & Hin & _).
    apply (Hin (snd m, fst m)). now left.
  - exists (p :: ps). split; [reflexivity|]. split; [discriminate|].
    exact H.
Qed.

(** ** Bounding box of the query *)

Lemma max_from_ge_start (l : list R) (m : R) : m <= max_from m l.
Proof.
  revert m. induction l as [| x r IH]; intros m; simpl; [lra|].
  destruct (Rlt_dec m x) as [Hlt | Hge].
  - specialize (IH x). lra.
  - apply IH.
Qed.

Lemma max_from_ge_each (l : list R) (m x : R) :
  In x l -> x <= max_from m l.
Proof.
  revert m. induction l as [| y r IH]; intros m; simpl; [tauto|].
  intros [-> | Hin].
  - destruct (Rlt_dec m x) as [Hlt | Hge].
    + apply max_from_ge_start.
    + pose proof (max_from_ge_start r m). lra.
  - now apply IH.
Qed.

Lemma max_from_attained (l : list R) (m : R) :
  max_from m l = m \/ In (max_from m l) l.
Proof.
  revert m. induction l as [| y r IH]; intros m; simpl; [now left|].
  destruct (Rlt_dec m y) as [Hlt | Hge].
  - destruct (IH y) as [-> | Hin]; [right; now left | right; now right].
  - destruct (IH m) as [-> | Hin]; [now left | right; now right].
Qed.

Lemma py_max_spec (l : list R) :
  l <> [] ->
  exists m, py_max l = Ok m /\ In m l /\ forall x, In x l -> x <= m.
Proof.
  destruct l as [| x r]; [congruence|]. intros _.
  exists (max_from x r). split; [reflexivity|]. split.
  - destruct (max_from_attained r x) as [-> | Hin]; [now left | now right].
  - intros y [<- | Hin].
    + apply max_from_ge_start.
    + now apply max_from_ge_each.
Qed.

(** X2: for flood points that are not empty the builder sends one query to
    the road-network service; its box reaches [margin] beyond the flood
    points on every side and is the smallest such box: every flood point
    lies at least [margin] inside it, and each side is exactly [margin]
    away from some flood point. *)
Theorem overpass_box_contains_hazards (flood_points : list Coord)
  (margin alpha max_risk_dist_km : R) :
  flood_points <> [] ->
  exists south west north east,
    (forall overpass : Overpass,
        build_flood_weighted_graph_overpass flood_points margin alpha
          max_risk_dist_km overpass
        = (els <- overpass south west north east ;;
           graph_of_elements flood_points alpha max_risk_dist_km els))
    /\ (forall lat lon, In (lat, lon) flood_points ->
          south + margin <= lat <= north - margin
          /\ west + margin <= lon <= east - margin)
    /\ (exists p, In p flood_points /\ fst p = south + margin)
    /\ (exists p, In p flood_points /\ fst p = north - margin)
    /\ (exists p, In p flood_points /\ snd p = west + margin)
    /\ (exists p, In p flood_points /\ snd p = east - margin).
Proof.
  intros Hne.
  assert (Hlat : map fst flood_points <> [])
    by (destruct flood_points; [congruence | discriminate]).
  assert (Hlon : map snd flood_points <> [])
    by (destruct flood_points; [congruence | discriminate]).
  destruct (py_min_spec _ Hlat) as (s & Hs & Hsin & Hsle).
  destruct (py_max_spec _ Hlat) as (n & Hn & Hnin & Hnge).
  destruct (py_min_spec _ Hlon) as (w & Hw & Hwin & Hwle).
  destruct (py_max_spec _ Hlon) as (e & He & Hein & Hege).
  exists (s - margin), (w - margin), (n + margin), (e + margin).
  split; [| split; [| split; [| split; [| split]]]].
  - intros overpass. unfold build_flood_weighted_graph_overpass.
    now rewrite Hs, Hn, Hw, He.
  - intros lat lon Hin.
    assert (H1 : In lat (map fst flood_points))
      by (apply in_map_iff; now exists (lat, lon)).
    assert (H2 : In lon (map snd flood_points))
      by (apply in_map_iff; now exists (lat, lon)).
    pose proof (Hsle _ H1). pose proof (Hnge _ H1).
    pose proof (Hwle _ H2). pose proof (Hege _ H2). lra.
  - apply in_map_iff in Hsin. destruct Hsin as (p & Hp & Hin).
    exists p. split; [assumption | lra].
  - apply in_map_iff in Hnin. destruct Hnin as (p & Hp & Hin).
    exists p. split; [assumption | lra].
  - apply in_map_iff in Hwin. destruct Hwin as (p & Hp & Hin).
    exists p. split; [assumption | lra].
  - apply in_map_iff in Hein. destruct Hein as (p & Hp & Hin).
    exists p. split; [assumption | lra].
Qed.

Lemma overpass_box_contains_hazards_witness :
  sample_hazards <> []
  /\ exists south west north east,
      (forall overpass : Overpass,
          build_flood_weighted_graph_overpass sample_hazards (2 / 100) 5
            (1 / 2) overpass
          = (els <- overpass south west north east ;;
             graph_of_elements sample_hazards 5 (1 / 2) els))
      /\ (forall lat lon, In (lat, lon) sample_hazards ->
            south + 2 / 100 <= lat <= north - 2 / 100
            /\ west + 2 / 100 <= lon <= east - 2 / 100)
      /\ (exists p, In p sample_hazards /\ fst p = south + 2 / 100)
      /\ (exists p, In p sample_hazards /\ fst p = north - 2 / 100)
      /\ (exists p, In p sample_hazards /\ snd p = west + 2 / 100)
      /\ (exists p, In p sample_hazards /\ snd p = east - 2 / 100).
Proof.
  split; [discriminate|].
  apply (overpass_box_contains_hazards sample_hazards (2 / 100) 5 (1 / 2)).
  discriminate.
Defined.

(** ** Nodes of a built graph *)

Lemma in_keys_dict_set {A : Type} (k k' : Z) (a : A) (d : list (Z * A)) :
  In k (keys (dict_set k' a d)) <-> k = k' \/ In k (keys d).
Proof.
  rewrite keys_dict_set. destruct (mem k' d) eqn:E.
  - apply mem_true_iff in E. split; [tauto|]. intros [-> | H]; assumption.
  - rewrite in_app_iff. simpl. intuition congruence.
Qed.

Lemma collect_nodes_app (a b : list element) (nodes : list (Z * Coord)) :
  collect_nodes (a ++ b) nodes = collect_nodes b (collect_nodes a nodes).
Proof.
  revert nodes. induction a as [| [id lat lon | refs |] r IH]; intros nodes;
    simpl; [reflexivity | apply IH ..].
Qed.

Lemma collect_nodes_nodup (els : list element) (nodes : list (Z * Coord)) :
  NoDup (keys nodes) -> NoDup (keys (collect_nodes els nodes)).
Proof.
  revert nodes. induction els as [| [id lat lon | refs |] r IH];
    intros nodes Hnd; simpl; [assumption | | now apply IH ..].
  apply IH. now apply nodup_dict_set.
Qed.

Lemma collect_nodes_keys (els : list element) (nodes : list (Z * Coord))
  (id : Z) :
  In id (keys (collect_nodes els nodes))
  <-> In id (keys nodes) \/ exists lat lon, In (ElNode id lat lon) els.
Proof.
  revert nodes. induction els as [| [i lat lon | refs |] r IH]; intros nodes;
    simpl.
  - split; [tauto|]. intros [H | (lat & lon & [])]. assumption.
  - rewrite IH, in_keys_dict_set. split.
    + intros [[-> | H] | (la & lo & H)].
      * right. exists lat, lon. now left.
      * now left.
      * right. exists la, lo. now right.
    + intros [H | (la & lo & [[= -> -> ->] | H])].
      * left. now right.
      * left. now left.
      * right. now exists la, lo.
  - rewrite IH. split.
    + intros [H | (la & lo & H)]; [now left|]. right. exists la, lo. now right.
    + intros [H | (la & lo & [H | H])]; [now left | discriminate|].
      right. now exists la, lo.
  - rewrite IH. split.
    + intros [H | (la & lo & H)]; [now left|]. right. exists la, lo. now right.
    + intros [H | (la & lo & [H | H])]; [now left | discriminate|].
      right. now exists la, lo.
Qed.

Lemma collect_nodes_lookup_keep (els : list element)
  (nodes : list (Z * Coord)) (id : Z) :
  (forall lat lon, ~ In (ElNode id lat lon) els) ->
  lookup id (collect_nodes els nodes) = lookup id nodes.
Proof.
  revert nodes. induction els as [| [i lat lon | refs |] r IH]; intros nodes H;
    simpl; [reflexivity | | ..].
  - rewrite IH by (intros la lo Hin; apply (H la lo); now right).
    apply lookup_dict_set_other. intros ->. apply (H lat lon). now left.
  - apply IH. intros la lo Hin. apply (H la lo). now right.
  - apply IH. intros la lo Hin. apply (H la lo). now right.
Qed.

(** X3: the nodes of a built graph are the node elements of the reply, each
    id once; a node element that no later node element of the same id
    follows gives the node its position (the last position wins). *)
Theorem built_nodes_of_reply (flood_points : list Coord)
  (margin alpha max_risk_dist_km : R) (overpass : Overpass) (G : Graph) :
  build_flood_weighted_graph_overpass flood_points margin alpha
    max_risk_dist_km overpass = Ok G ->
  exists south west north east els,
    overpass south west north east = Ok els
    /\ NoDup (node_ids G)
    /\ (forall id, In id (node_ids G)
                   <-> exists lat lon, In (ElNode id lat lon) els)
    /\ (forall pre post id lat lon,
           els = pre ++ ElNode id lat lon :: post ->
           (forall lat' lon', ~ In (ElNode id lat' lon') post) ->
           lookup id (nodes G) = Some (lat, lon)).
Proof.
  intros HG. apply build_inv in HG.
  destruct HG as (_ & s & w & n & e & els & Hreply & HG).
  exists s, w, n, e, els. split; [assumption|].
  apply graph_of_elements_inv in HG. destruct HG as [Hnodes _].
  unfold node_ids. rewrite Hnodes. split; [| split].
  - apply collect_nodes_nodup. constructor.
  - intros id. rewrite collect_nodes_keys. simpl. tauto.
  - intros pre post id lat lon -> Hlast.
    rewrite collect_nodes_app. simpl.
    rewrite collect_nodes_lookup_keep by assumption.
    apply lookup_dict_set_same.
Qed.

Lemma built_nodes_of_reply_witness :
  build_flood_weighted_graph_overpass sample_hazards (2 / 100) 5 (1 / 2)
    (fun _ _ _ _ => Ok twin_reply) = Ok twin_graph
  /\ exists south west north east els,
      (fun _ _ _ _ : R => Ok twin_reply) south west north east = Ok els
      /\ NoDup (node_ids twin_graph)
      /\ (forall id, In id (node_ids twin_graph)
                     <-> exists lat lon, In (ElNode id lat lon) els)
      /\ (forall pre post id lat lon,
             els = pre ++ ElNode id lat lon :: post ->
             (forall lat' lon', ~ In (ElNode id lat' lon') post) ->
             lookup id (nodes twin_graph) = Some (lat, lon)).
Proof.
  split; [exact twin_build|].
  apply (built_nodes_of_reply sample_hazards (2 / 100) 5 (1 / 2)
           (fun _ _ _ _ => Ok twin_reply) twin_graph).
  exact twin_build.
Defined.

(** ** Edges of a built graph *)

(** The pairs that [zip(refs[:-1], refs[1:])] yields are the pairs of
    neighbouring references. *)
Lemma consecutive_nth (refs : list Z) (a b : Z) :
  In (a, b) (consecutive refs)
  <-> exists i, nth_error refs i = Some a /\ nth_error refs (S i) = Some b.
Proof.
  unfold consecutive. induction refs as [| x r IH].
  - simpl. split; [tauto|]. intros (i & H & _). destruct i; discriminate.
  - destruct r as [| y r'].
    + simpl. split; [tauto|]. intros (i & _ & H). destruct i; discriminate.
    + change (removelast (x :: y :: r')) with (x :: removelast (y :: r')).
      change (tl (x :: y :: r')) with (y :: r').
      change (tl (y :: r')) with r' in IH.
      simpl combine. split.
      * intros [[= -> ->] | H].
        -- exists 0%nat. now split.
        -- apply IH in H. destruct H as (i & Ha & Hb). now exists (S i).
      * intros (i & Ha & Hb). destruct i as [| i].
        -- left. simpl in Ha, Hb. congruence.
        -- right. apply IH. now exists i.
Qed.

Lemma add_way_sound (nodes : list (Z * Coord)) (pairs : list (Z * Z))
  (es : list segment) (p : Z * Z) :
  In p (map fst (add_way nodes pairs es)) ->
  In p (map fst es) \/ In p pairs.
Proof.
  revert es. induction pairs as [| [a b] r IH]; intros es; simpl; [tauto|].
  assert (Hskip : In p (map fst (add_way nodes r es)) ->
                  In p (map fst es) \/ (a, b) = p \/ In p r).
  { intros H. apply IH in H. tauto. }
  destruct (lookup a nodes) as [[lat1 lon1] |]; [| exact Hskip].
  destruct (lookup b nodes) as [[lat2 lon2] |]; [| exact Hskip].
  intros H. apply IH in H. destruct H as [H | H]; [| tauto].
  destruct (add_edge_pairs a b (haversine_km lat1 lon1 lat2 lon2 * 1000) es)
    as [(E & _) | (E & _)]; rewrite E in H; [tauto|].
  apply in_app_or in H. destruct H as [H | [H | []]]; tauto.
Qed.

Lemma add_ways_sound (nodes : list (Z * Coord)) (ways : list (list Z))
  (es : list segment) (p : Z * Z) :
  In p (map fst (add_ways nodes ways es)) ->
  In p (map fst es) \/ exists refs, In refs ways /\ In p (consecutive refs).
Proof.
  revert es. induction ways as [| w r IH]; intros es; simpl; [tauto|].
  intros H. apply IH in H. destruct H as [H | (refs & Hr & Hp)].
  - apply add_way_sound in H. destruct H as [H | H]; [now left|].
    right. exists w. split; [now left | assumption].
  - right. exists refs. split; [now right | assumption].
Qed.

(** X4: every edge of a built graph lies between two nodes of the graph
    that some way of the reply lists one after the other, in the direction
    in which the edge is stored; no edge comes from anything else. *)
Theorem built_edges_from_ways (flood_points : list Coord)
  (margin alpha max_risk_dist_km : R) (overpass : Overpass) (G : Graph) :
  build_flood_weighted_graph_overpass flood_points margin alpha
    max_risk_dist_km overpass = Ok G ->
  exists south west north east els,
    overpass south west north east = Ok els
    /\ forall e, In e (edges G) ->
         In (eu e) (node_ids G) /\ In (ev e) (node_ids G)
         /\ exists refs i,
             In refs (collect_ways els)
             /\ nth_error refs i = Some (eu e)
             /\ nth_error refs (S i) = Some (ev e).
Proof.
  intros HG. apply build_inv in HG.
  destruct HG as (_ & s & w & n & ea & els & Hreply & HG).
  exists s, w, n, ea, els. split; [assumption|].
  intros e He.
  destruct (built_graph_ok _ _ _ _ _ HG e He) as [Hu Hv].
  split; [assumption|]. split; [assumption|].
  destruct (built_segments _ _ _ _ _ HG) as [Hmap _].
  assert (Hin : In (eu e, ev e)
                  (map fst (add_ways (nodes G) (collect_ways els) []))).
  { rewrite <- Hmap, map_map. apply in_map_iff. now exists e. }
  apply add_ways_sound in Hin. destruct Hin as [[] | (refs & Hrefs & Hp)].
  apply consecutive_nth in Hp. destruct Hp as (i & Ha & Hb).
  now exists refs, i.
Qed.

Lemma built_edges_from_ways_witness :
  build_flood_weighted_graph_overpass sample_hazards (2 / 100) 5 (1 / 2)
    (fun _ _ _ _ => Ok straddle_reply) = Ok (straddle_graph 5)
  /\ exists south west north east els,
      (fun _ _ _ _ : R => Ok straddle_reply) south west north east = Ok els
      /\ forall e, In e (edges (straddle_graph 5)) ->
           In (eu e) (node_ids (straddle_graph 5))
           /\ In (ev e) (node_ids (straddle_graph 5))
           /\ exists refs i,
               In refs (collect_ways els)
               /\ nth_error refs i = Some (eu e)
               /\ nth_error refs (S i) = Some (ev e).
Proof.
  split; [apply straddle_build|].
  apply (built_edges_from_ways sample_hazards (2 / 100) 5 (1 / 2)
           (fun _ _ _ _ => Ok straddle_reply) (straddle_graph 5)).
  apply straddle_build.
Defined.

(** ** Bounds on distances and weights *)

Lemma atan2_le_half_pi (y x : R) : 0 <= y -> 0 <= x -> atan2 y x <= PI / 2.
Proof.
  intros Hy Hx. unfold atan2. pose proof PI2_RGT_0 as Hpi.
  destruct (total_order_T 0 x) as [[Hlt | Heq] | Hgt].
  - pose proof (atan_bound (y / x)). lra.
  - destruct (total_order_T 0 y) as [[? | ?] | ?]; lra.
  - lra.
Qed.

Lemma sin_sq_shift_pi (x : R) : sin (x + PI) ^ 2 = sin x ^ 2.
Proof. rewrite neg_sin. ring. Qed.

(** X5: the great-circle distance lies between 0 and half the
    circumference of the sphere, 6371 * PI kilometres, and it does not
    change when a longitude is moved by a full turn of 360 degrees. *)
Theorem haversine_km_range_and_period (lat1 lon1 lat2 lon2 : R) :
  0 <= haversine_km lat1 lon1 lat2 lon2 <= 6371 * PI
  /\ haversine_km lat1 (lon1 + 360) lat2 lon2
     = haversine_km lat1 lon1 lat2 lon2
  /\ haversine_km lat1 lon1 lat2 (lon2 + 360)
     = haversine_km lat1 lon1 lat2 lon2.
Proof.
  split; [| split].
  - split; [apply haversine_km_nonneg|]. unfold haversine_km.
    pose proof (atan2_le_half_pi _ _
                  (sqrt_pos (haversine_a lat1 lon1 lat2 lon2))
                  (sqrt_pos (1 - haversine_a lat1 lon1 lat2 lon2))).
    lra.
  - unfold haversine_km.
    assert (E : haversine_a lat1 (lon1 + 360) lat2 lon2
                = haversine_a lat1 lon1 lat2 lon2).
    { unfold haversine_a, radians.
      replace ((lon2 - (lon1 + 360)) * (PI / 180) / 2)
        with (- ((lon1 - lon2) * (PI / 180) / 2 + PI)) by lra.
      replace ((lon2 - lon1) * (PI / 180) / 2)
        with (- ((lon1 - lon2) * (PI / 180) / 2)) by lra.
      rewrite !sin_neg.
      replace ((- sin ((lon1 - lon2) * (PI / 180) / 2 + PI)) ^ 2)
        with (sin ((lon1 - lon2) * (PI / 180) / 2 + PI) ^ 2) by ring.
      rewrite sin_sq_shift_pi. ring. }
    now rewrite E.
  - unfold haversine_km.
    assert (E : haversine_a lat1 lon1 lat2 (lon2 + 360)
                = haversine_a lat1 lon1 lat2 lon2).
    { unfold haversine_a, radians.
      replace ((lon2 + 360 - lon1) * (PI / 180) / 2)
        with ((lon2 - lon1) * (PI / 180) / 2 + PI) by lra.
      now rewrite sin_sq_shift_pi. }
    now rewrite E.
Qed.

Lemma edge_risk_antitone (d1 d2 max_risk_dist_km : R) :
  0 <= d2 -> d2 <= d1 ->
  edge_risk d1 max_risk_dist_km <= edge_risk d2 max_risk_dist_km.
Proof.
  intros H0 Hle.
  pose proof (edge_risk_range d2 max_risk_dist_km H0) as [Hr _].
  unfold edge_risk in *.
  destruct (Rge_dec d1 max_risk_dist_km) as [H1 | H1]; [assumption|].
  destruct (Rge_dec d2 max_risk_dist_km) as [H2 | H2]; [lra|].
  assert (Hpos : 0 < max_risk_dist_km) by lra.
  assert (d2 / max_risk_dist_km <= d1 / max_risk_dist_km); [| lra].
  apply Rmult_le_compat_r; [| assumption].
  left. now apply Rinv_0_lt_compat.
Qed.

(** X6: the risk drawn from a distance never grows with the distance: of
    two distances that are not negative, the greater one has the smaller
    or equal risk, and the risk at distance 0 is 1 for a positive
    threshold. *)
Theorem edge_risk_decreases_with_distance (d1 d2 max_risk_dist_km : R) :
  0 <= d2 -> d2 <= d1 ->
  edge_risk d1 max_risk_dist_km <= edge_risk d2 max_risk_dist_km
  /\ (0 < max_risk_dist_km -> edge_risk 0 max_risk_dist_km = 1).
Proof.
  intros H0 Hle. split; [now apply edge_risk_antitone|].
  intros Hpos. unfold edge_risk.
  destruct (Rge_dec 0 max_risk_dist_km); [lra|]. unfold Rdiv. ring.
Qed.

Lemma edge_risk_decreases_with_distance_witness :
  0 <= 1 / 10 /\ 1 / 10 <= 3 / 10
  /\ edge_risk (3 / 10) (1 / 2) <= edge_risk (1 / 10) (1 / 2)
  /\ (0 < 1 / 2 -> edge_risk 0 (1 / 2) = 1).
Proof.
  split; [lra|]. split; [lra|].
  apply (edge_risk_decreases_with_distance (3 / 10) (1 / 10) (1 / 2)); lra.
Defined.

(** X7: in a graph built with an [alpha] that is not negative no weight is
    negative or exceeds [(1 + alpha)] times the length; an edge whose
    middle is at least [max_risk_dist_km] away from every flood point
    weighs exactly its length, whatever [alpha] is. *)
Theorem edge_weight_bounds (flood_points : list Coord)
  (margin alpha max_risk_dist_km : R) (overpass : Overpass)
  (G : Graph) (e : edge) :
  build_flood_weighted_graph_overpass flood_points margin alpha
    max_risk_dist_km overpass = Ok G ->
  In e (edges G) ->
  exists cu cv,
    lookup (eu e) (nodes G) = Some cu
    /\ lookup (ev e) (nodes G) = Some cv
    /\ (0 <= alpha -> 0 <= weight e <= (1 + alpha) * length e)
    /\ ((forall h, In h flood_points ->
           max_risk_dist_km
           <= haversine_km ((fst cu + fst cv) / 2) ((snd cu + snd cv) / 2)
                (fst h) (snd h)) ->
        weight e = length e).
Proof.
  intros HG He. apply build_inv in HG.
  destruct HG as (Hne & s & w & n & ea & els & _ & HG).
  pose proof (built_length_nonneg _ _ _ _ _ e HG He) as Hl.
  destruct (built_edge _ _ _ _ _ e HG He)
    as (cu & cv & d & Hu & Hv & _ & Hd & Hw).
  exists cu, cv. split; [assumption|]. split; [assumption|].
  pose proof (midpoint_distance_nonneg _ _ _ _ Hd) as Hd0.
  pose proof (edge_risk_range d max_risk_dist_km Hd0) as [Hr0 Hr1].
  split.
  - intros Ha. rewrite Hw.
    pose proof (Rmult_le_pos _ _ Ha Hr0).
    assert (alpha * edge_risk d max_risk_dist_km <= alpha) by nra.
    split; nra.
  - intros Hfar. rewrite Hw. unfold midpoint_distance in Hd.
    destruct (min_distance_to_flood_spec
                ((fst cu + fst cv) / 2) ((snd cu + snd cv) / 2)
                flood_points Hne) as (d' & Hd' & (h & Hh & Eh) & _).
    assert (Hdd : d' = d) by congruence.
    specialize (Hfar h Hh).
    unfold edge_risk. destruct (Rge_dec d max_risk_dist_km); [| lra].
    ring.
Qed.

Lemma edge_weight_bounds_witness :
  build_flood_weighted_graph_overpass sample_hazards (2 / 100) 5 (1 / 2)
    (fun _ _ _ _ => Ok twin_reply) = Ok twin_graph
  /\ In (mkEdge 1 2 0 0) (edges twin_graph)
  /\ exists cu cv,
      lookup (eu (mkEdge 1 2 0 0)) (nodes twin_graph) = Some cu
      /\ lookup (ev (mkEdge 1 2 0 0)) (nodes twin_graph) = Some cv
      /\ (0 <= 5 ->
          0 <= weight (mkEdge 1 2 0 0) <= (1 + 5) * length (mkEdge 1 2 0 0))
      /\ ((forall h, In h sample_hazards ->
             1 / 2
             <= haversine_km ((fst cu + fst cv) / 2) ((snd cu + snd cv) / 2)
                  (fst h) (snd h)) ->
          weight (mkEdge 1 2 0 0) = length (mkEdge 1 2 0 0)).
Proof.
  split; [exact twin_build|]. split; [now left|].
  apply (edge_weight_bounds sample_hazards (2 / 100) 5 (1 / 2)
           (fun _ _ _ _ => Ok twin_reply) twin_graph (mkEdge 1 2 0 0)).
  - exact twin_build.
  - now left.
Defined.

(** ** Hazards and weights *)

Lemma Forall2_same_source {A B C : Type} (P : A -> B -> Prop)
  (Q : A -> C -> Prop) (T : B -> C -> Prop) (l : list A) (l1 : list B)
  (l2 : list C) :
  (forall a b c, In a l -> P a b -> Q a c -> T b c) ->
  Forall2 P l l1 -> Forall2 Q l l2 -> Forall2 T l1 l2.
Proof.
  intros HT H1. revert l2. induction H1 as [| a b l l1 Hab H1 IH];
    intros l2 H2; inversion H2 as [| a' c l' l2' Hac H2']; subst.
  - constructor.
  - constructor.
    + apply (HT a); [now left | assumption | assumption].
    + apply IH; [| assumption].
      intros x y z Hx. apply HT. now right.
Qed.

Lemma min_distance_more_hazards (lat lon : R) (H1 H2 : list Coord)
  (d1 d2 : R) :
  incl H1 H2 ->
  min_distance_to_flood lat lon H1 = Ok d1 ->
  min_distance_to_flood lat lon H2 = Ok d2 ->
  0 <= d2 <= d1.
Proof.
  intros Hincl E1 E2.
  assert (Hne1 : H1 <> []) by (intros ->; discriminate).
  assert (Hne2 : H2 <> []) by (intros ->; discriminate).
  destruct (min_distance_to_flood_spec lat lon H1 Hne1)
    as (x1 & Hx1 & (h & Hh & Eh) & _ & _).
  destruct (min_distance_to_flood_spec lat lon H2 Hne2)
    as (x2 & Hx2 & _ & Hle & Hpos).
  assert (E1' : x1 = d1) by congruence.
  assert (E2' : x2 = d2) by congruence.
  rewrite <- E1', <- E2'. split; [assumption|].
  rewrite Eh. apply Hle. now apply Hincl.
Qed.

(** X8: flood points that are added never make an edge cheaper.  For one
    reply and an [alpha] that is not negative, the graph built for a larger
    set of flood points has the same nodes and the same edges, of the same
    lengths, and every weight is at least what it is for the smaller set. *)
Theorem more_hazards_never_cheaper (hazards1 hazards2 : list Coord)
  (margin alpha max_risk_dist_km : R) (els : list element)
  (G1 G2 : Graph) :
  incl hazards1 hazards2 -> 0 <= alpha ->
  build_flood_weighted_graph_overpass hazards1 margin alpha
    max_risk_dist_km (fun _ _ _ _ => Ok els) = Ok G1 ->
  build_flood_weighted_graph_overpass hazards2 margin alpha
    max_risk_dist_km (fun _ _ _ _ => Ok els) = Ok G2 ->
  nodes G1 = nodes G2
  /\ Forall2
       (fun e1 e2 =>
          end_points e1 = end_points e2 /\ length e1 = length e2
          /\ weight e1 <= weight e2)
       (edges G1) (edges G2).
Proof.
  intros Hincl Ha HG1 HG2.
  assert (Hne1 : hazards1 <> []) by (intros ->; discriminate).
  assert (Hne2 : hazards2 <> []) by (intros ->; discriminate).
  rewrite build_constant_reply in HG1, HG2 by assumption.
  destruct (built_segments _ _ _ _ _ HG1) as [_ [Hok _]].
  apply graph_of_elements_inv in HG1. destruct HG1 as [Hn1 Hall1].
  apply graph_of_elements_inv in HG2. destruct HG2 as [Hn2 Hall2].
  assert (Hn : nodes G1 = nodes G2) by congruence.
  split; [assumption|]. rewrite <- Hn in Hall2.
  refine (Forall2_same_source _ _ _ _ _ _ _ Hall1 Hall2).
  intros s e1 e2 Hs Hw1 Hw2. simpl in Hw1, Hw2.
  rewrite Forall_forall in Hok. destruct (Hok s Hs) as (cu & cv & Hu & Hv & Hl).
  apply weigh_edge_inv in Hw1.
  destruct Hw1 as (cu1 & cv1 & d1 & Hu1 & Hv1 & Hd1 & Hweight1 & Hs1).
  apply weigh_edge_inv in Hw2.
  destruct Hw2 as (cu2 & cv2 & d2 & Hu2 & Hv2 & Hd2 & Hweight2 & Hs2).
  assert (Hends : (eu e1, ev e1, length e1) = (eu e2, ev e2, length e2))
    by congruence.
  injection Hends as Eu Ev El.
  split; [unfold end_points; congruence|]. split; [assumption|].
  rewrite Eu in Hu1. rewrite Ev in Hv1.
  assert (Ecu : cu1 = cu2) by congruence.
  assert (Ecv : cv1 = cv2) by congruence.
  rewrite Ecu, Ecv in Hd1.
  unfold midpoint_distance in Hd1, Hd2.
  destruct (min_distance_more_hazards _ _ _ _ _ _ Hincl Hd1 Hd2) as [H0 Hle].
  pose proof (edge_risk_antitone d1 d2 max_risk_dist_km H0 Hle) as Hr.
  assert (Hlen : 0 <= length e2).
  { rewrite <- El. rewrite <- Hs1 in Hl. simpl in Hl. rewrite Hl.
    pose proof (haversine_km_nonneg (fst cu) (snd cu) (fst cv) (snd cv)).
    lra. }
  rewrite Hweight1, Hweight2, El.
  apply Rmult_le_compat_l; [assumption|].
  assert (alpha * edge_risk d1 max_risk_dist_km
          <= alpha * edge_risk d2 max_risk_dist_km)
    by now apply Rmult_le_compat_l.
  lra.
Qed.

Lemma twin_build_two_hazards :
  build_flood_weighted_graph_overpass [(13, 80); (14, 81)] (2 / 100) 5
    (1 / 2) (fun _ _ _ _ => Ok twin_reply)
  = Ok twin_graph.
Proof.
  rewrite build_constant_reply by discriminate.
  unfold graph_of_elements, twin_reply, twin_graph. simpl.
  unfold midpoint_distance, min_distance_to_flood. simpl.
  rewrite !half_sum_same, !haversine_km_same.
  pose proof (haversine_km_nonneg 13 80 14 81) as Hpos.
  destruct (Rlt_dec (haversine_km 13 80 14 81) 0); [lra|].
  rewrite edge_risk_at_hazard. repeat f_equal; lra.
Qed.

Lemma more_hazards_never_cheaper_witness :
  incl sample_hazards [(13, 80); (14, 81)] /\ 0 <= 5
  /\ build_flood_weighted_graph_overpass sample_hazards (2 / 100) 5 (1 / 2)
       (fun _ _ _ _ => Ok twin_reply) = Ok twin_graph
  /\ build_flood_weighted_graph_overpass [(13, 80); (14, 81)] (2 / 100) 5
       (1 / 2) (fun _ _ _ _ => Ok twin_reply) = Ok twin_graph
  /\ nodes twin_graph = nodes twin_graph
  /\ Forall2
       (fun e1 e2 =>
          end_points e1 = end_points e2 /\ length e1 = length e2
          /\ weight e1 <= weight e2)
       (edges twin_graph) (edges twin_graph).
Proof.
  assert (Hincl : incl sample_hazards [(13, 80); (14, 81)]).
  { intros p [<- | []]. now left. }
  split; [exact Hincl|]. split; [lra|]. split; [exact twin_build|].
  split; [exact twin_build_two_hazards|].
  apply (more_hazards_never_cheaper sample_hazards [(13, 80); (14, 81)]
           (2 / 100) 5 (1 / 2) twin_reply twin_graph twin_graph).
  - exact Hincl.
  - lra.
  - exact twin_build.
  - exact twin_build_two_hazards.
Defined.

Lemma loaded_points_nonempty (matches : list (R * R)) (points : list Coord) :
  load_flood_points_from_kml matches = Ok points -> points <> [].
Proof.
  unfold load_flood_points_from_kml.
  destruct (fromkeys (map (fun m => (snd m, fst m)) matches) [])
    as [| p ps]; [discriminate|].
  intros [= <-]. discriminate.
Qed.


(** ** Routes of [compute_safe_path] *)

Lemma relax_in_unsettled (dist : list (Z * R)) (d : R) (p : list Z)
  (fringe : list entry) (u : Z) (w : R) (x : entry) :
  In x (relax dist d p fringe (u, w)) ->
  In x fringe \/ (x = (u, (d + w, p ++ [u])) /\ mem u dist = false).
Proof.
  unfold relax. destruct (mem u dist) eqn:Em; [tauto|].
  destruct (lookup u fringe) as [[du pu] |].
  - destruct (Rlt_dec (d + w) du); [| tauto].
    intros H. apply in_dict_set in H. tauto.
  - intros H. apply in_dict_set in H. tauto.
Qed.

Lemma relax_all_in_unsettled (dist : list (Z * R)) (d : R) (p : list Z)
  (nbrs : list (Z * R)) (fringe : list entry) (x : entry) :
  In x (fold_left (relax dist d p) nbrs fringe) ->
  In x fringe
  \/ exists u w, x = (u, (d + w, p ++ [u])) /\ mem u dist = false.
Proof.
  revert fringe. induction nbrs as [| [u w] r IH]; intros fringe; simpl.
  - tauto.
  - intros H. apply IH in H. destruct H as [H | H]; [| tauto].
    apply relax_in_unsettled in H. destruct H as [H | H]; [tauto|].
    right. now exists u, w.
Qed.

Lemma step_fringe_simple (G : Graph) (v : Z) (d : R) (p : list Z)
  (dist : list (Z * R)) (fringe fringe' : list entry) :
  fringe_simple dist fringe ->
  pop_min fringe = Some ((v, (d, p)), fringe') ->
  NoDup p
  /\ fringe_simple ((v, d) :: dist)
       (fold_left (relax ((v, d) :: dist) d p) (neighbors G v) fringe').
Proof.
  intros Hs Hpop. apply pop_min_some in Hpop. destruct Hpop as (Hin & _ & ->).
  destruct (Hs v d p Hin) as (Hv & Hnd & q & Hq & Hsettled).
  split; [assumption|]. intros x dx px Hx.
  apply relax_all_in_unsettled in Hx.
  destruct Hx as [Hx | (u & w & [= -> -> ->] & Hm)].
  - apply in_dict_del in Hx. destruct Hx as [Hx Hne]. simpl in Hne.
    destruct (Hs x dx px Hx) as (Hx' & Hndx & qx & Hqx & Hsx).
    split; [| split; [assumption|]].
    + simpl. intros [E | E]; [congruence | contradiction].
    + exists qx. split; [assumption|]. intros y Hy. simpl. right.
      now apply Hsx.
  - apply mem_false_iff in Hm.
    assert (Hp : forall y, In y p -> In y (keys ((v, d) :: dist))).
    { intros y Hy. rewrite Hq in Hy. apply in_app_or in Hy. simpl.
      destruct Hy as [Hy | [<- | []]]; [right; now apply Hsettled | now left]. }
    split; [assumption|]. split.
    + apply NoDup_rev in Hnd. rewrite <- (rev_involutive (p ++ [u])).
      apply NoDup_rev. rewrite rev_app_distr. simpl.
      constructor; [| assumption]. rewrite <- in_rev.
      intros Hu. apply Hm. now apply Hp.
    + exists p. split; [reflexivity | assumption].
Qed.

Lemma dijkstra_loop_simple (G : Graph) (t : Z) (fuel : nat)
  (dist : list (Z * R)) (fringe : list entry) (p : list Z) :
  fringe_simple dist fringe ->
  dijkstra_loop fuel G t dist fringe = Some (Ok p) -> NoDup p.
Proof.
  revert dist fringe. induction fuel as [| fuel IH]; intros dist fringe Hs;
    simpl; [discriminate|].
  destruct (pop_min fringe) as [[[v [d p']] fringe'] |] eqn:Hpop;
    [| discriminate].
  destruct (step_fringe_simple G v d p' dist fringe fringe' Hs Hpop)
    as [Hnd Hnext].
  destruct (Z.eqb v t).
  - now intros [= <-].
  - now apply IH.
Qed.

Lemma shortest_path_simple (G : Graph) (s t : Z) (fuel : nat) (p : list Z) :
  shortest_path_fuel fuel G s t = Some (Ok p) -> NoDup p.
Proof.
  unfold shortest_path_fuel.
  destruct (mem s (nodes G)); simpl; [| discriminate].
  destruct (mem t (nodes G)); simpl; [| discriminate].
  apply dijkstra_loop_simple.
  intros v d q [[= <- <- <-] | []]. split; [intros []|].
  split; [constructor; [intros [] | constructor]|].
  exists []. split; [reflexivity | intros x []].
Qed.

Lemma compute_safe_path_inv (G : Graph)
  (start_lat start_lon end_lat end_lon : R) (route : list Coord) :
  nodes G <> [] ->
  compute_safe_path G start_lat start_lon end_lat end_lon
  = Some (Ok route) ->
  exists s t path c,
    find_nearest_node G start_lat start_lon = Some s
    /\ find_nearest_node G end_lat end_lon = Some t
    /\ shortest_path G s t = Some (Ok path)
    /\ walk G s path t c
    /\ positions G path route.
Proof.
  intros Hne H.
  destruct (find_nearest_node_some G start_lat start_lon Hne)
    as (i & s & cs & Hs & _).
  destruct (find_nearest_node_some G end_lat end_lon Hne)
    as (j & t & ct & Ht & _).
  rewrite (compute_safe_path_found G s t) in H by assumption.
  destruct (shortest_path G s t) as [[path | e] |] eqn:Hsp; try discriminate.
  injection H as Hroute.
  destruct (shortest_path_walk G s t _ path Hsp) as (c & Hw).
  exists s, t, path, c. repeat split; try assumption.
  now apply positions_of_mapM.
Qed.

(** X10: a route that [compute_safe_path] returns on a graph with nodes is
    not empty; it lists the positions of a node sequence that begins at the
    node nearest to the start point, ends at the node nearest to the end
    point and holds no node twice. *)
Theorem route_is_simple_between_nearest (G : Graph)
  (start_lat start_lon end_lat end_lon : R) (route : list Coord) :
  nodes G <> [] ->
  compute_safe_path G start_lat start_lon end_lat end_lon
  = Some (Ok route) ->
  exists s t path,
    find_nearest_node G start_lat start_lon = Some s
    /\ find_nearest_node G end_lat end_lon = Some t
    /\ positions G path route
    /\ route <> []
    /\ NoDup path
    /\ nth_error path 0 = Some s
    /\ nth_error path (List.length path - 1) = Some t.
Proof.
  intros Hne H.
  destruct (compute_safe_path_inv G _ _ _ _ route Hne H)
    as (s & t & path & c & Hs & Ht & Hsp & Hw & Hpos).
  destruct (walk_ends G s t path c Hw) as (Hfirst & Hlast & Hpath).
  exists s, t, path. repeat split; try assumption.
  - intros ->. apply positions_length in Hpos. destruct path; [congruence|].
    discriminate.
  - unfold shortest_path in Hsp. now apply shortest_path_simple in Hsp.
Qed.

Lemma route_is_simple_between_nearest_witness :
  nodes abc_graph <> []
  /\ compute_safe_path abc_graph 13 79 13 81
     = Some (Ok [(13, 79); (13, 80); (13, 81)])
  /\ exists s t path,
      find_nearest_node abc_graph 13 79 = Some s
      /\ find_nearest_node abc_graph 13 81 = Some t
      /\ positions abc_graph path [(13, 79); (13, 80); (13, 81)]
      /\ [(13, 79); (13, 80); (13, 81)] <> []
      /\ NoDup path
      /\ nth_error path 0 = Some s
      /\ nth_error path (List.length path - 1) = Some t.
Proof.
  split; [discriminate|]. split; [exact abc_route|].
  apply (route_is_simple_between_nearest abc_graph 13 79 13 81
           [(13, 79); (13, 80); (13, 81)]).
  - discriminate.
  - exact abc_route.
Defined.


(** ** Route on the map *)

Lemma draw_map_some (coords : list Coord) :
  coords <> [] ->
  exists c first last,
    nth_error coords (Nat.div (List.length coords) 2) = Some c
    /\ nth_error coords 0 = Some first
    /\ nth_error coords (List.length coords - 1) = Some last
    /\ draw_map coords = Some (mkMap c 14 coords first last).
Proof.
  intros Hne. unfold draw_map, item.
  assert (Hlen : (0 < List.length coords)%nat).
  { destruct coords; [congruence | simpl; lia]. }
  assert (Hmid : (Nat.div (List.length coords) 2 < List.length coords)%nat)
    by (apply Nat.div_lt; lia).
  destruct (nth_error coords (Nat.div (List.length coords) 2)) as [c |] eqn:Ec;
    [| apply nth_error_None in Ec; lia].
  destruct (nth_error coords 0) as [first |] eqn:Ef;
    [| apply nth_error_None in Ef; lia].
  destruct (nth_error coords (List.length coords - 1)) as [last |] eqn:El;
    [| apply nth_error_None in El; lia].
  now exists c, first, last.
Qed.

(** X12: [draw_map] fails, on a subscript out of range, exactly for the
    empty route.  For a route that [compute_safe_path] returns on a graph
    with nodes it succeeds: the line drawn is the route, the start marker
    stands at the node nearest to the start point, the destination marker
    at the node nearest to the end point, and the map is centred on a
    position of the route. *)
Theorem draw_map_of_route (G : Graph)
  (start_lat start_lon end_lat end_lon : R) (route : list Coord) :
  nodes G <> [] ->
  compute_safe_path G start_lat start_lon end_lat end_lon
  = Some (Ok route) ->
  (forall coords, draw_map coords = None <-> coords = [])
  /\ exists m s t,
      draw_map route = Some m
      /\ polyline m = route
      /\ In (location m) route
      /\ find_nearest_node G start_lat start_lon = Some s
      /\ find_nearest_node G end_lat end_lon = Some t
      /\ lookup s (nodes G) = Some (start_marker m)
      /\ lookup t (nodes G) = Some (destination_marker m).
Proof.
  intros Hne H. split.
  - intros coords. split.
    + intros Hnone. destruct coords as [| c r]; [reflexivity|].
      destruct (draw_map_some (c :: r)) as (x & f & l & _ & _ & _ & E);
        [discriminate | congruence].
    + now intros ->.
  - destruct (compute_safe_path_inv G _ _ _ _ route Hne H)
      as (s & t & path & c & Hs & Ht & _ & Hw & Hpos).
    destruct (walk_ends G s t path c Hw) as (Hfirst & Hlast & Hpath).
    assert (Hroute : route <> []).
    { intros ->. apply positions_length in Hpos.
      destruct path; [congruence | discriminate]. }
    destruct (draw_map_some route Hroute)
      as (x & first & last & Hx & Hf & Hl & E).
    exists (mkMap x 14 route first last), s, t. simpl.
    split; [assumption|]. split; [reflexivity|].
    split; [now apply nth_error_In in Hx|].
    split; [assumption|]. split; [assumption|]. split.
    + rewrite <- (positions_nth G path route 0 s Hpos Hfirst). assumption.
    + rewrite <- (positions_nth G path route _ t Hpos Hlast).
      now rewrite <- (positions_length G path route Hpos).
Qed.

Lemma draw_map_of_route_witness :
  nodes abc_graph <> []
  /\ compute_safe_path abc_graph 13 79 13 81
     = Some (Ok [(13, 79); (13, 80); (13, 81)])
  /\ (forall coords, draw_map coords = None <-> coords = [])
  /\ exists m s t,
      draw_map [(13, 79); (13, 80); (13, 81)] = Some m
      /\ polyline m = [(13, 79); (13, 80); (13, 81)]
      /\ In (location m) [(13, 79); (13, 80); (13, 81)]
      /\ find_nearest_node abc_graph 13 79 = Some s
      /\ find_nearest_node abc_graph 13 81 = Some t
      /\ lookup s (nodes abc_graph) = Some (start_marker m)
      /\ lookup t (nodes abc_graph) = Some (destination_marker m).
Proof.
  split; [discriminate|]. split; [exact abc_route|].
  apply (draw_map_of_route abc_graph 13 79 13 81
           [(13, 79); (13, 80); (13, 81)]).
  - discriminate.
  - exact abc_route.
Defined.

(** ** Zone risk score *)

Lemma round_half_even_near (x : R) :
  IZR (round_half_even x) - 1 / 2 <= x <= IZR (round_half_even x) + 1 / 2.
Proof.
  unfold round_half_even. pose proof (Zfloor_bound x) as [Hlo Hhi].
  destruct (Rlt_dec (x - IZR (Zfloor x)) (1 / 2)) as [H1 | H1]; [lra|].
  destruct (Rlt_dec (1 / 2) (x - IZR (Zfloor x))) as [H2 | H2].
  - rewrite plus_IZR. lra.
  - destruct (Z.even (Zfloor x)); [lra|]. rewrite plus_IZR. lra.
Qed.

Lemma round_half_even_IZR (n : Z) : round_half_even (IZR n) = n.
Proof.
  unfold round_half_even. rewrite ZfloorZ.
  destruct (Rlt_dec (IZR n - IZR n) (1 / 2)); [reflexivity | lra].
Qed.

Lemma round_half_even_mono (x y : R) :
  x <= y -> (round_half_even x <= round_half_even y)%Z.
Proof.
  intros Hxy. destruct (Req_dec_T x y) as [-> | Hne]; [lia|].
  destruct (Z_le_gt_dec (round_half_even x) (round_half_even y))
    as [Hle | Hgt]; [assumption|]. exfalso.
  pose proof (round_half_even_near x) as [Hx _].
  pose proof (round_half_even_near y) as [_ Hy].
  assert (Hz : (round_half_even y + 1 <= round_half_even x)%Z) by lia.
  apply IZR_le in Hz. rewrite plus_IZR in Hz. lra.
Qed.

Lemma round2_mono (x y : R) : x <= y -> round2 x <= round2 y.
Proof.
  intros Hxy. unfold round2.
  assert (H : (round_half_even (x * 100) <= round_half_even (y * 100))%Z)
    by (apply round_half_even_mono; lra).
  apply IZR_le in H. lra.
Qed.

Lemma round2_grid (k : Z) : round2 (IZR k / 100) = IZR k / 100.
Proof.
  unfold round2. replace (IZR k / 100 * 100) with (IZR k) by lra.
  now rewrite round_half_even_IZR.
Qed.

(** The clamp [min(max(x, 0.0), 1.0)]. *)
Lemma clamp_spec (x : R) :
  0 <= min2 (max2 x 0) 1 <= 1
  /\ (x <= 0 -> min2 (max2 x 0) 1 = 0)
  /\ (1 <= x -> min2 (max2 x 0) 1 = 1)
  /\ (0 <= x <= 1 -> min2 (max2 x 0) 1 = x).
Proof.
  unfold min2, max2.
  destruct (Rlt_dec x 0) as [H0 | H0];
    [destruct (Rlt_dec 1 0) | destruct (Rlt_dec 1 x)]; repeat split; lra.
Qed.

Lemma clamp_mono (x y : R) :
  x <= y -> min2 (max2 x 0) 1 <= min2 (max2 y 0) 1.
Proof.
  intros Hxy. unfold min2, max2.
  destruct (Rlt_dec x 0), (Rlt_dec y 0);
    repeat match goal with
           | |- context [Rlt_dec ?a ?b] => destruct (Rlt_dec a b)
           end; lra.
Qed.

Lemma risk_score_raw_range (depth rain : R) :
  0 <= (0.6 * min2 (max2 (rain / 200) 0) 1
        + 0.4 * min2 (max2 (depth / 60) 0) 1) * 10 <= 10.
Proof.
  destruct (clamp_spec (rain / 200)) as [Hr _].
  destruct (clamp_spec (depth / 60)) as [Hd _]. lra.
Qed.

(** X13: the risk score of a zone lies between 0 and 10 and has at most
    two decimals, whatever the depth and the predicted rain are. *)
Theorem risk_score_range (avg_depth_in : option R) (pred_rain_mm : R) :
  0 <= Heatmap.compute_risk_score avg_depth_in pred_rain_mm <= 10
  /\ exists k : Z,
      (0 <= k <= 1000)%Z
      /\ Heatmap.compute_risk_score avg_depth_in pred_rain_mm = IZR k / 100.
Proof.
  unfold Heatmap.compute_risk_score.
  set (depth := match avg_depth_in with Some d => d | None => 0 end).
  pose proof (risk_score_raw_range depth pred_rain_mm) as [Hlo Hhi].
  set (raw10 := (0.6 * min2 (max2 (pred_rain_mm / 200) 0) 1
                 + 0.4 * min2 (max2 (depth / 60) 0) 1) * 10) in *.
  assert (H0 : (0 <= round_half_even (raw10 * 100))%Z).
  { rewrite <- (round_half_even_IZR 0). apply round_half_even_mono. lra. }
  assert (H1 : (round_half_even (raw10 * 100) <= 1000)%Z).
  { rewrite <- (round_half_even_IZR 1000). apply round_half_even_mono. lra. }
  split.
  - unfold round2. apply IZR_le in H0, H1. lra.
  - exists (round_half_even (raw10 * 100)). split; [lia | reflexivity].
Qed.

(** X14: the risk score never falls when the depth or the predicted rain
    grows. *)
Theorem risk_score_monotone (depth1 depth2 rain1 rain2 : R) :
  depth1 <= depth2 -> rain1 <= rain2 ->
  Heatmap.compute_risk_score (Some depth1) rain1
  <= Heatmap.compute_risk_score (Some depth2) rain2.
Proof.
  intros Hd Hr. unfold Heatmap.compute_risk_score. apply round2_mono.
  assert (H1 : min2 (max2 (rain1 / 200) 0) 1 <= min2 (max2 (rain2 / 200) 0) 1)
    by (apply clamp_mono; lra).
  assert (H2 : min2 (max2 (depth1 / 60) 0) 1
               <= min2 (max2 (depth2 / 60) 0) 1)
    by (apply clamp_mono; lra).
  lra.
Qed.

Lemma risk_score_monotone_witness :
  10 <= 30 /\ 50 <= 120
  /\ Heatmap.compute_risk_score (Some 10) 50
     <= Heatmap.compute_risk_score (Some 30) 120.
Proof.
  split; [lra|]. split; [lra|].
  apply (risk_score_monotone 10 30 50 120); lra.
Defined.

(** X15: the colour of a zone follows its score, red from 7 on, orange from
    4 on, green below.  Rain alone or depth alone never makes a zone red:
    without predicted rain the score is at most 4 and without depth at most
    6; a red zone has more than 99 mm of predicted rain and more than 14
    inches of depth, and a zone with at least 200 mm and 60 inches has the
    score 10 and is red. *)
Theorem risk_color_needs_rain_and_depth (depth rain : R) :
  (rain <= 0 ->
   Heatmap.compute_risk_score (Some depth) rain <= 4
   /\ Heatmap.risk_to_color (Heatmap.compute_risk_score (Some depth) rain)
      <> "red"%string)
  /\ (depth <= 0 ->
      Heatmap.compute_risk_score (Some depth) rain <= 6
      /\ Heatmap.risk_to_color (Heatmap.compute_risk_score (Some depth) rain)
         <> "red"%string)
  /\ (Heatmap.risk_to_color (Heatmap.compute_risk_score (Some depth) rain)
      = "red"%string -> 99 < rain /\ 14 < depth)
  /\ (200 <= rain -> 60 <= depth ->
      Heatmap.compute_risk_score (Some depth) rain = 10
      /\ Heatmap.risk_to_color (Heatmap.compute_risk_score (Some depth) rain)
         = "red"%string).
Proof.
  unfold Heatmap.compute_risk_score.
  destruct (clamp_spec (rain / 200)) as (Hr & Hr0 & Hr1 & Hrx).
  destruct (clamp_spec (depth / 60)) as (Hd & Hd0 & Hd1 & Hdx).
  set (rn := min2 (max2 (rain / 200) 0) 1) in *.
  set (dn := min2 (max2 (depth / 60) 0) 1) in *.
  assert (Hcolor : forall s, s < 7 -> Heatmap.risk_to_color s <> "red"%string).
  { intros s Hs. unfold Heatmap.risk_to_color.
    destruct (Rge_dec s 7); [lra|]. destruct (Rge_dec s 4); discriminate. }
  assert (Hred : forall s, Heatmap.risk_to_color s = "red"%string -> 7 <= s).
  { intros s. unfold Heatmap.risk_to_color.
    destruct (Rge_dec s 7); [lra|]. destruct (Rge_dec s 4); discriminate. }
  split; [| split; [| split]].
  - intros Hrain. assert (E : rn = 0) by (apply Hr0; lra).
    assert (Hle : round2 ((0.6 * rn + 0.4 * dn) * 10) <= 4).
    { replace 4 with (IZR 400 / 100) by lra. rewrite <- (round2_grid 400).
      apply round2_mono. lra. }
    split; [assumption|]. apply Hcolor. lra.
  - intros Hdepth. assert (E : dn = 0) by (apply Hd0; lra).
    assert (Hle : round2 ((0.6 * rn + 0.4 * dn) * 10) <= 6).
    { replace 6 with (IZR 600 / 100) by lra. rewrite <- (round2_grid 600).
      apply round2_mono. lra. }
    split; [assumption|]. apply Hcolor. lra.
  - intros Hcol. apply Hred in Hcol.
    assert (Hraw : 6.99 < (0.6 * rn + 0.4 * dn) * 10).
    { destruct (Rlt_dec 6.99 ((0.6 * rn + 0.4 * dn) * 10)) as [H | H];
        [assumption|]. exfalso.
      assert (Hle : round2 ((0.6 * rn + 0.4 * dn) * 10) <= IZR 699 / 100).
      { rewrite <- (round2_grid 699). apply round2_mono. lra. }
      lra. }
    split.
    + destruct (Rle_dec rain 99) as [H | H]; [| lra]. exfalso.
      assert (rn <= 0.495).
      { destruct (Rle_dec (rain / 200) 0) as [H0 | H0].
        - rewrite (Hr0 H0). lra.
        - rewrite Hrx by lra. lra. }
      lra.
    + destruct (Rle_dec depth 14) as [H | H]; [| lra]. exfalso.
      assert (dn <= 0.24).
      { destruct (Rle_dec (depth / 60) 0) as [H0 | H0].
        - rewrite (Hd0 H0). lra.
        - rewrite Hdx by lra. lra. }
      lra.
  - intros Hrain Hdepth.
    assert (Er : rn = 1) by (apply Hr1; lra).
    assert (Ed : dn = 1) by (apply Hd1; lra).
    assert (E : round2 ((0.6 * rn + 0.4 * dn) * 10) = 10).
    { rewrite Er, Ed. replace ((0.6 * 1 + 0.4 * 1) * 10) with (IZR 1000 / 100)
        by lra. rewrite round2_grid. lra. }
    split; [assumption|]. rewrite E. unfold Heatmap.risk_to_color.
    destruct (Rge_dec 10 7); [reflexivity | lra].
Qed.

(** ** Input of the rain model *)

Lemma slice_from_last {A : Type} (k : Z) (l : list A) :
  (0 < k)%Z ->
  slice_from (- k) l = skipn (List.length l - Z.to_nat k) l.
Proof.
  intros Hk. unfold slice_from.
  destruct (Z.ltb_spec (- k) 0) as [_ | H]; [| lia].
  f_equal. lia.
Qed.

Lemma slice_from_zero {A : Type} (l : list A) : slice_from (- 0) l = l.
Proof. reflexivity. Qed.

Lemma reshape_fits (x : list R) (seq_len : Z) :
  (1 <= seq_len)%Z -> Z.of_nat (List.length x) = seq_len ->
  Heatmap.reshape_1_n_1 x seq_len = Return x.
Proof.
  intros Hlen Hx. unfold Heatmap.reshape_1_n_1.
  destruct (Z.eqb_spec seq_len (-1)); [lia|].
  destruct (Z.ltb_spec seq_len 0); [lia|].
  now rewrite Hx, Z.eqb_refl.
Qed.

Lemma build_lstm_input_returns (rain_series : list R) (seq_len : Z) :
  (1 <= seq_len)%Z ->
  exists x,
    Heatmap.build_lstm_input rain_series seq_len = Return x
    /\ Z.of_nat (List.length x) = seq_len
    /\ x = repeat 0 (Z.to_nat seq_len - List.length rain_series)
           ++ skipn (List.length rain_series - Z.to_nat seq_len) rain_series.
Proof.
  intros Hlen. unfold Heatmap.build_lstm_input.
  destruct (Z.ltb_spec (Z.of_nat (List.length rain_series)) seq_len)
    as [Hshort | Hlong].
  - replace (List.length rain_series - Z.to_nat seq_len)%nat with 0%nat
      by lia.
    replace (Z.to_nat (seq_len - Z.of_nat (List.length rain_series)))
      with (Z.to_nat seq_len - List.length rain_series)%nat by lia.
    simpl skipn.
    eexists. split; [apply reshape_fits; [assumption|] | split; [| reflexivity]];
      rewrite length_app, repeat_length; lia.
  - replace (Z.to_nat seq_len - List.length rain_series)%nat with 0%nat
      by lia.
    rewrite slice_from_last by lia. simpl repeat. simpl app.
    eexists. split; [apply reshape_fits; [assumption|] | split; [| reflexivity]];
      rewrite length_skipn; lia.
Qed.

(** X16: for a sequence length of at least 1 the input of the model is
    built without failure and has exactly that many values: the newest
    values of the series, as many as fit, in their order, after as many
    zeros as are missing.  A series of exactly that length is passed
    unchanged. *)
Theorem lstm_input_shape (rain_series : list R) (seq_len : Z) :
  (1 <= seq_len)%Z ->
  (exists x,
      Heatmap.build_lstm_input rain_series seq_len = Return x
      /\ Z.of_nat (List.length x) = seq_len
      /\ x = repeat 0 (Z.to_nat seq_len - List.length rain_series)
             ++ skipn (List.length rain_series - Z.to_nat seq_len)
                  rain_series)
  /\ (Z.of_nat (List.length rain_series) = seq_len ->
      Heatmap.build_lstm_input rain_series seq_len = Return rain_series).
Proof.
  intros Hlen. split; [now apply build_lstm_input_returns|].
  intros Hsame.
  destruct (build_lstm_input_returns rain_series seq_len Hlen)
    as (x & Hx & _ & Ex).
  rewrite Hx. f_equal. rewrite Ex.
  replace (Z.to_nat seq_len - List.length rain_series)%nat with 0%nat by lia.
  replace (List.length rain_series - Z.to_nat seq_len)%nat with 0%nat by lia.
  reflexivity.
Qed.

Lemma lstm_input_shape_witness :
  (1 <= 3)%Z
  /\ (exists x,
         Heatmap.build_lstm_input [5; 7] 3 = Return x
         /\ Z.of_nat (List.length x) = 3%Z
         /\ x = repeat 0 (Z.to_nat 3 - List.length [5; 7])
                ++ skipn (List.length [5; 7] - Z.to_nat 3) [5; 7])
  /\ (Z.of_nat (List.length [5; 7]) = 3%Z ->
      Heatmap.build_lstm_input [5; 7] 3 = Return [5; 7]).
Proof.
  split; [lia|]. apply (lstm_input_shape [5; 7] 3). lia.
Defined.

(** X17: with the sequence length 0 a series that is not empty is kept
    whole by the slice [arr[-0:]], and the reshape raises [ValueError].  A
    negative sequence length never raises: the slice drops the oldest
    [- seq_len] values, no zero is put in front, and the reshape takes the
    negative dimension as the unknown one, so the input of the model has
    whatever length is left. *)
Theorem lstm_input_degenerate_length (rain_series : list R) :
  (rain_series <> [] ->
   Heatmap.build_lstm_input rain_series 0 = Throw Py.ValueError)
  /\ Heatmap.build_lstm_input [] 0 = Return []
  /\ (forall seq_len, (seq_len < 0)%Z ->
        Heatmap.build_lstm_input rain_series seq_len
        = Return (skipn (Z.to_nat (- seq_len)) rain_series)).
Proof.
  split; [| split].
  - intros Hne. unfold Heatmap.build_lstm_input.
    destruct (Z.ltb_spec (Z.of_nat (List.length rain_series)) 0); [lia|].
    rewrite slice_from_zero. unfold Heatmap.reshape_1_n_1. simpl.
    destruct rain_series as [| a r]; [congruence|]. reflexivity.
  - reflexivity.
  - intros seq_len Hneg. unfold Heatmap.build_lstm_input.
    destruct (Z.ltb_spec (Z.of_nat (List.length rain_series)) seq_len);
      [lia|].
    unfold Heatmap.reshape_1_n_1.
    destruct (Z.ltb_spec seq_len 0); [| lia].
    unfold slice_from.
    destruct (Z.ltb_spec (- seq_len) 0); [lia | reflexivity].
Qed.

(** ** Rain prediction *)

Lemma max2_nonneg (x : R) : 0 <= max2 x 0.
Proof. unfold max2. destruct (Rlt_dec x 0); lra. Qed.

(** X18: for a sequence length of at least 1 and a series that the weather
    service delivers, the prediction is returned and is never negative; it
    is 0 for an empty series, whatever the model is, and otherwise the
    output of the model, raised to 0 when negative, on an input of exactly
    [seq_len] values.  A failure of the service is passed on. *)
Theorem predicted_rain_not_negative (model : list R -> R)
  (fetch : R -> R -> Z -> outcome Py.exception (list R))
  (lat lon : R) (seq_len : Z) :
  (1 <= seq_len)%Z ->
  (forall series,
      fetch lat lon seq_len = Return series ->
      exists p,
        Heatmap.predict_next_rain model fetch lat lon seq_len = Return p
        /\ 0 <= p
        /\ (series = [] -> p = 0)
        /\ (series <> [] ->
            exists x,
              Heatmap.build_lstm_input series seq_len = Return x
              /\ Z.of_nat (List.length x) = seq_len
              /\ p = max2 (model x) 0
              /\ model x <= p))
  /\ (forall e,
         fetch lat lon seq_len = Throw e ->
         Heatmap.predict_next_rain model fetch lat lon seq_len = Throw e).
Proof.
  intros Hlen. split.
  - intros series Hfetch. unfold Heatmap.predict_next_rain. rewrite Hfetch.
    destruct series as [| a r].
    + exists 0. split; [reflexivity|]. split; [lra|]. split; [reflexivity|].
      congruence.
    + destruct (build_lstm_input_returns (a :: r) seq_len Hlen)
        as (x & Hx & Hlx & _).
      rewrite Hx. exists (max2 (model x) 0). split; [reflexivity|].
      split; [apply max2_nonneg|]. split; [discriminate|].
      intros _. exists x. split; [reflexivity|]. split; [assumption|].
      split; [reflexivity|]. unfold max2. destruct (Rlt_dec (model x) 0); lra.
  - intros e Hfetch. unfold Heatmap.predict_next_rain. now rewrite Hfetch.
Qed.

Lemma predicted_rain_not_negative_witness :
  (1 <= 24)%Z
  /\ (forall series,
         (fun (_ _ : R) (_ : Z) => Return [2; 3]) 13 80 24%Z
         = @Return Py.exception _ series ->
         exists p,
           Heatmap.predict_next_rain (fun x => -1)
             (fun _ _ _ => Return [2; 3]) 13 80 24 = Return p
           /\ 0 <= p
           /\ (series = [] -> p = 0)
           /\ (series <> [] ->
               exists x,
                 Heatmap.build_lstm_input series 24 = Return x
                 /\ Z.of_nat (List.length x) = 24%Z
                 /\ p = max2 ((fun _ => -1) x) 0
                 /\ (fun _ => -1) x <= p))
  /\ (forall e,
         (fun (_ _ : R) (_ : Z) => Return [2; 3]) 13 80 24%Z
         = @Throw Py.exception (list R) e ->
         Heatmap.predict_next_rain (fun x => -1)
           (fun _ _ _ => Return [2; 3]) 13 80 24 = Throw e).
Proof.
  split; [lia|].
  apply (predicted_rain_not_negative (fun _ => -1)
           (fun _ _ _ => Return [2; 3]) 13 80 24).
  lia.
Defined.

(** ** The rain series of the weather service *)

Lemma ascii_compare_lt_trans (a b c : Ascii.ascii) :
  Ascii.compare a b = Lt -> Ascii.compare b c = Lt -> Ascii.compare a c = Lt.
Proof.
  unfold Ascii.compare. rewrite !N.compare_lt_iff. lia.
Qed.

Lemma string_compare_lt_trans (s1 : string) :
  forall s2 s3,
    String.compare s1 s2 = Lt -> String.compare s2 s3 = Lt ->
    String.compare s1 s3 = Lt.
Proof.
  induction s1 as [| a s1 IH]; intros [| b s2] [| c s3]; simpl;
    try congruence.
  destruct (Ascii.compare a b) eqn:Eab; try discriminate.
  - apply Ascii.compare_eq_iff in Eab. subst b.
    destruct (Ascii.compare a c); try congruence. now apply IH.
  - intros _. destruct (Ascii.compare b c) eqn:Ebc; try discriminate.
    + apply Ascii.compare_eq_iff in Ebc. subst c. now rewrite Eab.
    + intros _. now rewrite (ascii_compare_lt_trans a b c).
Qed.

Lemma string_ltb_trans (s1 s2 s3 : string) :
  String.ltb s1 s2 = true -> String.ltb s2 s3 = true ->
  String.ltb s1 s3 = true.
Proof.
  unfold String.ltb. intros H12 H23.
  destruct (String.compare s1 s2) eqn:E12; try discriminate.
  destruct (String.compare s2 s3) eqn:E23; try discriminate.
  now rewrite (string_compare_lt_trans s1 s2 s3).
Qed.

Lemma string_ltb_asym (s1 s2 : string) :
  String.ltb s1 s2 = true -> String.ltb s2 s1 = false.
Proof.
  unfold String.ltb. rewrite (String.compare_antisym s1 s2).
  now destruct (String.compare s2 s1).
Qed.

Lemma insert_sorted_perm (x : sample) (l : list sample) :
  Permutation (insert_sorted x l) (x :: l).
Proof.
  induction l as [| y r IH]; simpl; [reflexivity|].
  destruct (String.ltb (fst x) (fst y)); [reflexivity|].
  rewrite IH. apply perm_swap.
Qed.

Lemma insert_sorted_sorted (x : sample) (l : list sample) :
  StronglySorted not_later l -> StronglySorted not_later (insert_sorted x l).
Proof.
  induction 1 as [| y r Hr IH Hy]; simpl.
  - constructor; constructor.
  - destruct (String.ltb (fst x) (fst y)) eqn:Exy.
    + constructor; [now constructor|]. constructor.
      * now apply string_ltb_asym.
      * rewrite Forall_forall in *. intros z Hz. unfold not_later.
        destruct (String.ltb (fst z) (fst x)) eqn:Ezx; [| reflexivity].
        rewrite <- (Hy z Hz). symmetry.
        now apply string_ltb_trans with (fst x).
    + constructor; [assumption|].
      rewrite Forall_forall in *. intros z Hz.
      apply (Permutation_in _ (insert_sorted_perm x r)) in Hz.
      destruct Hz as [<- | Hz]; [exact Exy | now apply Hy].
Qed.

Lemma sort_by_time_from (l acc : list sample) :
  StronglySorted not_later acc ->
  StronglySorted not_later (fold_left (fun acc x => insert_sorted x acc) l acc)
  /\ Permutation (fold_left (fun acc x => insert_sorted x acc) l acc)
       (l ++ acc).
Proof.
  revert acc. induction l as [| x l IH]; intros acc Hacc; simpl.
  - now split.
  - destruct (IH (insert_sorted x acc) (insert_sorted_sorted x acc Hacc))
      as [Hs Hp].
    split; [assumption|]. rewrite Hp.
    rewrite (insert_sorted_perm x acc). symmetry.
    apply Permutation_middle.
Qed.

Lemma sort_by_time_sorted (l : list sample) :
  StronglySorted not_later (sort_by_time l).
Proof. apply sort_by_time_from. constructor. Qed.

Lemma sort_by_time_perm (l : list sample) :
  Permutation (sort_by_time l) l.
Proof.
  unfold sort_by_time.
  destruct (sort_by_time_from l [] (SSorted_nil _)) as [_ Hp].
  now rewrite app_nil_r in Hp.
Qed.

Lemma floats_returns (l : list (option R)) (rs : list R) :
  Heatmap.floats l = Return rs <-> l = map Some rs.
Proof.
  revert rs. induction l as [| [r |] t IH]; intros rs; simpl.
  - split; intros H.
    + injection H as <-. reflexivity.
    + destruct rs; [reflexivity | discriminate].
  - destruct (Heatmap.floats t) as [ts | e] eqn:Et.
    + split; intros H.
      * injection H as <-. simpl. f_equal. now apply IH.
      * destruct rs as [| r' rs]; [discriminate|]. simpl in H.
        injection H as -> Ht. apply IH in Ht. congruence.
    + split; intros H; [discriminate|].
      destruct rs as [| r' rs]; [discriminate|]. simpl in H.
      injection H as _ Ht. apply IH in Ht. discriminate.
  - split; intros H; [discriminate|]. destruct rs; discriminate.
Qed.

Lemma floats_total (l : list (option R)) :
  (Forall (fun v => v <> None) l -> exists rs, Heatmap.floats l = Return rs)
  /\ (Exists (fun v => v = None) l -> Heatmap.floats l = Throw Py.TypeError).
Proof.
  induction l as [| [r |] t [IHa IHb]]; simpl.
  - split; [now exists [] | intros H; inversion H].
  - split.
    + intros H. inversion H as [| ? ? _ Ht]; subst.
      destruct (IHa Ht) as [rs ->]. now exists (r :: rs).
    + intros H. inversion H as [? ? Hr | ? ? Ht]; subst; [discriminate|].
      now rewrite (IHb Ht).
  - split; [| reflexivity].
    intros H. inversion H as [| ? ? Hn _]; subst. congruence.
Qed.

(** The slice [l[-k:]] drops a prefix of [l], of a length that depends on
    the sign of [k]. *)
Lemma slice_from_neg_split {A : Type} (k : Z) (l : list A) :
  exists m,
    slice_from (- k) l = skipn m l
    /\ (m <= List.length l)%nat
    /\ ((1 <= k)%Z -> m = (List.length l - Z.to_nat k)%nat)
    /\ ((k <= 0)%Z -> m = Nat.min (Z.to_nat (- k)) (List.length l)).
Proof.
  unfold slice_from.
  destruct (Z.ltb_spec (- k) 0) as [Hneg | Hpos].
  - exists (Z.to_nat (Z.max 0 (Z.of_nat (List.length l) + - k))).
    split; [reflexivity|]. split; [lia|]. split; lia.
  - exists (Nat.min (Z.to_nat (- k)) (List.length l)).
    split; [| split; [lia | split; [lia | reflexivity]]].
    destruct (Nat.le_ge_cases (Z.to_nat (- k)) (List.length l)) as [H | H].
    + now rewrite Nat.min_l.
    + rewrite Nat.min_r by assumption.
      rewrite !skipn_all2 by lia. reflexivity.
Qed.

Lemma rain_series_of_empty (data : meteo_data) (past_hours : Z) :
  times_of data = [] \/ rains_of data = [] ->
  Heatmap.rain_series_of data past_hours = Return []
  /\ recent_samples data past_hours = [].
Proof.
  intros H. unfold Heatmap.rain_series_of, recent_samples.
  assert (E : combine (times_of data) (rains_of data) = []).
  { destruct H as [-> | ->]; [reflexivity|].
    now destruct (times_of data). }
  rewrite E. split.
  - destruct H as [-> | ->]; [reflexivity|]. now destruct (times_of data).
  - unfold sort_by_time. simpl. unfold slice_from. simpl.
    destruct (- past_hours <? 0)%Z; now rewrite skipn_nil.
Qed.

Lemma rain_series_of_floats (data : meteo_data) (past_hours : Z) :
  Heatmap.rain_series_of data past_hours
  = Heatmap.floats (map snd (recent_samples data past_hours)).
Proof.
  destruct (times_of data) as [| t ts] eqn:Et.
  - destruct (rain_series_of_empty data past_hours (or_introl Et))
      as [-> ->]. reflexivity.
  - destruct (rains_of data) as [| r rs] eqn:Er.
    + destruct (rain_series_of_empty data past_hours (or_intror Er))
        as [-> ->]. reflexivity.
    + unfold Heatmap.rain_series_of. now rewrite Et, Er.
Qed.

(** X19: a series that the fetch of the heatmap returns holds the rain
    values of the newest hours of the reply, oldest first: the samples of
    the reply, put in the order of their time stamps, split into older ones
    and kept ones, and the series is the values of the kept ones.  For
    [past_hours] of at least 1 the series has [past_hours] values, or all
    of them when the reply has fewer; for [past_hours] 0 it has all of
    them, since the slice [pairs[-0:]] keeps the whole list, and for a
    negative [past_hours] the oldest [- past_hours] samples are dropped. *)
Theorem rain_series_latest_in_time_order
  (http_get : R -> R -> outcome Py.exception meteo_data)
  (lat lon : R) (past_hours : Z) (data : meteo_data) (series : list R) :
  http_get lat lon = Return data ->
  Heatmap.fetch_open_meteo_rain_series http_get lat lon past_hours
  = Return series ->
  exists older kept,
    Permutation (older ++ kept) (combine (times_of data) (rains_of data))
    /\ StronglySorted not_later (older ++ kept)
    /\ map snd kept = map Some series
    /\ ((1 <= past_hours)%Z ->
        List.length series
        = Nat.min (Z.to_nat past_hours)
            (Nat.min (List.length (times_of data))
               (List.length (rains_of data))))
    /\ ((past_hours <= 0)%Z ->
        List.length older
        = Nat.min (Z.to_nat (- past_hours))
            (Nat.min (List.length (times_of data))
               (List.length (rains_of data)))).
Proof.
  intros Hget Hfetch. unfold Heatmap.fetch_open_meteo_rain_series in Hfetch.
  rewrite Hget, rain_series_of_floats in Hfetch.
  apply floats_returns in Hfetch. unfold recent_samples in Hfetch.
  set (pairs := combine (times_of data) (rains_of data)) in *.
  destruct (slice_from_neg_split past_hours (sort_by_time pairs))
    as (m & Hm & Hle & Hpos & Hneg).
  rewrite Hm in Hfetch.
  assert (Hlen : List.length (sort_by_time pairs)
                 = Nat.min (List.length (times_of data))
                     (List.length (rains_of data))).
  { rewrite (Permutation_length (sort_by_time_perm pairs)).
    apply length_combine. }
  exists (firstn m (sort_by_time pairs)), (skipn m (sort_by_time pairs)).
  rewrite firstn_skipn.
  split; [apply sort_by_time_perm|].
  split; [apply sort_by_time_sorted|].
  split; [assumption|]. split.
  - intros H1.
    assert (E : List.length (map snd (skipn m (sort_by_time pairs)))
                = List.length (map Some series)) by now rewrite Hfetch.
    rewrite !length_map, length_skipn in E. rewrite <- E, (Hpos H1). lia.
  - intros H0. rewrite length_firstn, (Hneg H0). lia.
Qed.

Lemma rain_series_latest_in_time_order_witness :
  (fun _ _ : R => @Return Py.exception _ unordered_reply) 13 80
  = Return unordered_reply
  /\ Heatmap.fetch_open_meteo_rain_series
       (fun _ _ => Return unordered_reply) 13 80 2
     = Return [7; 5]
  /\ exists older kept,
      Permutation (older ++ kept)
        (combine (times_of unordered_reply) (rains_of unordered_reply))
      /\ StronglySorted not_later (older ++ kept)
      /\ map snd kept = map Some [7; 5]
      /\ ((1 <= 2)%Z ->
          List.length [7; 5]
          = Nat.min (Z.to_nat 2)
              (Nat.min (List.length (times_of unordered_reply))
                 (List.length (rains_of unordered_reply))))
      /\ ((2 <= 0)%Z ->
          List.length older
          = Nat.min (Z.to_nat (- 2))
              (Nat.min (List.length (times_of unordered_reply))
                 (List.length (rains_of unordered_reply)))).
Proof.
  split; [reflexivity|]. split; [reflexivity|].
  apply (rain_series_latest_in_time_order
           (fun _ _ => Return unordered_reply) 13 80 2 unordered_reply
           [7; 5]); reflexivity.
Defined.

(** X20: the fetch of the heatmap passes a failure of the request on.  On
    a reply it returns a series exactly when every kept sample has a
    number as rain value: a [null] among the kept samples raises
    [TypeError], a [null] among the samples that the slice drops does no
    harm.  A reply without time stamps or without rain values gives the
    empty series. *)
Theorem rain_series_needs_numbers
  (http_get : R -> R -> outcome Py.exception meteo_data)
  (lat lon : R) (past_hours : Z) :
  (forall e,
      http_get lat lon = Throw e ->
      Heatmap.fetch_open_meteo_rain_series http_get lat lon past_hours
      = Throw e)
  /\ (forall data,
         http_get lat lon = Return data ->
         (Forall (fun s : sample => snd s <> None)
            (recent_samples data past_hours) ->
          exists series,
            Heatmap.fetch_open_meteo_rain_series http_get lat lon past_hours
            = Return series
            /\ map snd (recent_samples data past_hours) = map Some series)
         /\ (Exists (fun s : sample => snd s = None)
               (recent_samples data past_hours) ->
             Heatmap.fetch_open_meteo_rain_series http_get lat lon past_hours
             = Throw Py.TypeError)
         /\ (times_of data = [] \/ rains_of data = [] ->
             Heatmap.fetch_open_meteo_rain_series http_get lat lon past_hours
             = Return [])).
Proof.
  split.
  - intros e He. unfold Heatmap.fetch_open_meteo_rain_series. now rewrite He.
  - intros data Hget. unfold Heatmap.fetch_open_meteo_rain_series.
    rewrite Hget. split; [| split].
    + intros Hall. rewrite rain_series_of_floats.
      destruct (floats_total (map snd (recent_samples data past_hours)))
        as [Hok _].
      destruct Hok as [series Hs].
      { rewrite Forall_map. exact Hall. }
      exists series. split; [assumption|]. now apply floats_returns.
    + intros Hex. rewrite rain_series_of_floats.
      apply floats_total. rewrite Exists_exists in *.
      destruct Hex as (s & Hin & Hs). exists (snd s).
      split; [now apply in_map | assumption].
    + intros Hempty. now apply rain_series_of_empty.
Qed.

(** ** The prediction service *)

Lemma round2_zero : round2 0 = 0.
Proof.
  replace 0 with (IZR 0 / 100) at 1 by lra. rewrite round2_grid. lra.
Qed.

Lemma round2_nonneg (x : R) : 0 <= x -> 0 <= round2 x.
Proof. intros H. rewrite <- round2_zero. now apply round2_mono. Qed.

Lemma api_predict_next_rain_returns (m : list R -> R)
  (http_get : Api.number -> Api.number -> outcome Py.exception meteo_data)
  (x y : Api.number) :
  exists p,
    Api.predict_next_rain (Some m) http_get x y Api.SEQ_LEN = Return p
    /\ 0 <= p
    /\ match Heatmap.fetch_open_meteo_rain_series (fun _ _ => http_get x y)
               0 0 Api.SEQ_LEN
       with
       | Return (a :: r) =>
           exists input,
             Heatmap.build_lstm_input (a :: r) Api.SEQ_LEN = Return input
             /\ Z.of_nat (List.length input) = Api.SEQ_LEN
             /\ p = max2 (m input) 0
       | _ => p = 0
       end.
Proof.
  unfold Api.predict_next_rain, Api.fetch_open_meteo_rain_series,
    Heatmap.fetch_open_meteo_rain_series.
  destruct (http_get x y) as [data | e].
  - destruct (Heatmap.rain_series_of data Api.SEQ_LEN) as [[| a r] | e].
    + exists 0. split; [reflexivity|]. split; [lra | reflexivity].
    + destruct (build_lstm_input_returns (a :: r) Api.SEQ_LEN)
        as (input & Hx & Hlx & _); [unfold Api.SEQ_LEN; lia|].
      rewrite Hx. exists (max2 (m input) 0). split; [reflexivity|].
      split; [apply max2_nonneg|]. exists input. now repeat split.
    + exists 0. split; [reflexivity|]. split; [lra | reflexivity].
  - exists 0. split; [reflexivity|]. split; [lra | reflexivity].
Qed.

Lemma in_range_true (lo : R) (x : Api.number) (hi : R) :
  Api.in_range lo x hi = true <-> exists r, x = Api.Finite r /\ lo <= r <= hi.
Proof.
  unfold Api.in_range. destruct x as [r |].
  - destruct (Rle_dec lo r); [destruct (Rle_dec r hi)|]; split;
      try discriminate; try (intros (r' & [= <-] & H); lra);
      intros _; exists r; split; [reflexivity | lra].
  - split; [discriminate | intros (r & H & _); discriminate].
Qed.

(** A member that [float] accepts belongs to a dict that is not empty. *)
Lemma float_member_object (float_of_string : string -> option Api.number)
  (key : string) (data : Api.json) (x : Api.number) :
  Api.float_member float_of_string key data = Return x ->
  Api.truthy data = true
  /\ exists members v,
      data = Api.JObject members
      /\ Api.member key members = Some v
      /\ Api.float float_of_string v = Return x.
Proof.
  unfold Api.float_member, Api.get. destruct data; try discriminate.
  destruct (Api.member key members) as [v |] eqn:E; [| discriminate].
  intros H. split.
  - destruct members; [discriminate | reflexivity].
  - now exists members, v.
Qed.

Lemma float_member_missing (float_of_string : string -> option Api.number)
  (key : string) (members : list (string * Api.json)) :
  Api.member key members = None \/ Api.member key members = Some Api.JNull ->
  Api.float_member float_of_string key (Api.JObject members)
  = Throw Py.TypeError.
Proof.
  unfold Api.float_member, Api.get. now intros [-> | ->].
Qed.

(** The five ways through [predict] once a model is loaded and the body
    is decoded. *)
Lemma predict_cases (m : list R -> R)
  (float_of_string : string -> option Api.number)
  (http_get : Api.number -> Api.number -> outcome Py.exception meteo_data)
  (data : Api.json) :
  (Api.truthy data = false
   /\ Api.predict (Some m) float_of_string http_get (Return data)
      = Api.failed 400 (Api.Message "No JSON data provided"))
  \/ (Api.truthy data = true
      /\ exists e,
          (Api.float_member float_of_string "lat" data = Throw e
           \/ ((exists x, Api.float_member float_of_string "lat" data
                          = Return x)
               /\ Api.float_member float_of_string "lon" data = Throw e))
          /\ Api.predict (Some m) float_of_string http_get (Return data)
             = Api.failed 500 (Api.Raised e))
  \/ (exists x y,
         Api.float_member float_of_string "lat" data = Return x
         /\ Api.float_member float_of_string "lon" data = Return y
         /\ (Api.in_range (-90) x 90 = false
             \/ Api.in_range (-180) y 180 = false)
         /\ Api.predict (Some m) float_of_string http_get (Return data)
            = Api.failed 400 (Api.Message "Invalid coordinates"))
  \/ (exists lat lon p,
         Api.float_member float_of_string "lat" data
         = Return (Api.Finite lat)
         /\ Api.float_member float_of_string "lon" data
            = Return (Api.Finite lon)
         /\ -90 <= lat <= 90
         /\ -180 <= lon <= 180
         /\ Api.predict_next_rain (Some m) http_get (Api.Finite lat)
              (Api.Finite lon) Api.SEQ_LEN = Return p
         /\ Api.predict (Some m) float_of_string http_get (Return data)
            = Api.mkResponse 200 true (Some (round2 p)) None).
Proof.
  unfold Api.predict.
  destruct (Api.truthy data) eqn:Et; [| now left].
  right. cbn [negb].
  destruct (Api.float_member float_of_string "lat" data) as [x | e] eqn:Elat.
  2:{ left. split; [reflexivity|]. exists e. split; [now left | reflexivity]. }
  destruct (Api.float_member float_of_string "lon" data) as [y | e] eqn:Elon.
  2:{ left. split; [reflexivity|]. exists e.
      split; [right; split; [now exists x | reflexivity] | reflexivity]. }
  right.
  destruct (Api.in_range (-90) x 90) eqn:Rx.
  2:{ left. exists x, y. repeat split; now left. }
  destruct (Api.in_range (-180) y 180) eqn:Ry.
  2:{ left. exists x, y. repeat split; now right. }
  right. apply in_range_true in Rx, Ry.
  destruct Rx as (lat & -> & Hlat). destruct Ry as (lon & -> & Hlon).
  destruct (api_predict_next_rain_returns m http_get (Api.Finite lat)
              (Api.Finite lon)) as (p & Hp & _).
  exists lat, lon, p. cbn [negb orb]. rewrite Hp. now repeat split.
Qed.

(** X21: with a model loaded, a request whose body gives floats for
    ["lat"] and ["lon"] inside the ranges is always answered with the
    status 200 and a rainfall that is not negative and has at most two
    decimals.  The rainfall is the rounded output of the model, raised to 0
    when negative, on an input of 24 values, when the weather service
    delivers a series that is not empty; it is 0 whenever the service
    fails, delivers a [null] among the kept values, or delivers nothing. *)
Theorem valid_request_is_answered (m : list R -> R)
  (float_of_string : string -> option Api.number)
  (http_get : Api.number -> Api.number -> outcome Py.exception meteo_data)
  (data : Api.json) (lat lon : R) :
  Api.float_member float_of_string "lat" data = Return (Api.Finite lat) ->
  Api.float_member float_of_string "lon" data = Return (Api.Finite lon) ->
  -90 <= lat <= 90 ->
  -180 <= lon <= 180 ->
  exists v,
    Api.predict (Some m) float_of_string http_get (Return data)
    = Api.mkResponse 200 true (Some v) None
    /\ 0 <= v
    /\ (exists k : Z, v = IZR k / 100)
    /\ match
         Heatmap.fetch_open_meteo_rain_series
           (fun la lo => http_get (Api.Finite la) (Api.Finite lo)) lat lon 24
       with
       | Return (a :: r) =>
           exists x,
             Heatmap.build_lstm_input (a :: r) 24 = Return x
             /\ Z.of_nat (List.length x) = 24%Z
             /\ v = round2 (max2 (m x) 0)
       | _ => v = 0
       end.
Proof.
  intros Hlat Hlon Rlat Rlon.
  destruct (api_predict_next_rain_returns m http_get (Api.Finite lat)
              (Api.Finite lon)) as (p & Hp & Hp0 & Hshape).
  exists (round2 p). split.
  - destruct (float_member_object _ _ _ _ Hlat) as [Ht _].
    unfold Api.predict. rewrite Ht, Hlat, Hlon. cbn [negb].
    assert (Rx : Api.in_range (-90) (Api.Finite lat) 90 = true)
      by (apply in_range_true; now exists lat).
    assert (Ry : Api.in_range (-180) (Api.Finite lon) 180 = true)
      by (apply in_range_true; now exists lon).
    rewrite Rx, Ry. cbn [negb orb]. now rewrite Hp.
  - split; [now apply round2_nonneg|].
    split; [now exists (round_half_even (p * 100))|].
    change Api.SEQ_LEN with 24%Z in Hshape.
    change (Heatmap.fetch_open_meteo_rain_series
              (fun la lo => http_get (Api.Finite la) (Api.Finite lo))
              lat lon 24)
      with (Heatmap.fetch_open_meteo_rain_series
              (fun _ _ : R => http_get (Api.Finite lat) (Api.Finite lon))
              0 0 24).
    destruct (Heatmap.fetch_open_meteo_rain_series
                (fun _ _ : R => http_get (Api.Finite lat) (Api.Finite lon))
                0 0 24) as [[| a r] | e].
    + rewrite Hshape. apply round2_zero.
    + destruct Hshape as (x & Hx & Hlx & ->). now exists x.
    + rewrite Hshape. apply round2_zero.
Qed.

Lemma valid_request_is_answered_witness :
  Api.float_member decimal_only "lat" numeric_body = Return (Api.Finite 13)
  /\ Api.float_member decimal_only "lon" numeric_body
     = Return (Api.Finite 80)
  /\ -90 <= 13 <= 90
  /\ -180 <= 80 <= 180
  /\ exists v,
      Api.predict (Some (fun _ => 3)) decimal_only
        (fun _ _ => Throw Py.HTTPError) (Return numeric_body)
      = Api.mkResponse 200 true (Some v) None
      /\ 0 <= v
      /\ (exists k : Z, v = IZR k / 100)
      /\ match
           Heatmap.fetch_open_meteo_rain_series
             (fun la lo =>
                (fun _ _ : Api.number => Throw Py.HTTPError)
                  (Api.Finite la) (Api.Finite lo)) 13 80 24
         with
         | Return (a :: r) =>
             exists x,
               Heatmap.build_lstm_input (a :: r) 24 = Return x
               /\ Z.of_nat (List.length x) = 24%Z
               /\ v = round2 (max2 ((fun _ => 3) x) 0)
         | _ => v = 0
         end.
Proof.
  split; [reflexivity|]. split; [reflexivity|].
  split; [lra|]. split; [lra|].
  apply (valid_request_is_answered (fun _ => 3) decimal_only
           (fun _ _ => Throw Py.HTTPError) numeric_body 13 80);
    try reflexivity; lra.
Defined.

(** X22: the status of the reply of [/predict] is 200, 400 or 500, and the
    reply reports success exactly with 200.  The status is 200 exactly
    when a model is loaded and [float] turns the ["lat"] and ["lon"]
    members of the body, which may be numbers, booleans or strings that
    spell a float, into numbers inside the ranges.  It is 400 exactly when
    a model is loaded and the body is false as a truth value ([null],
    [false], zero, an empty string, list or object), or both members are
    turned into floats and one is outside its range or not finite.
    Without a model the reply is 500 whatever the body is; with a model, a
    body that cannot be decoded, a true body that is not an object
    ([AttributeError]) and an object in which ["lat"] or ["lon"] is
    missing or [null] ([TypeError]) are answered with 500, not with 400. *)
Theorem predict_status (model : option (list R -> R))
  (float_of_string : string -> option Api.number)
  (http_get : Api.number -> Api.number -> outcome Py.exception meteo_data)
  (body : outcome Py.exception Api.json) :
  (Api.status (Api.predict model float_of_string http_get body) = 200%Z
   \/ Api.status (Api.predict model float_of_string http_get body) = 400%Z
   \/ Api.status (Api.predict model float_of_string http_get body) = 500%Z)
  /\ (Api.success (Api.predict model float_of_string http_get body) = true
      <-> Api.status (Api.predict model float_of_string http_get body)
          = 200%Z)
  /\ (Api.status (Api.predict model float_of_string http_get body) = 200%Z
      <-> model <> None
          /\ exists data lat lon,
              body = Return data
              /\ Api.float_member float_of_string "lat" data
                 = Return (Api.Finite lat)
              /\ Api.float_member float_of_string "lon" data
                 = Return (Api.Finite lon)
              /\ -90 <= lat <= 90 /\ -180 <= lon <= 180)
  /\ (Api.status (Api.predict model float_of_string http_get body) = 400%Z
      <-> model <> None
          /\ exists data,
              body = Return data
              /\ (Api.truthy data = false
                  \/ exists x y,
                      Api.float_member float_of_string "lat" data = Return x
                      /\ Api.float_member float_of_string "lon" data
                         = Return y
                      /\ ~ (exists lat lon,
                               x = Api.Finite lat /\ y = Api.Finite lon
                               /\ -90 <= lat <= 90 /\ -180 <= lon <= 180)))
  /\ (model = None ->
      Api.predict model float_of_string http_get body
      = Api.failed 500 (Api.Message "Model not loaded"))
  /\ (forall e,
         model <> None ->
         body = Throw e ->
         Api.predict model float_of_string http_get body
         = Api.failed 500 (Api.Raised e))
  /\ (forall data,
         model <> None ->
         body = Return data ->
         Api.truthy data = true ->
         (forall members, data <> Api.JObject members) ->
         Api.predict model float_of_string http_get body
         = Api.failed 500 (Api.Raised Py.AttributeError))
  /\ (forall members,
         model <> None ->
         body = Return (Api.JObject members) ->
         members <> [] ->
         (Api.member "lat" members = None
          \/ Api.member "lat" members = Some Api.JNull)
         \/ ((exists x,
                 Api.float_member float_of_string "lat" (Api.JObject members)
                 = Return x)
             /\ (Api.member "lon" members = None
                 \/ Api.member "lon" members = Some Api.JNull)) ->
         Api.predict model float_of_string http_get body
         = Api.failed 500 (Api.Raised Py.TypeError)).
Proof.
  destruct model as [m |].
  2:{ cbn. repeat split; try (intros; discriminate); try tauto;
      try (intros [H _]; congruence); try (now right; right);
      try (intros; congruence). }
  destruct body as [data | e0].
  2:{ cbn. repeat split; try (intros; discriminate); try tauto;
      try (now right; right); try (intros; congruence);
      try (intros (_ & d & la & lo & H & _); discriminate);
      try (intros (_ & d & H & _); discriminate). }
  assert (Hin : forall x y,
             (Api.in_range (-90) x 90 = false
              \/ Api.in_range (-180) y 180 = false)
             <-> ~ (exists lat lon,
                       x = Api.Finite lat /\ y = Api.Finite lon
                       /\ -90 <= lat <= 90 /\ -180 <= lon <= 180)).
  { intros x y. split.
    - intros [H | H] (lat & lon & -> & -> & Hlat & Hlon).
      + assert (Api.in_range (-90) (Api.Finite lat) 90 = true)
          by (apply in_range_true; now exists lat). congruence.
      + assert (Api.in_range (-180) (Api.Finite lon) 180 = true)
          by (apply in_range_true; now exists lon). congruence.
    - intros Hno.
      destruct (Api.in_range (-90) x 90) eqn:Rx; [| now left].
      destruct (Api.in_range (-180) y 180) eqn:Ry; [| now right].
      apply in_range_true in Rx, Ry.
      destruct Rx as (lat & -> & Hlat). destruct Ry as (lon & -> & Hlon).
      exfalso. apply Hno. now exists lat, lon. }
  destruct (predict_cases m float_of_string http_get data)
    as [[Ht ->] | [(Ht & e & He & ->) | [(x & y & Hx & Hy & Hr & ->)
       | (lat & lon & p & Hlat & Hlon & Rlat & Rlon & _ & ->)]]]; cbn.
  - (* a false body *)
    split; [now right; left|]. split; [split; discriminate|].
    split; [split; [discriminate|] |].
    { intros (_ & d & la & lo & [= <-] & Hla & _).
      apply float_member_object in Hla. destruct Hla as [Hla _]. congruence. }
    split; [split; [intros _; split; [discriminate|]; exists data; tauto
                   | reflexivity] |].
    split; [discriminate|]. split; [discriminate|].
    split; [intros d _ [= <-] Hd; congruence|].
    intros members _ [= ->] Hne _. destruct members; [congruence | discriminate].
  - (* a member that float refuses *)
    split; [now right; right|]. split; [split; discriminate|].
    split; [split; [discriminate|] |].
    { intros (_ & d & la & lo & [= <-] & Hla & Hlo & _).
      destruct He as [He | [_ He]]; congruence. }
    split; [split; [discriminate|] |].
    { intros (_ & d & [= <-] & [Hf | (x & y & Hx & Hy & _)]); [congruence|].
      destruct He as [He | [_ He]]; congruence. }
    split; [discriminate|]. split; [discriminate|].
    split.
    { intros d _ [= <-] _ Hno. f_equal. f_equal.
      assert (Hattr : forall key,
                 Api.float_member float_of_string key data
                 = Throw Py.AttributeError).
      { intros key. unfold Api.float_member, Api.get.
        destruct data; try reflexivity. exfalso. now apply (Hno members). }
      destruct He as [He | [[x Hx] _]]; rewrite Hattr in *; congruence. }
    intros members _ [= ->] _ Hmiss. f_equal. f_equal.
    destruct Hmiss as [Hlat | [[x Hx] Hlon]].
    + rewrite (float_member_missing float_of_string "lat" members Hlat)
        in He.
      destruct He as [He | [[x Hx] _]]; congruence.
    + rewrite (float_member_missing float_of_string "lon" members Hlon)
        in He.
      destruct He as [He | [_ He]]; congruence.
  - (* coordinates out of range *)
    split; [now right; left|]. split; [split; discriminate|].
    split; [split; [discriminate|] |].
    { intros (_ & d & la & lo & [= <-] & Hla & Hlo & Hr1 & Hr2).
      apply Hin in Hr. exfalso. apply Hr. exists la, lo. rewrite Hx in Hla.
      rewrite Hy in Hlo. injection Hla as ->. injection Hlo as ->.
      now repeat split. }
    split.
    { split; [| reflexivity]. intros _. split; [discriminate|].
      exists data. split; [reflexivity|]. right. exists x, y.
      split; [assumption|]. split; [assumption|]. now apply Hin. }
    split; [discriminate|]. split; [discriminate|].
    split.
    { intros d _ [= <-] _ Hno.
      apply float_member_object in Hx. destruct Hx as (_ & ms & _ & -> & _).
      exfalso. now apply (Hno ms). }
    intros members _ [= ->] _ Hmiss. exfalso.
    destruct Hmiss as [H | [_ H]].
    + rewrite float_member_missing in Hx by assumption. discriminate.
    + rewrite float_member_missing in Hy by assumption. discriminate.
  - (* a valid request *)
    split; [now left|]. split; [split; reflexivity|].
    split.
    { split; [| reflexivity]. intros _. split; [discriminate|].
      now exists data, lat, lon. }
    split; [split; [discriminate|] |].
    { intros (_ & d & [= <-] & [Hf | (x & y & Hx & Hy & Hno)]).
      - apply float_member_object in Hlat. destruct Hlat as [Ht _].
        congruence.
      - exfalso. apply Hno. exists lat, lon. rewrite Hlat in Hx.
        rewrite Hlon in Hy. injection Hx as <-. injection Hy as <-.
        now repeat split. }
    split; [discriminate|]. split; [discriminate|].
    split.
    { intros d _ [= <-] _ Hno.
      apply float_member_object in Hlat.
      destruct Hlat as (_ & ms & _ & -> & _). exfalso. now apply (Hno ms). }
    intros members _ [= ->] _ Hmiss. exfalso.
    destruct Hmiss as [H | [_ H]].
    + rewrite float_member_missing in Hlat by assumption. discriminate.
    + rewrite float_member_missing in Hlon by assumption. discriminate.
Qed.

Lemma predict_of_prediction (m : list R -> R)
  (float_of_string : string -> option Api.number)
  (http_get : Api.number -> Api.number -> outcome Py.exception meteo_data)
  (data : Api.json) (lat lon p : R) :
  Api.float_member float_of_string "lat" data = Return (Api.Finite lat) ->
  Api.float_member float_of_string "lon" data = Return (Api.Finite lon) ->
  -90 <= lat <= 90 ->
  -180 <= lon <= 180 ->
  Api.predict_next_rain (Some m) http_get (Api.Finite lat) (Api.Finite lon)
    Api.SEQ_LEN = Return p ->
  Api.predict (Some m) float_of_string http_get (Return data)
  = Api.mkResponse 200 true (Some (round2 p)) None.
Proof.
  intros Hlat Hlon Rlat Rlon Hp.
  destruct (float_member_object _ _ _ _ Hlat) as [Ht _].
  unfold Api.predict. rewrite Ht, Hlat, Hlon. cbn [negb].
  assert (Rx : Api.in_range (-90) (Api.Finite lat) 90 = true)
    by (apply in_range_true; now exists lat).
  assert (Ry : Api.in_range (-180) (Api.Finite lon) 180 = true)
    by (apply in_range_true; now exists lon).
  rewrite Rx, Ry. cbn [negb orb]. now rewrite Hp.
Qed.

Lemma predict_each_returns (m : list R -> R)
  (float_of_string : string -> option Api.number)
  (http_get : Api.number -> Api.number -> outcome Py.exception meteo_data)
  (locations : list Api.json) :
  Forall (converts float_of_string) locations ->
  exists ps,
    Api.predict_each (Some m) float_of_string http_get locations = Return ps
    /\ Forall2 (prediction_of m float_of_string http_get) locations ps.
Proof.
  induction 1 as [| loc r [[x Hlat] [y Hlon]] _ (ps & Hps & Hall)].
  - exists []. split; [reflexivity | constructor].
  - cbn [Api.predict_each]. rewrite Hlat, Hlon.
    destruct (api_predict_next_rain_returns m http_get x y)
      as (q & Hq & Hq0 & _).
    rewrite Hq, Hps. eexists. split; [reflexivity|].
    constructor; [| assumption].
    unfold prediction_of. cbn [Api.lat Api.lon Api.rainfall_mm].
    repeat split; try assumption; [now apply round2_nonneg|]. now exists q.
Qed.

Lemma predict_each_raises (m : list R -> R)
  (float_of_string : string -> option Api.number)
  (http_get : Api.number -> Api.number -> outcome Py.exception meteo_data)
  (pre post : list Api.json) (loc : Api.json) (e : Py.exception) :
  Forall (converts float_of_string) pre ->
  Api.float_member float_of_string "lat" loc = Throw e
  \/ ((exists x, Api.float_member float_of_string "lat" loc = Return x)
      /\ Api.float_member float_of_string "lon" loc = Throw e) ->
  Api.predict_each (Some m) float_of_string http_get (pre ++ loc :: post)
  = Throw e.
Proof.
  intros Hpre Hloc.
  induction Hpre as [| l r [[x Hlat] [y Hlon]] _ IH].
  - cbn [app Api.predict_each].
    destruct Hloc as [-> | [[x ->] ->]]; reflexivity.
  - cbn [app Api.predict_each]. rewrite Hlat, Hlon.
    destruct (api_predict_next_rain_returns m http_get x y) as (q & -> & _).
    now rewrite IH.
Qed.

Lemma batch_of_locations (m : list R -> R)
  (float_of_string : string -> option Api.number)
  (http_get : Api.number -> Api.number -> outcome Py.exception meteo_data)
  (members : list (string * Api.json)) (locations : list Api.json) :
  Api.member "locations" members = Some (Api.JArray locations) ->
  Api.predict_batch (Some m) float_of_string http_get
    (Return (Api.JObject members))
  = match Api.predict_each (Some m) float_of_string http_get locations with
    | Throw e => Api.batch_failed 500 (Api.Raised e)
    | Return ps => Api.mkBatch 200 true (Some ps) None
    end.
Proof.
  intros Hloc. unfold Api.predict_batch, Api.contains, Api.subscript.
  assert (Ht : Api.truthy (Api.JObject members) = true).
  { destruct members; [discriminate | reflexivity]. }
  rewrite Ht, Hloc. reflexivity.
Qed.

(** X23: with a model loaded, [/predict/batch] answers a list of locations
    whose ["lat"] and ["lon"] members [float] all accepts with the status
    200 and one prediction for every location, in the order of the
    locations, with the coordinates of the location and a rainfall that is
    not negative.  The coordinates are not checked against the ranges; for
    a location inside the ranges the rainfall is the one that [/predict]
    answers for this location.  The first location with a member that
    [float] refuses makes the whole reply a 500 with the exception of
    [float], which is [TypeError] for a member that is missing or
    [null]. *)
Theorem batch_predictions_in_order (m : list R -> R)
  (float_of_string : string -> option Api.number)
  (http_get : Api.number -> Api.number -> outcome Py.exception meteo_data)
  (members : list (string * Api.json)) (locations : list Api.json) :
  Api.member "locations" members = Some (Api.JArray locations) ->
  (Forall
     (fun loc =>
        (exists x, Api.float_member float_of_string "lat" loc = Return x)
        /\ (exists y, Api.float_member float_of_string "lon" loc = Return y))
     locations ->
   exists ps,
     Api.predict_batch (Some m) float_of_string http_get
       (Return (Api.JObject members))
     = Api.mkBatch 200 true (Some ps) None
     /\ List.length ps = List.length locations
     /\ Forall2
          (fun loc p =>
             Api.float_member float_of_string "lat" loc = Return (Api.lat p)
             /\ Api.float_member float_of_string "lon" loc
                = Return (Api.lon p)
             /\ 0 <= Api.rainfall_mm p
             /\ (forall lat lon,
                    Api.lat p = Api.Finite lat ->
                    Api.lon p = Api.Finite lon ->
                    -90 <= lat <= 90 ->
                    -180 <= lon <= 180 ->
                    Api.predict (Some m) float_of_string http_get (Return loc)
                    = Api.mkResponse 200 true (Some (Api.rainfall_mm p))
                        None))
          locations ps)
  /\ (forall pre loc post e,
         locations = pre ++ loc :: post ->
         Forall
           (fun loc =>
              (exists x,
                  Api.float_member float_of_string "lat" loc = Return x)
              /\ (exists y,
                     Api.float_member float_of_string "lon" loc = Return y))
           pre ->
         Api.float_member float_of_string "lat" loc = Throw e
         \/ ((exists x, Api.float_member float_of_string "lat" loc = Return x)
             /\ Api.float_member float_of_string "lon" loc = Throw e) ->
         Api.predict_batch (Some m) float_of_string http_get
           (Return (Api.JObject members))
         = Api.batch_failed 500 (Api.Raised e))
  /\ (forall key o,
         Api.member key o = None \/ Api.member key o = Some Api.JNull ->
         Api.float_member float_of_string key (Api.JObject o)
         = Throw Py.TypeError).
Proof.
  intros Hloc. split; [| split].
  - intros Hall.
    destruct (predict_each_returns m float_of_string http_get locations Hall)
      as (ps & Hps & Hof).
    exists ps. rewrite (batch_of_locations _ _ _ _ _ Hloc), Hps.
    split; [reflexivity|].
    split; [symmetry; exact (Forall2_length Hof)|].
    clear Hps Hall Hloc.
    induction Hof as [| loc p r ps Hp _ IH]; constructor; [| assumption].
    destruct Hp as (Hlat & Hlon & H0 & q & Hq & Hround).
    repeat split; try assumption.
    intros lat lon Elat Elon Rlat Rlon. rewrite Hround.
    rewrite Elat in Hlat, Hq. rewrite Elon in Hlon, Hq.
    now apply predict_of_prediction with lat lon.
  - intros pre loc post e -> Hpre Hbad.
    rewrite (batch_of_locations _ _ _ _ _ Hloc).
    now rewrite (predict_each_raises m float_of_string http_get pre post loc
                   e Hpre Hbad).
  - intros key o. apply float_member_missing.
Qed.

Lemma batch_predictions_in_order_witness :
  Api.member "locations" [("locations"%string, Api.JArray two_places)]
  = Some (Api.JArray two_places)
  /\ (Forall
        (fun loc =>
           (exists x, Api.float_member decimal_only "lat" loc = Return x)
           /\ (exists y, Api.float_member decimal_only "lon" loc = Return y))
        two_places ->
      exists ps,
        Api.predict_batch (Some (fun _ => 3)) decimal_only
          (fun _ _ => Throw Py.HTTPError)
          (Return (Api.JObject
                     [("locations"%string, Api.JArray two_places)]))
        = Api.mkBatch 200 true (Some ps) None
        /\ List.length ps = List.length two_places
        /\ Forall2
             (fun loc p =>
                Api.float_member decimal_only "lat" loc = Return (Api.lat p)
                /\ Api.float_member decimal_only "lon" loc
                   = Return (Api.lon p)
                /\ 0 <= Api.rainfall_mm p
                /\ (forall lat lon,
                       Api.lat p = Api.Finite lat ->
                       Api.lon p = Api.Finite lon ->
                       -90 <= lat <= 90 ->
                       -180 <= lon <= 180 ->
                       Api.predict (Some (fun _ => 3)) decimal_only
                         (fun _ _ => Throw Py.HTTPError) (Return loc)
                       = Api.mkResponse 200 true (Some (Api.rainfall_mm p))
                           None))
             two_places ps)
  /\ (forall pre loc post e,
         two_places = pre ++ loc :: post ->
         Forall
           (fun loc =>
              (exists x, Api.float_member decimal_only "lat" loc = Return x)
              /\ (exists y,
                     Api.float_member decimal_only "lon" loc = Return y))
           pre ->
         Api.float_member decimal_only "lat" loc = Throw e
         \/ ((exists x, Api.float_member decimal_only "lat" loc = Return x)
             /\ Api.float_member decimal_only "lon" loc = Throw e) ->
         Api.predict_batch (Some (fun _ => 3)) decimal_only
           (fun _ _ => Throw Py.HTTPError)
           (Return (Api.JObject
                      [("locations"%string, Api.JArray two_places)]))
         = Api.batch_failed 500 (Api.Raised e))
  /\ (forall key o,
         Api.member key o = None \/ Api.member key o = Some Api.JNull ->
         Api.float_member decimal_only key (Api.JObject o)
         = Throw Py.TypeError).
Proof.
  split; [reflexivity|].
  apply (batch_predictions_in_order (fun _ => 3) decimal_only
           (fun _ _ => Throw Py.HTTPError)
           [("locations"%string, Api.JArray two_places)] two_places).
  reflexivity.
Defined.
(** ** Zones *)

Lemma sum_bounds (lo hi : R) (l : list R) :
  Forall (fun x => lo <= x <= hi) l ->
  lo * INR (List.length l) <= fold_right Rplus 0 l <= hi * INR (List.length l).
Proof.
  induction 1 as [| x r Hx _ IH].
  - simpl. lra.
  - change (List.length (x :: r)) with (S (List.length r)).
    rewrite S_INR. simpl fold_right. lra.
Qed.

Lemma mean_bounds (lo hi : R) (l : list R) :
  l <> [] ->
  Forall (fun x => lo <= x <= hi) l ->
  lo <= Heatmap.mean l <= hi.
Proof.
  intros Hne Hall. unfold Heatmap.mean.
  pose proof (sum_bounds lo hi l Hall) as [Hlo Hhi].
  assert (Hn : 0 < INR (List.length l)).
  { apply lt_0_INR. destruct l; [congruence | simpl; lia]. }
  split.
  - apply Rmult_le_reg_r with (INR (List.length l)); [assumption|].
    unfold Rdiv. rewrite Rmult_assoc, Rinv_l by lra. lra.
  - apply Rmult_le_reg_r with (INR (List.length l)); [assumption|].
    unfold Rdiv. rewrite Rmult_assoc, Rinv_l by lra. lra.
Qed.

Lemma zone_row_spec (labelled : list (Heatmap.flood_point * Z)) (z : Z)
  (row : Heatmap.zone) :
  In row (Heatmap.zone_row labelled z) ->
  Heatmap.zone_row labelled z = [row]
  /\ Heatmap.zone_id row = z
  /\ (1 <= Heatmap.num_points row)%nat
  /\ Heatmap.num_points row
     = List.length (filter (fun pl => Z.eqb (snd pl) z) labelled)
  /\ Heatmap.center_lat row
     = Heatmap.mean
         (map (fun pl => Heatmap.point_lat (fst pl))
            (filter (fun pl => Z.eqb (snd pl) z) labelled))
  /\ Heatmap.center_lon row
     = Heatmap.mean
         (map (fun pl => Heatmap.point_lon (fst pl))
            (filter (fun pl => Z.eqb (snd pl) z) labelled))
  /\ Heatmap.avg_depth_in row
     = Heatmap.mean
         (map (fun pl => Heatmap.point_depth (fst pl))
            (filter (fun pl => Z.eqb (snd pl) z) labelled)).
Proof.
  unfold Heatmap.zone_row.
  destruct (filter (fun pl => Z.eqb (snd pl) z) labelled) as [| a r];
    [intros [] |].
  intros [<- | []]. simpl. repeat split. lia.
Qed.

Lemma zone_row_points (labelled : list (Heatmap.flood_point * Z)) (z : Z) :
  list_sum (map Heatmap.num_points (Heatmap.zone_row labelled z))
  = List.length (filter (fun pl => Z.eqb (snd pl) z) labelled).
Proof.
  unfold Heatmap.zone_row.
  destruct (filter (fun pl => Z.eqb (snd pl) z) labelled); simpl; lia.
Qed.

Lemma zone_rows_points (labelled : list (Heatmap.flood_point * Z))
  (zs : list Z) :
  list_sum (map Heatmap.num_points (flat_map (Heatmap.zone_row labelled) zs))
  = list_sum
      (map (fun z => List.length
                       (filter (fun pl => Z.eqb (snd pl) z) labelled)) zs).
Proof.
  induction zs as [| z zs IH]; [reflexivity|].
  simpl. rewrite map_app, list_sum_app, IH, zone_row_points. reflexivity.
Qed.

Lemma labels_below_succ {A : Type} (labelled : list (A * Z)) (j : Z) :
  (0 <= j)%Z ->
  (List.length
     (filter (fun pl => (0 <=? snd pl)%Z && (snd pl <? j)%Z) labelled)
   + List.length (filter (fun pl => Z.eqb (snd pl) j) labelled))%nat
  = List.length
      (filter (fun pl => (0 <=? snd pl)%Z && (snd pl <? j + 1)%Z) labelled).
Proof.
  intros Hj. induction labelled as [| pl r IHr]; [reflexivity|].
  cbn [filter].
  destruct (Z.leb_spec 0 (snd pl)), (Z.ltb_spec (snd pl) j),
    (Z.eqb_spec (snd pl) j), (Z.ltb_spec (snd pl) (j + 1));
    cbn [andb List.length]; lia.
Qed.

Lemma labels_below_count {A : Type} (labelled : list (A * Z)) (k : nat) :
  list_sum
    (map (fun z => List.length
                     (filter (fun pl => Z.eqb (snd pl) z) labelled))
       (map Z.of_nat (seq 0 k)))
  = List.length
      (filter (fun pl => (0 <=? snd pl)%Z && (snd pl <? Z.of_nat k)%Z)
         labelled).
Proof.
  induction k as [| k IH].
  - cbn [seq map list_sum fold_right].
    induction labelled as [| pl r IHr]; [reflexivity|].
    cbn [filter].
    destruct (Z.leb_spec 0 (snd pl)), (Z.ltb_spec (snd pl) (Z.of_nat 0));
      cbn [andb List.length]; lia.
  - rewrite seq_S, !map_app, list_sum_app, IH.
    cbn [map list_sum fold_right Nat.add]. rewrite Nat.add_0_r.
    rewrite Nat2Z.inj_succ. unfold Z.succ.
    apply labels_below_succ. lia.
Qed.

Lemma labels_in_range_count (points : list Heatmap.flood_point)
  (labels : list Z) (num_zones : Z) :
  List.length labels = List.length points ->
  Forall (fun l => (0 <= l < num_zones)%Z) labels ->
  List.length
    (filter (fun pl => (0 <=? snd pl)%Z
                       && (snd pl <? Z.of_nat (Z.to_nat num_zones))%Z)
       (combine points labels))
  = List.length points.
Proof.
  revert labels. induction points as [| p ps IH]; intros [| l ls] Hlen Hall;
    try discriminate; [reflexivity|].
  inversion Hall as [| ? ? Hl Hls]; subst. simpl.
  destruct (Z.leb_spec 0 l); [| lia].
  destruct (Z.ltb_spec l (Z.of_nat (Z.to_nat num_zones))); [| lia].
  simpl. f_equal. apply IH; [simpl in Hlen; lia | assumption].
Qed.

Lemma label_count (points : list Heatmap.flood_point) (labels : list Z)
  (z : Z) :
  List.length labels = List.length points ->
  List.length (filter (fun pl => Z.eqb (snd pl) z) (combine points labels))
  = count_occ Z.eq_dec labels z.
Proof.
  revert labels. induction points as [| p ps IH]; intros [| l ls] Hlen;
    try discriminate; [reflexivity|].
  simpl. destruct (Z.eqb_spec l z), (Z.eq_dec l z); try congruence;
    simpl; rewrite IH; simpl in Hlen; lia.
Qed.

Lemma zone_rows_increasing (labelled : list (Heatmap.flood_point * Z))
  (k : nat) :
  StronglySorted (fun a b => (Heatmap.zone_id a < Heatmap.zone_id b)%Z)
    (flat_map (Heatmap.zone_row labelled) (map Z.of_nat (seq 0 k)))
  /\ Forall (fun row => (0 <= Heatmap.zone_id row < Z.of_nat k)%Z)
       (flat_map (Heatmap.zone_row labelled) (map Z.of_nat (seq 0 k))).
Proof.
  induction k as [| k [IHs IHb]]; [split; constructor|].
  rewrite seq_S, map_app, flat_map_app. simpl. rewrite app_nil_r.
  assert (Hlast : Forall (fun row => Heatmap.zone_id row = Z.of_nat k)
                    (Heatmap.zone_row labelled (Z.of_nat k))).
  { rewrite Forall_forall. intros row Hin.
    now apply zone_row_spec in Hin. }
  split.
  - revert IHs IHb.
    generalize (flat_map (Heatmap.zone_row labelled)
                  (map Z.of_nat (seq 0 k))).
    induction l as [| a l IHl]; intros Hs Hb; simpl.
    + unfold Heatmap.zone_row in *.
      destruct (filter _ labelled); repeat constructor.
    + inversion Hs; subst. inversion Hb; subst.
      constructor; [now apply IHl|].
      rewrite Forall_app. split; [assumption|].
      rewrite Forall_forall in *. intros row Hin.
      rewrite (Hlast row Hin). lia.
  - rewrite Forall_app. split.
    + rewrite Forall_forall in *. intros row Hin.
      specialize (IHb row Hin). lia.
    + rewrite Forall_forall in *. intros row Hin.
      rewrite (Hlast row Hin). lia.
Qed.

Lemma zone_means_bounded (labelled : list (Heatmap.flood_point * Z))
  (f : Heatmap.flood_point -> R) (lo hi : R) (z : Z) :
  Forall (fun pl => lo <= f (fst pl) <= hi) labelled ->
  filter (fun pl => Z.eqb (snd pl) z) labelled <> [] ->
  lo <= Heatmap.mean
          (map (fun pl => f (fst pl))
             (filter (fun pl => Z.eqb (snd pl) z) labelled)) <= hi.
Proof.
  intros Hall Hne. apply mean_bounds.
  - intros E. apply map_eq_nil in E. contradiction.
  - rewrite Forall_map. rewrite Forall_forall in *. intros pl Hin.
    apply filter_In in Hin. now apply Hall.
Qed.

Lemma combine_fst_forall {A B : Type} (P : A -> Prop) (l : list A)
  (l' : list B) :
  Forall P l -> Forall (fun ab => P (fst ab)) (combine l l').
Proof.
  intros Hall. rewrite Forall_forall in *. intros [a b] Hin.
  apply in_combine_l in Hin. now apply Hall.
Qed.

(** X25: when the clustering gives every flood point a label from 0 up to
    [num_zones] - 1, the rows of the zone summary split the points: their
    point counts add up to the number of points, every row has at least
    one point, namely as many as carry its label, and the rows come with
    increasing zone ids inside the range, so that a label without points
    has no row.  The centre and the mean depth of a row lie within the
    bounds of the latitudes, longitudes and depths of the points. *)
Theorem zone_summary_splits_points (labels : list Z)
  (points : list Heatmap.flood_point) (num_zones : Z) :
  List.length labels = List.length points ->
  Forall (fun l => (0 <= l < num_zones)%Z) labels ->
  list_sum (map Heatmap.num_points
              (Heatmap.zone_summary labels points num_zones))
  = List.length points
  /\ Forall
       (fun row =>
          (1 <= Heatmap.num_points row)%nat
          /\ (0 <= Heatmap.zone_id row < num_zones)%Z
          /\ Heatmap.num_points row
             = count_occ Z.eq_dec labels (Heatmap.zone_id row))
       (Heatmap.zone_summary labels points num_zones)
  /\ StronglySorted
       (fun a b => (Heatmap.zone_id a < Heatmap.zone_id b)%Z)
       (Heatmap.zone_summary labels points num_zones)
  /\ (forall lo hi,
         Forall (fun p => lo <= Heatmap.point_lat p <= hi) points ->
         Forall (fun row => lo <= Heatmap.center_lat row <= hi)
           (Heatmap.zone_summary labels points num_zones))
  /\ (forall lo hi,
         Forall (fun p => lo <= Heatmap.point_lon p <= hi) points ->
         Forall (fun row => lo <= Heatmap.center_lon row <= hi)
           (Heatmap.zone_summary labels points num_zones))
  /\ (forall lo hi,
         Forall (fun p => lo <= Heatmap.point_depth p <= hi) points ->
         Forall (fun row => lo <= Heatmap.avg_depth_in row <= hi)
           (Heatmap.zone_summary labels points num_zones)).
Proof.
  intros Hlen Hall. unfold Heatmap.zone_summary, Heatmap.range.
  destruct (zone_rows_increasing (combine points labels)
              (Z.to_nat num_zones)) as [Hsorted Hids].
  assert (Hrow : forall row,
             In row (flat_map (Heatmap.zone_row (combine points labels))
                       (map Z.of_nat (seq 0 (Z.to_nat num_zones)))) ->
             In row (Heatmap.zone_row (combine points labels)
                       (Heatmap.zone_id row))).
  { intros row Hin. apply in_flat_map in Hin. destruct Hin as (z & _ & Hin).
    pose proof (zone_row_spec _ _ _ Hin) as (_ & Ez & _). now rewrite Ez. }
  assert (Hmean : forall (f : Heatmap.flood_point -> R)
                    (g : Heatmap.zone -> R) lo hi,
             (forall row z,
                 In row (Heatmap.zone_row (combine points labels) z) ->
                 g row
                 = Heatmap.mean
                     (map (fun pl => f (fst pl))
                        (filter (fun pl => Z.eqb (snd pl) z)
                           (combine points labels)))) ->
             Forall (fun p => lo <= f p <= hi) points ->
             Forall (fun row => lo <= g row <= hi)
               (flat_map (Heatmap.zone_row (combine points labels))
                  (map Z.of_nat (seq 0 (Z.to_nat num_zones))))).
  { intros f g lo hi Hg Hb. rewrite Forall_forall. intros row Hin.
    apply Hrow in Hin. rewrite (Hg _ _ Hin).
    pose proof (zone_row_spec _ _ _ Hin) as (_ & _ & H1 & Hn & _).
    apply zone_means_bounded.
    - exact (combine_fst_forall (fun p => lo <= f p <= hi) points labels
               Hb).
    - intros E. rewrite E in Hn. simpl in Hn. lia. }
  split; [| split; [| split; [| split; [| split]]]].
  - rewrite zone_rows_points, labels_below_count.
    now apply labels_in_range_count.
  - rewrite Forall_forall in *. intros row Hin.
    specialize (Hids row Hin). apply Hrow in Hin.
    pose proof (zone_row_spec _ _ _ Hin) as (_ & _ & H1 & Hn & _).
    split; [assumption|]. split; [lia|].
    rewrite Hn. now apply label_count.
  - assumption.
  - intros lo hi. apply (Hmean Heatmap.point_lat Heatmap.center_lat).
    intros row z Hin. now apply zone_row_spec in Hin.
  - intros lo hi. apply (Hmean Heatmap.point_lon Heatmap.center_lon).
    intros row z Hin. now apply zone_row_spec in Hin.
  - intros lo hi. apply (Hmean Heatmap.point_depth Heatmap.avg_depth_in).
    intros row z Hin. now apply zone_row_spec in Hin.
Qed.

Lemma zone_summary_splits_points_witness :
  List.length [1; 0; 1]%Z = List.length three_points
  /\ Forall (fun l => (0 <= l < 3)%Z) [1; 0; 1]%Z
  /\ list_sum (map Heatmap.num_points
                 (Heatmap.zone_summary [1; 0; 1]%Z three_points 3))
     = List.length three_points
  /\ Forall
       (fun row =>
          (1 <= Heatmap.num_points row)%nat
          /\ (0 <= Heatmap.zone_id row < 3)%Z
          /\ Heatmap.num_points row
             = count_occ Z.eq_dec [1; 0; 1]%Z (Heatmap.zone_id row))
       (Heatmap.zone_summary [1; 0; 1]%Z three_points 3)
  /\ StronglySorted
       (fun a b => (Heatmap.zone_id a < Heatmap.zone_id b)%Z)
       (Heatmap.zone_summary [1; 0; 1]%Z three_points 3)
  /\ (forall lo hi,
         Forall (fun p => lo <= Heatmap.point_lat p <= hi) three_points ->
         Forall (fun row => lo <= Heatmap.center_lat row <= hi)
           (Heatmap.zone_summary [1; 0; 1]%Z three_points 3))
  /\ (forall lo hi,
         Forall (fun p => lo <= Heatmap.point_lon p <= hi) three_points ->
         Forall (fun row => lo <= Heatmap.center_lon row <= hi)
           (Heatmap.zone_summary [1; 0; 1]%Z three_points 3))
  /\ (forall lo hi,
         Forall (fun p => lo <= Heatmap.point_depth p <= hi) three_points ->
         Forall (fun row => lo <= Heatmap.avg_depth_in row <= hi)
           (Heatmap.zone_summary [1; 0; 1]%Z three_points 3)).
Proof.
  split; [reflexivity|].
  split; [repeat (constructor; [lia|]); constructor|].
  apply (zone_summary_splits_points [1; 0; 1]%Z three_points 3);
    [reflexivity | repeat (constructor; [lia|]); constructor].
Defined.

Lemma compute_risk_score_range (avg_depth_in : option R) (pred_rain_mm : R) :
  0 <= Heatmap.compute_risk_score avg_depth_in pred_rain_mm <= 10.
Proof.
  unfold Heatmap.compute_risk_score.
  pose proof (risk_score_raw_range
                match avg_depth_in with Some d => d | None => 0 end
                pred_rain_mm) as [Hlo Hhi].
  split.
  - apply round2_nonneg. exact Hlo.
  - replace 10 with (round2 (IZR 1000 / 100)) at 2
      by (rewrite round2_grid; lra).
    apply round2_mono. lra.
Qed.

Lemma compute_risk_score_no_rain (avg_depth_in : option R) :
  Heatmap.compute_risk_score avg_depth_in 0 <= 4.
Proof.
  unfold Heatmap.compute_risk_score.
  destruct (clamp_spec (0 / 200)) as (_ & H0 & _).
  rewrite H0 by lra.
  destruct (clamp_spec
              (match avg_depth_in with Some d => d | None => 0 end / 60))
    as [Hd _].
  replace 4 with (round2 (IZR 400 / 100)) by (rewrite round2_grid; lra).
  apply round2_mono. lra.
Qed.

(** X24: in the loop of [main] over the zones a prediction that fails does
    not stop the loop: the zone gets the rain 0, a score of at most 4 that
    its depth alone decides, and so never the colour red.  The score of a
    zone always lies between 0 and 10, and for a sequence length of at
    least 1 its predicted rain is not negative. *)
Theorem failed_prediction_counts_as_dry (model : list R -> R)
  (fetch : R -> R -> Z -> outcome Py.exception (list R))
  (seq_len : Z) (row : Heatmap.zone) :
  0 <= snd (Heatmap.zone_risk model fetch seq_len row) <= 10
  /\ ((1 <= seq_len)%Z ->
      0 <= fst (Heatmap.zone_risk model fetch seq_len row))
  /\ (forall e,
         Heatmap.predict_next_rain model fetch (Heatmap.center_lat row)
           (Heatmap.center_lon row) seq_len = Throw e ->
         Heatmap.zone_risk model fetch seq_len row
         = (0, Heatmap.compute_risk_score (Some (Heatmap.avg_depth_in row)) 0)
         /\ snd (Heatmap.zone_risk model fetch seq_len row) <= 4
         /\ Heatmap.risk_to_color
              (snd (Heatmap.zone_risk model fetch seq_len row))
            <> "red"%string).
Proof.
  split; [| split].
  - unfold Heatmap.zone_risk. simpl snd. apply compute_risk_score_range.
  - intros Hlen. unfold Heatmap.zone_risk. simpl fst.
    unfold Heatmap.predict_next_rain.
    destruct (fetch (Heatmap.center_lat row) (Heatmap.center_lon row)
                seq_len) as [[| a r] | e]; try lra.
    destruct (build_lstm_input_returns (a :: r) seq_len Hlen)
      as (x & -> & _).
    apply max2_nonneg.
  - intros e He. unfold Heatmap.zone_risk. rewrite He. simpl snd.
    pose proof (compute_risk_score_no_rain (Some (Heatmap.avg_depth_in row)))
      as H4.
    split; [reflexivity|]. split; [assumption|].
    unfold Heatmap.risk_to_color.
    destruct (Rge_dec _ 7); [lra|].
    destruct (Rge_dec _ 4); discriminate.
Qed.

(** * The domain error of the distance *)

Lemma rounded_haversine_km_in (computed_a : R -> R -> R -> R -> R)
  (lat1 lon1 lat2 lon2 : R) :
  0 <= computed_a lat1 lon1 lat2 lon2 <= 1 ->
  Rounded.haversine_km computed_a lat1 lon1 lat2 lon2
  = Ok (haversine_km lat1 lon1 lat2 lon2).
Proof.
  intros [H0 H1]. unfold Rounded.haversine_km, Rounded.py_sqrt.
  destruct (Rlt_dec (computed_a lat1 lon1 lat2 lon2) 0); [lra|].
  destruct (Rlt_dec (1 - computed_a lat1 lon1 lat2 lon2) 0); [lra|].
  reflexivity.
Qed.

Lemma rounded_haversine_km_out (computed_a : R -> R -> R -> R -> R)
  (lat1 lon1 lat2 lon2 : R) :
  ~ 0 <= computed_a lat1 lon1 lat2 lon2 <= 1 ->
  Rounded.haversine_km computed_a lat1 lon1 lat2 lon2 = Raise ValueError.
Proof.
  intros Hout. unfold Rounded.haversine_km, Rounded.py_sqrt.
  destruct (Rlt_dec (computed_a lat1 lon1 lat2 lon2) 0); [reflexivity|].
  destruct (Rlt_dec (1 - computed_a lat1 lon1 lat2 lon2) 0); [reflexivity|].
  exfalso. apply Hout. lra.
Qed.

Lemma rounded_haversine_km_cases (computed_a : R -> R -> R -> R -> R)
  (lat1 lon1 lat2 lon2 : R) :
  (0 <= computed_a lat1 lon1 lat2 lon2 <= 1
   /\ Rounded.haversine_km computed_a lat1 lon1 lat2 lon2
      = Ok (haversine_km lat1 lon1 lat2 lon2))
  \/ (~ 0 <= computed_a lat1 lon1 lat2 lon2 <= 1
      /\ Rounded.haversine_km computed_a lat1 lon1 lat2 lon2
         = Raise ValueError).
Proof.
  destruct (Rle_dec 0 (computed_a lat1 lon1 lat2 lon2)) as [H0 | H0];
    [destruct (Rle_dec (computed_a lat1 lon1 lat2 lon2) 1) as [H1 | H1]|].
  - left. split; [lra | apply rounded_haversine_km_in; lra].
  - right. split; [lra | apply rounded_haversine_km_out; lra].
  - right. split; [lra | apply rounded_haversine_km_out; lra].
Qed.

(** In exact arithmetic nothing is raised. *)
Lemma rounded_haversine_km_exact (lat1 lon1 lat2 lon2 : R) :
  Rounded.haversine_km haversine_a lat1 lon1 lat2 lon2
  = Ok (haversine_km lat1 lon1 lat2 lon2).
Proof. apply rounded_haversine_km_in, haversine_a_range. Qed.

(** ** The nearest-node scan *)

Lemma rounded_nearest_scan_in (computed_a : R -> R -> R -> R -> R)
  (lat lon : R) (ns : list (Z * Coord)) :
  Forall (fun nc => in_domain computed_a (lat, lon) (snd nc)) ns ->
  forall best_node best_dist,
    Rounded.nearest_scan computed_a lat lon ns best_node best_dist
    = Ok (nearest_scan lat lon ns best_node best_dist).
Proof.
  induction 1 as [| [n [nlat nlon]] r Hn _ IH]; intros best_node best_dist;
    [reflexivity|].
  cbn [Rounded.nearest_scan nearest_scan].
  rewrite rounded_haversine_km_in by exact Hn. cbn [bind].
  destruct (below (haversine_km lat lon nlat nlon) best_dist); apply IH.
Qed.

Lemma rounded_nearest_scan_out (computed_a : R -> R -> R -> R -> R)
  (lat lon : R) (ns : list (Z * Coord)) :
  Exists (fun nc => ~ in_domain computed_a (lat, lon) (snd nc)) ns ->
  forall best_node best_dist,
    Rounded.nearest_scan computed_a lat lon ns best_node best_dist
    = Raise ValueError.
Proof.
  induction ns as [| [n [nlat nlon]] r IH]; intros Hex best_node best_dist;
    [inversion Hex|].
  cbn [Rounded.nearest_scan].
  destruct (rounded_haversine_km_cases computed_a lat lon nlat nlon)
    as [[Hin ->] | [Hout ->]]; [| reflexivity].
  cbn [bind]. inversion Hex as [? ? Hhead | ? ? Htail]; subst.
  - exfalso. apply Hhead. exact Hin.
  - destruct (below (haversine_km lat lon nlat nlon) best_dist);
      now apply IH.
Qed.

Lemma observed_a_near_antipode :
  1 < observed_a (fst near_antipode) (snd near_antipode) 13 80.
Proof.
  unfold observed_a, same_point, near_antipode. cbn [fst snd].
  repeat match goal with
         | |- context [Req_dec_T ?x ?y] =>
             destruct (Req_dec_T x y); [| try (exfalso; lra)]
         end; cbn [andb orb];
    try (exfalso; lra);
    assert (0 < / 2 ^ 52) by (apply Rinv_0_lt_compat, pow_lt; lra); lra.
Qed.

(** C7: the scan hands every node to [haversine_km].  As long as the float
    computed for [a] stays in the domain of both square roots for every
    node, it returns a node at least distance from the query point, the
    first such node of the enumeration; as soon as it leaves the domain for
    one node, the scan raises [ValueError] instead of returning a node.  A
    graph whose only node is at (13.0, 80.0) returns that node for the
    query points of the first kind only. *)
Theorem find_nearest_node_domain_error (computed_a : R -> R -> R -> R -> R)
  (G : Graph) (lat lon : R) :
  nodes G <> [] ->
  (Forall (fun nc => in_domain computed_a (lat, lon) (snd nc)) (nodes G) ->
   exists i n c,
     Rounded.find_nearest_node computed_a G lat lon = Ok (Some n)
     /\ first_nearest lat lon (nodes G) i n c)
  /\ (Exists (fun nc => ~ in_domain computed_a (lat, lon) (snd nc))
        (nodes G) ->
      Rounded.find_nearest_node computed_a G lat lon = Raise ValueError)
  /\ (forall id,
         nodes G = [(id, (13, 80))] ->
         (0 <= computed_a lat lon 13 80 <= 1 ->
          Rounded.find_nearest_node computed_a G lat lon = Ok (Some id))
         /\ (1 < computed_a lat lon 13 80 ->
             Rounded.find_nearest_node computed_a G lat lon
             = Raise ValueError)).
Proof.
  intros Hne. split; [| split].
  - intros Hall. unfold Rounded.find_nearest_node.
    rewrite (rounded_nearest_scan_in computed_a lat lon (nodes G) Hall).
    destruct (find_nearest_node_some G lat lon Hne) as (i & n & c & Hn & Hf).
    exists i, n, c. split; [| assumption]. f_equal. exact Hn.
  - intros Hex. unfold Rounded.find_nearest_node.
    now apply rounded_nearest_scan_out.
  - intros id E. unfold Rounded.find_nearest_node. rewrite E. split.
    + intros Hin. cbn [Rounded.nearest_scan].
      rewrite rounded_haversine_km_in by exact Hin. reflexivity.
    + intros Hout. cbn [Rounded.nearest_scan].
      rewrite rounded_haversine_km_out by lra. reflexivity.
Qed.

Lemma find_nearest_node_domain_error_witness :
  nodes lone_graph <> []
  /\ 1 < observed_a (fst near_antipode) (snd near_antipode) 13 80
  /\ Rounded.find_nearest_node observed_a lone_graph (fst near_antipode)
       (snd near_antipode) = Raise ValueError.
Proof.
  split; [discriminate|]. split; [exact observed_a_near_antipode|].
  destruct (find_nearest_node_domain_error observed_a lone_graph
              (fst near_antipode) (snd near_antipode)) as (_ & _ & H);
    [discriminate|].
  destruct (H 1%Z eq_refl) as [_ Hraise].
  apply Hraise. exact observed_a_near_antipode.
Defined.

(** ** The route between two points *)

Lemma rounded_compute_safe_path_in (computed_a : R -> R -> R -> R -> R)
  (G : Graph) (start_lat start_lon end_lat end_lon : R) :
  Forall (fun nc => in_domain computed_a (start_lat, start_lon) (snd nc))
    (nodes G) ->
  Forall (fun nc => in_domain computed_a (end_lat, end_lon) (snd nc))
    (nodes G) ->
  Rounded.compute_safe_path computed_a G start_lat start_lon end_lat end_lon
  = compute_safe_path G start_lat start_lon end_lat end_lon.
Proof.
  intros Hs He. unfold Rounded.compute_safe_path, Rounded.find_nearest_node.
  rewrite (rounded_nearest_scan_in _ _ _ _ Hs).
  rewrite (rounded_nearest_scan_in _ _ _ _ He).
  reflexivity.
Qed.

(** X11: with the same point as start and destination, on a graph with
    nodes, [compute_safe_path] returns the route of one element, the
    position of the node nearest to the point, whatever the weights and the
    edges of the graph are, as long as the float computed for [a] stays in
    the domain of the square roots for every node; when it leaves the
    domain for one node, [ValueError] is raised instead. *)
Theorem same_point_single_element_route
  (computed_a : R -> R -> R -> R -> R) (G : Graph) (lat lon : R) :
  nodes G <> [] ->
  (Forall (fun nc => in_domain computed_a (lat, lon) (snd nc)) (nodes G) ->
   exists n c,
     Rounded.find_nearest_node computed_a G lat lon = Ok (Some n)
     /\ lookup n (nodes G) = Some c
     /\ Rounded.compute_safe_path computed_a G lat lon lat lon
        = Some (Ok [c]))
  /\ (Exists (fun nc => ~ in_domain computed_a (lat, lon) (snd nc))
        (nodes G) ->
      Rounded.compute_safe_path computed_a G lat lon lat lon
      = Some (Raise ValueError)).
Proof.
  intros Hne. split.
  - intros Hall.
    destruct (find_nearest_node_some G lat lon Hne) as (i & n & c' & Hn & _).
    pose proof (find_nearest_node_in G lat lon n Hn) as Hin.
    destruct (in_keys_lookup n (nodes G) Hin) as (c & Hc).
    exists n, c. split.
    { unfold Rounded.find_nearest_node.
      rewrite (rounded_nearest_scan_in _ _ _ _ Hall). f_equal. exact Hn. }
    split; [assumption|].
    rewrite rounded_compute_safe_path_in by assumption.
    rewrite (compute_safe_path_found G n n) by assumption.
    unfold shortest_path. rewrite shortest_path_same by assumption.
    simpl. unfold node_coord. now rewrite Hc.
  - intros Hex. unfold Rounded.compute_safe_path, Rounded.find_nearest_node.
    now rewrite (rounded_nearest_scan_out _ _ _ _ Hex).
Qed.

Lemma same_point_single_element_route_witness :
  nodes abc_graph <> []
  /\ (Forall (fun nc => in_domain haversine_a (13, 81) (snd nc))
        (nodes abc_graph) ->
      exists n c,
        Rounded.find_nearest_node haversine_a abc_graph 13 81 = Ok (Some n)
        /\ lookup n (nodes abc_graph) = Some c
        /\ Rounded.compute_safe_path haversine_a abc_graph 13 81 13 81
           = Some (Ok [c]))
  /\ (Exists (fun nc => ~ in_domain haversine_a (13, 81) (snd nc))
        (nodes abc_graph) ->
      Rounded.compute_safe_path haversine_a abc_graph 13 81 13 81
      = Some (Raise ValueError)).
Proof.
  split; [discriminate|].
  apply (same_point_single_element_route haversine_a abc_graph 13 81).
  discriminate.
Defined.

(** ** Empty hazard sets *)

Lemma rounded_distances_out (computed_a : R -> R -> R -> R -> R)
  (lat lon : R) (flood_points : list Coord) :
  Exists (fun f => ~ in_domain computed_a (lat, lon) f) flood_points ->
  mapM (fun f => Rounded.haversine_km computed_a lat lon (fst f) (snd f))
    flood_points
  = Raise ValueError.
Proof.
  induction flood_points as [| f r IH]; intros Hex; [inversion Hex|].
  cbn [mapM].
  destruct (rounded_haversine_km_cases computed_a lat lon (fst f) (snd f))
    as [[Hin ->] | [Hout ->]]; [| reflexivity].
  cbn [bind]. inversion Hex as [? ? Hhead | ? ? Htail]; subst.
  - exfalso. apply Hhead. exact Hin.
  - now rewrite (IH Htail).
Qed.

Lemma rounded_min_distance_out (computed_a : R -> R -> R -> R -> R)
  (lat lon : R) (flood_points : list Coord) :
  Exists (fun f => ~ in_domain computed_a (lat, lon) f) flood_points ->
  Rounded.min_distance_to_flood computed_a lat lon flood_points
  = Raise ValueError.
Proof.
  intros Hex. unfold Rounded.min_distance_to_flood.
  now rewrite (rounded_distances_out _ _ _ _ Hex).
Qed.

Lemma observed_a_from_node :
  1 < observed_a 13 80 (fst near_antipode) (snd near_antipode).
Proof.
  unfold observed_a, same_point, near_antipode. cbn [fst snd].
  repeat match goal with
         | |- context [Req_dec_T ?x ?y] =>
             destruct (Req_dec_T x y); [| try (exfalso; lra)]
         end; cbn [andb orb];
    try (exfalso; lra);
    assert (0 < / 2 ^ 52) by (apply Rinv_0_lt_compat, pow_lt; lra); lra.
Qed.

(** C6, as amended: no error of its own tells of an empty hazard set.
    With an empty hazard set the builder raises the [ValueError] of [min]
    on the empty list of latitudes, before it queries the road network,
    whatever the reply would be, and so before any weight is computed; the
    distance to the nearest hazard raises the [ValueError] of [min] as
    well, in exact arithmetic and with rounding. *)
Theorem empty_hazard_set_rejected (margin alpha max_risk_dist_km : R) :
  (forall overpass : Overpass,
      build_flood_weighted_graph_overpass [] margin alpha max_risk_dist_km
        overpass = Raise ValueError)
  /\ (forall computed_a (overpass : Overpass),
         Rounded.build_flood_weighted_graph_overpass computed_a [] margin
           alpha max_risk_dist_km overpass = Raise ValueError)
  /\ (forall lat lon, min_distance_to_flood lat lon [] = Raise ValueError)
  /\ (forall computed_a lat lon,
         Rounded.min_distance_to_flood computed_a lat lon []
         = Raise ValueError).
Proof.
  repeat split; intros; reflexivity.
Qed.

(** C6 as stated fails: the empty hazard set is answered with the
    [ValueError] of [min], and the same [ValueError] is what a hazard set
    that is not empty is answered with when a distance leaves the domain of
    the square root, so the error does not tell of an empty hazard set. *)
Lemma empty_hazard_set_counterexample :
  build_flood_weighted_graph_overpass [] (2 / 100) 5 (1 / 2)
    (fun _ _ _ _ => Ok twin_reply) = Raise ValueError
  /\ min_distance_to_flood 13 80 [] = Raise ValueError
  /\ Rounded.min_distance_to_flood observed_a 13 80 [near_antipode]
     = Raise ValueError.
Proof.
  split; [reflexivity|]. split; [reflexivity|].
  apply rounded_min_distance_out. constructor.
  unfold in_domain. cbn [fst snd]. intros [_ Hle].
  pose proof observed_a_from_node as H. cbn [fst snd] in H. lra.
Qed.

(** ** The graph builder *)

Lemma rounded_add_way_inv (computed_a : R -> R -> R -> R -> R)
  (nodes : list (Z * Coord)) (pairs : list (Z * Z)) :
  forall es es',
    Rounded.add_way computed_a nodes pairs es = Ok es' ->
    add_way nodes pairs es = es'.
Proof.
  induction pairs as [| [a b] r IH]; intros es es' H.
  - now injection H.
  - cbn [Rounded.add_way add_way] in *.
    destruct (lookup a nodes) as [[lat1 lon1] |]; [| now apply IH].
    destruct (lookup b nodes) as [[lat2 lon2] |]; [| now apply IH].
    destruct (rounded_haversine_km_cases computed_a lat1 lon1 lat2 lon2)
      as [[_ E] | [_ E]]; rewrite E in H; [| discriminate].
    now apply IH.
Qed.

Lemma rounded_add_ways_inv (computed_a : R -> R -> R -> R -> R)
  (nodes : list (Z * Coord)) (ways : list (list Z)) :
  forall es es',
    Rounded.add_ways computed_a nodes ways es = Ok es' ->
    add_ways nodes ways es = es'.
Proof.
  induction ways as [| refs r IH]; intros es es' H.
  - now injection H.
  - cbn [Rounded.add_ways add_ways] in *.
    destruct (Rounded.add_way computed_a nodes (consecutive refs) es)
      as [es1 | e] eqn:E; [| discriminate].
    apply rounded_add_way_inv in E. rewrite E. now apply IH.
Qed.

Lemma rounded_distances_inv (computed_a : R -> R -> R -> R -> R)
  (lat lon : R) (flood_points : list Coord) :
  forall ds,
    mapM (fun f => Rounded.haversine_km computed_a lat lon (fst f) (snd f))
      flood_points = Ok ds ->
    ds = map (fun f => haversine_km lat lon (fst f) (snd f)) flood_points.
Proof.
  induction flood_points as [| f r IH]; intros ds H.
  - now injection H as <-.
  - cbn [mapM] in H.
    destruct (rounded_haversine_km_cases computed_a lat lon (fst f) (snd f))
      as [[_ E] | [_ E]]; rewrite E in H; [| discriminate].
    cbn [bind] in H.
    destruct (mapM (fun f0 => Rounded.haversine_km computed_a lat lon
                                (fst f0) (snd f0)) r) as [ds' | e];
      [| discriminate].
    injection H as <-. cbn [map]. f_equal. now apply IH.
Qed.

Lemma rounded_min_distance_inv (computed_a : R -> R -> R -> R -> R)
  (lat lon : R) (flood_points : list Coord) (d : R) :
  Rounded.min_distance_to_flood computed_a lat lon flood_points = Ok d ->
  min_distance_to_flood lat lon flood_points = Ok d.
Proof.
  unfold Rounded.min_distance_to_flood, min_distance_to_flood.
  destruct (mapM (fun f => Rounded.haversine_km computed_a lat lon
                             (fst f) (snd f)) flood_points) as [ds | e] eqn:E;
    [| discriminate].
  apply rounded_distances_inv in E. now rewrite E.
Qed.

Lemma rounded_weigh_edge_inv (computed_a : R -> R -> R -> R -> R)
  (nodes : list (Z * Coord)) (flood_points : list Coord)
  (alpha max_risk_dist_km : R) (s : segment) (e : edge) :
  Rounded.weigh_edge computed_a nodes flood_points alpha max_risk_dist_km s
  = Ok e ->
  weigh_edge nodes flood_points alpha max_risk_dist_km s = Ok e.
Proof.
  destruct s as [[u v] len]. unfold Rounded.weigh_edge, weigh_edge.
  destruct (node_coord nodes u) as [cu | e1]; [| discriminate].
  destruct (node_coord nodes v) as [cv | e2]; [| discriminate].
  cbn [bind]. unfold Rounded.midpoint_distance, midpoint_distance.
  destruct (Rounded.min_distance_to_flood computed_a
              ((fst cu + fst cv) / 2) ((snd cu + snd cv) / 2) flood_points)
    as [d |] eqn:E; [| discriminate].
  apply rounded_min_distance_inv in E. now rewrite E.
Qed.

Lemma mapM_inv_lift {A B : Type} (f g : A -> result B) (l : list A) :
  (forall a b, f a = Ok b -> g a = Ok b) ->
  forall l', mapM f l = Ok l' -> mapM g l = Ok l'.
Proof.
  intros Hfg. induction l as [| a r IH]; intros l' H; [assumption|].
  cbn [mapM] in *.
  destruct (f a) as [b |] eqn:Ea; [| discriminate].
  rewrite (Hfg a b Ea). cbn [bind] in *.
  destruct (mapM f r) as [bs |]; [| discriminate].
  now rewrite (IH bs eq_refl).
Qed.

Lemma rounded_graph_of_elements_inv (computed_a : R -> R -> R -> R -> R)
  (flood_points : list Coord) (alpha max_risk_dist_km : R)
  (els : list element) (G : Graph) :
  Rounded.graph_of_elements computed_a flood_points alpha max_risk_dist_km
    els = Ok G ->
  graph_of_elements flood_points alpha max_risk_dist_km els = Ok G.
Proof.
  unfold Rounded.graph_of_elements, graph_of_elements.
  destruct (Rounded.add_ways computed_a (collect_nodes els [])
              (collect_ways els) []) as [segs |] eqn:E; [| discriminate].
  apply rounded_add_ways_inv in E. rewrite E. cbn [bind].
  destruct (mapM (Rounded.weigh_edge computed_a (collect_nodes els [])
                    flood_points alpha max_risk_dist_km) segs)
    as [es |] eqn:Em; [| discriminate].
  apply (mapM_inv_lift _
           (weigh_edge (collect_nodes els []) flood_points alpha
              max_risk_dist_km)) in Em.
  - now rewrite Em.
  - intros s e. apply rounded_weigh_edge_inv.
Qed.

Lemma rounded_build_constant_reply (computed_a : R -> R -> R -> R -> R)
  (flood_points : list Coord) (margin alpha max_risk_dist_km : R)
  (els : list element) :
  flood_points <> [] ->
  Rounded.build_flood_weighted_graph_overpass computed_a flood_points margin
    alpha max_risk_dist_km (fun _ _ _ _ => Ok els)
  = Rounded.graph_of_elements computed_a flood_points alpha max_risk_dist_km
      els.
Proof.
  intros Hne. unfold Rounded.build_flood_weighted_graph_overpass.
  destruct flood_points as [| p r]; [congruence|]. reflexivity.
Qed.

Lemma rounded_add_way_in (computed_a : R -> R -> R -> R -> R)
  (nodes : list (Z * Coord)) (pairs : list (Z * Z)) :
  (forall a b ca cb,
      lookup a nodes = Some ca -> lookup b nodes = Some cb ->
      in_domain computed_a ca cb) ->
  forall es,
    Rounded.add_way computed_a nodes pairs es = Ok (add_way nodes pairs es).
Proof.
  intros Hdom. induction pairs as [| [a b] r IH]; intros es; [reflexivity|].
  cbn [Rounded.add_way add_way].
  destruct (lookup a nodes) as [[lat1 lon1] |] eqn:Ea; [| apply IH].
  destruct (lookup b nodes) as [[lat2 lon2] |] eqn:Eb; [| apply IH].
  rewrite rounded_haversine_km_in by exact (Hdom a b _ _ Ea Eb).
  apply IH.
Qed.

Lemma rounded_add_ways_in (computed_a : R -> R -> R -> R -> R)
  (nodes : list (Z * Coord)) (ways : list (list Z)) :
  (forall a b ca cb,
      lookup a nodes = Some ca -> lookup b nodes = Some cb ->
      in_domain computed_a ca cb) ->
  forall es,
    Rounded.add_ways computed_a nodes ways es = Ok (add_ways nodes ways es).
Proof.
  intros Hdom. induction ways as [| refs r IH]; intros es; [reflexivity|].
  cbn [Rounded.add_ways add_ways].
  rewrite (rounded_add_way_in computed_a nodes (consecutive refs) Hdom).
  apply IH.
Qed.

Lemma rounded_distances_in (computed_a : R -> R -> R -> R -> R)
  (lat lon : R) (flood_points : list Coord) :
  Forall (in_domain computed_a (lat, lon)) flood_points ->
  mapM (fun f => Rounded.haversine_km computed_a lat lon (fst f) (snd f))
    flood_points
  = Ok (map (fun f => haversine_km lat lon (fst f) (snd f)) flood_points).
Proof.
  induction 1 as [| f r Hf _ IH]; [reflexivity|].
  cbn [mapM map]. rewrite rounded_haversine_km_in by exact Hf.
  cbn [bind]. now rewrite IH.
Qed.

Lemma rounded_weigh_edge_in (computed_a : R -> R -> R -> R -> R)
  (nodes : list (Z * Coord)) (flood_points : list Coord)
  (alpha max_risk_dist_km : R) (s : segment) :
  (forall a b ca cb f,
      lookup a nodes = Some ca -> lookup b nodes = Some cb ->
      In f flood_points -> in_domain computed_a (midpoint ca cb) f) ->
  Rounded.weigh_edge computed_a nodes flood_points alpha max_risk_dist_km s
  = weigh_edge nodes flood_points alpha max_risk_dist_km s.
Proof.
  intros Hdom. destruct s as [[u v] len].
  unfold Rounded.weigh_edge, weigh_edge, node_coord.
  destruct (lookup u nodes) as [cu |] eqn:Eu; [| reflexivity].
  destruct (lookup v nodes) as [cv |] eqn:Ev; [| reflexivity].
  cbn [bind].
  unfold Rounded.midpoint_distance, midpoint_distance,
    Rounded.min_distance_to_flood, min_distance_to_flood.
  rewrite rounded_distances_in; [reflexivity|].
  rewrite Forall_forall. intros f Hf.
  exact (Hdom u v cu cv f Eu Ev Hf).
Qed.

Lemma mapM_ext {A B : Type} (f g : A -> result B) (l : list A) :
  (forall a, f a = g a) -> mapM f l = mapM g l.
Proof.
  intros Hfg. induction l as [| a r IH]; [reflexivity|].
  cbn [mapM]. now rewrite Hfg, IH.
Qed.

Lemma rounded_graph_of_elements_in (computed_a : R -> R -> R -> R -> R)
  (flood_points : list Coord) (alpha max_risk_dist_km : R)
  (els : list element) :
  (forall a b ca cb,
      lookup a (collect_nodes els []) = Some ca ->
      lookup b (collect_nodes els []) = Some cb ->
      in_domain computed_a ca cb) ->
  (forall a b ca cb f,
      lookup a (collect_nodes els []) = Some ca ->
      lookup b (collect_nodes els []) = Some cb ->
      In f flood_points -> in_domain computed_a (midpoint ca cb) f) ->
  Rounded.graph_of_elements computed_a flood_points alpha max_risk_dist_km
    els
  = graph_of_elements flood_points alpha max_risk_dist_km els.
Proof.
  intros H1 H2. unfold Rounded.graph_of_elements, graph_of_elements.
  rewrite (rounded_add_ways_in computed_a _ _ H1). cbn [bind].
  rewrite (mapM_ext _
             (weigh_edge (collect_nodes els []) flood_points alpha
                max_risk_dist_km)); [reflexivity|].
  intros s. now apply rounded_weigh_edge_in.
Qed.

(** X9: flood points that the loader returns never stop the builder for
    want of a hazard: for every reply the builder goes on to build the
    graph of the reply.  A graph that it returns has its edges between its
    nodes, and weights that are not negative when [alpha] is not negative,
    so that the search can use it.  It does return a graph whenever the
    float computed for [a] stays in the domain of the square roots for
    every two nodes of the reply and for the middle of every two nodes and
    every flood point. *)
Theorem loaded_points_build (computed_a : R -> R -> R -> R -> R)
  (matches : list (R * R)) (points : list Coord)
  (margin alpha max_risk_dist_km : R) (els : list element) :
  load_flood_points_from_kml matches = Ok points ->
  Rounded.build_flood_weighted_graph_overpass computed_a points margin alpha
    max_risk_dist_km (fun _ _ _ _ => Ok els)
  = Rounded.graph_of_elements computed_a points alpha max_risk_dist_km els
  /\ (forall G,
         Rounded.build_flood_weighted_graph_overpass computed_a points margin
           alpha max_risk_dist_km (fun _ _ _ _ => Ok els) = Ok G ->
         graph_ok G /\ (0 <= alpha -> nonneg_weights G))
  /\ ((forall a b ca cb,
          lookup a (collect_nodes els []) = Some ca ->
          lookup b (collect_nodes els []) = Some cb ->
          in_domain computed_a ca cb) ->
      (forall a b ca cb f,
          lookup a (collect_nodes els []) = Some ca ->
          lookup b (collect_nodes els []) = Some cb ->
          In f points -> in_domain computed_a (midpoint ca cb) f) ->
      exists G,
        Rounded.build_flood_weighted_graph_overpass computed_a points margin
          alpha max_risk_dist_km (fun _ _ _ _ => Ok els) = Ok G).
Proof.
  intros Hload.
  pose proof (loaded_points_nonempty matches points Hload) as Hne.
  rewrite rounded_build_constant_reply by assumption.
  split; [reflexivity|]. split.
  - intros G HG. apply rounded_graph_of_elements_inv in HG. split.
    + now apply (built_graph_ok points alpha max_risk_dist_km els).
    + intros Ha.
      now apply (built_nonneg_weights points alpha max_risk_dist_km els).
  - intros H1 H2. rewrite rounded_graph_of_elements_in by assumption.
    now apply graph_of_elements_defined.
Qed.

Lemma loaded_points_build_witness :
  load_flood_points_from_kml [(80, 13)] = Ok sample_hazards
  /\ Rounded.build_flood_weighted_graph_overpass haversine_a sample_hazards
       (2 / 100) 5 (1 / 2) (fun _ _ _ _ => Ok twin_reply)
     = Rounded.graph_of_elements haversine_a sample_hazards 5 (1 / 2)
         twin_reply
  /\ (forall G,
         Rounded.build_flood_weighted_graph_overpass haversine_a
           sample_hazards (2 / 100) 5 (1 / 2) (fun _ _ _ _ => Ok twin_reply)
         = Ok G ->
         graph_ok G /\ (0 <= 5 -> nonneg_weights G))
  /\ ((forall a b ca cb,
          lookup a (collect_nodes twin_reply []) = Some ca ->
          lookup b (collect_nodes twin_reply []) = Some cb ->
          in_domain haversine_a ca cb) ->
      (forall a b ca cb f,
          lookup a (collect_nodes twin_reply []) = Some ca ->
          lookup b (collect_nodes twin_reply []) = Some cb ->
          In f sample_hazards -> in_domain haversine_a (midpoint ca cb) f) ->
      exists G,
        Rounded.build_flood_weighted_graph_overpass haversine_a
          sample_hazards (2 / 100) 5 (1 / 2) (fun _ _ _ _ => Ok twin_reply)
        = Ok G).
Proof.
  split; [reflexivity|].
  apply (loaded_points_build haversine_a [(80, 13)] sample_hazards (2 / 100)
           5 (1 / 2) twin_reply).
  reflexivity.
Defined.
